(** * Connection IDs and datagram dispatch of the QUIC listener

    A shallow embedding of [internal/quic/conn_id.go] (the per-connection
    connection-ID state) and of the listener (socket life cycle, dispatch
    of datagrams whose destination connection ID is unknown), with the
    properties the specification states about them.

    Conventions.
    - [int64] and [int] values are integers of [Z]; the two places where
      the code does arithmetic that can leave the 64-bit range
      ([toIssue--] and [nextLocalSeq++]) go through [wrap64].
    - A byte is a [Z] in [0, 256), a byte slice is a [list Z]; a stateless
      reset token (a [[16]byte] array) is a byte list as well.
    - A [*Conn] is its identity, a natural number.
    - The closures handed to [connsMap.updateConnIDs] are lists of map
      operations; a method of [connIDState] returns, next to its result
      and the new state, the closures it has enqueued, oldest first.
    - A run-time panic is the result [None]. *)

From Stdlib Require Import ZArith List Bool Lia Sorted.
From stdpp Require Import base decidable option list gmap.
Import ListNotations.

Local Open Scope Z_scope.

(** ** Machine integers and slices *)

Definition wrap64 (z : Z) : Z := (z + 2 ^ 63) mod 2 ^ 64 - 2 ^ 63.

Abbreviation bytes := (list Z).

(** [bytes.Equal]: a nil slice and an empty one are equal. *)
Definition bytes_Equal (a b : bytes) : bool := bool_decide (a = b).

(** [copy(dst, src)]: the first [min (len dst) (len src)] elements of
    [dst] are overwritten. *)
Definition copy (dst src : bytes) : bytes :=
  take (length dst) src ++ drop (length src) dst.

(** [b[i:]] when [len b - n = i]: the last [n] elements. *)
Definition tail_from (n : nat) (b : bytes) : bytes :=
  drop (length b - n)%nat b.

(** ** Shared vocabulary of the two files *)

Definition Conn := nat.

Inductive transportError :=
| errNo
| errInternal
| errConnectionIDLimit
| errProtocolViolation
| errTransportParameter.

(** A Go [error]: a transport error of ours, or whatever the source of
    connection IDs reports. *)
Inductive error :=
| localTransportError (code : transportError)
| errNewConnID.

(** The body of a closure given to [updateConnIDs] is a sequence of these
    calls on the [connsMap]. *)
Inductive mapOp :=
| addConnID (c : Conn) (cid : bytes)
| retireConnID (c : Conn) (cid : bytes)
| addResetToken (c : Conn) (token : bytes)
| retireResetToken (c : Conn) (token : bytes).

Definition closure := list mapOp.

#[global] Instance transportError_eq_dec : EqDecision transportError.
Proof. solve_decision. Defined.
#[global] Instance error_eq_dec : EqDecision error.
Proof. solve_decision. Defined.
#[global] Instance mapOp_eq_dec : EqDecision mapOp.
Proof. solve_decision. Defined.

(** ** conn_id.go *)

Module ConnID.

(** Modelled from the spec: the type [sentVal] is declared outside the
    given sources; it is the "send state" of a connection ID, of which
    conn_id.go only ever asks [setUnsent] in the functions below. *)
Inductive sentVal :=
| sentValUnset
| sentValUnsent
| sentValSent (pnum : Z)
| sentValReceived.

Definition setUnsent (_ : sentVal) : sentVal := sentValUnsent.

Record connID := {
  cid : bytes;
  seq : Z;
  retired : bool;
  send : sentVal
}.

Record remoteConnID := {
  rconnID :> connID;
  resetToken : bytes
}.

Record connIDState := {
  local : list connID;
  remote : list remoteConnID;
  nextLocalSeq : Z;
  retireRemotePriorTo : Z;
  peerActiveConnIDLimit : Z;
  originalDstConnID : bytes;
  retrySrcConnID : bytes;
  needSend : bool
}.

(** The zero value of the struct. *)
Definition zeroState : connIDState :=
  {| local := []; remote := []; nextLocalSeq := 0; retireRemotePriorTo := 0;
     peerActiveConnIDLimit := 0; originalDstConnID := [];
     retrySrcConnID := []; needSend := false |}.

(** A composite literal [connID{seq: .., cid: ..}]. *)
Definition mkConnID (sq : Z) (id : bytes) : connID :=
  {| cid := id; seq := sq; retired := false; send := sentValUnset |}.

Definition set_local (l : list connID) (s : connIDState) : connIDState :=
  {| local := l; remote := remote s; nextLocalSeq := nextLocalSeq s;
     retireRemotePriorTo := retireRemotePriorTo s;
     peerActiveConnIDLimit := peerActiveConnIDLimit s;
     originalDstConnID := originalDstConnID s;
     retrySrcConnID := retrySrcConnID s; needSend := needSend s |}.

Definition set_remote (l : list remoteConnID) (s : connIDState) : connIDState :=
  {| local := local s; remote := l; nextLocalSeq := nextLocalSeq s;
     retireRemotePriorTo := retireRemotePriorTo s;
     peerActiveConnIDLimit := peerActiveConnIDLimit s;
     originalDstConnID := originalDstConnID s;
     retrySrcConnID := retrySrcConnID s; needSend := needSend s |}.

Definition set_nextLocalSeq (n : Z) (s : connIDState) : connIDState :=
  {| local := local s; remote := remote s; nextLocalSeq := n;
     retireRemotePriorTo := retireRemotePriorTo s;
     peerActiveConnIDLimit := peerActiveConnIDLimit s;
     originalDstConnID := originalDstConnID s;
     retrySrcConnID := retrySrcConnID s; needSend := needSend s |}.

Definition set_retireRemotePriorTo (n : Z) (s : connIDState) : connIDState :=
  {| local := local s; remote := remote s; nextLocalSeq := nextLocalSeq s;
     retireRemotePriorTo := n;
     peerActiveConnIDLimit := peerActiveConnIDLimit s;
     originalDstConnID := originalDstConnID s;
     retrySrcConnID := retrySrcConnID s; needSend := needSend s |}.

Definition set_peerActiveConnIDLimit (n : Z) (s : connIDState) : connIDState :=
  {| local := local s; remote := remote s; nextLocalSeq := nextLocalSeq s;
     retireRemotePriorTo := retireRemotePriorTo s;
     peerActiveConnIDLimit := n;
     originalDstConnID := originalDstConnID s;
     retrySrcConnID := retrySrcConnID s; needSend := needSend s |}.

Definition set_needSend (b : bool) (s : connIDState) : connIDState :=
  {| local := local s; remote := remote s; nextLocalSeq := nextLocalSeq s;
     retireRemotePriorTo := retireRemotePriorTo s;
     peerActiveConnIDLimit := peerActiveConnIDLimit s;
     originalDstConnID := originalDstConnID s;
     retrySrcConnID := retrySrcConnID s; needSend := b |}.

(** [retireRemote] on the entry itself; the caller records
    [s.needSend = true]. *)
Definition retireRemote (rcid : remoteConnID) : remoteConnID :=
  {| rconnID := {| cid := cid rcid; seq := seq rcid; retired := true;
                   send := setUnsent (send rcid) |};
     resetToken := resetToken rcid |}.

Section WithLimits.

(** The two limits are constants of the package declared outside the given
    sources. *)
Variable activeConnIDLimit : Z.
Variable maxPeerActiveConnIDLimit : Z.

(** [c.newConnID(seq)]: a test hook or the random generator. [newConnID k
    sq] is what the call number [k] answers when asked for sequence number
    [sq]; [None] is an error. *)
Variable newConnID : nat -> Z -> option bytes.

(** *** handleNewConnID *)

(** The condition of line 300. *)
Definition toRetire (prior : Z) (rcid : remoteConnID) : bool :=
  negb (retired rcid) && (0 <=? seq rcid) && (seq rcid <? prior).

(** State of the loop of lines 298-315 when it is left. *)
Inductive scanResult :=
| ScanDone (rem : list remoteConnID) (have : bool) (active : Z)
           (ns : bool) (ups : list closure)
| ScanViolation (rem : list remoteConnID) (ns : bool) (ups : list closure).

(** One pass over [s.remote]: [todo] is what is left of the slice, [have],
    [active] and [ns] ([s.needSend]) are the variables of the loop. The
    entries are updated in place, so the result holds the whole slice also
    when the loop is left by [return]. The closure of line 302 reads
    [rcid.resetToken] only when the listen loop runs it; here it is given
    the token the entry holds when the closure is made, which is what it
    reads as long as the entry is neither moved nor rewritten before the
    closure runs (nothing does so before [handleNewConnID] returns). *)
Fixpoint scanRemote (c : Conn) (sq : Z) (id : bytes) (prior : Z)
    (todo : list remoteConnID) (have : bool) (active : Z) (ns : bool)
    : scanResult :=
  match todo with
  | [] => ScanDone [] have active ns []
  | rcid :: rest =>
      let hit := toRetire prior rcid in
      let rcid' := if hit then retireRemote rcid else rcid in
      let ns' := if hit then true else ns in
      let ups := if hit then [[retireResetToken c (resetToken rcid')]] else [] in
      let active' := if retired rcid' then active else active + 1 in
      if (seq rcid' =? sq) && negb (bytes_Equal (cid rcid') id) then
        ScanViolation (rcid' :: rest) ns' ups
      else
        let have' := if seq rcid' =? sq then true else have in
        match scanRemote c sq id prior rest have' active' ns' with
        | ScanDone rem h a n us => ScanDone (rcid' :: rem) h a n (ups ++ us)
        | ScanViolation rem n us => ScanViolation (rcid' :: rem) n (ups ++ us)
        end
  end.

Definition handleNewConnID (s : connIDState) (c : Conn) (sq retire : Z)
    (id : bytes) (token : bytes)
    : option (option error * connIDState * list closure) :=
  match remote s with
  | [] => None
  | head :: _ =>
      if (length (cid head) =? 0)%nat then
        Some (Some (localTransportError errProtocolViolation), s, [])
      else
        let s1 := if retire >? retireRemotePriorTo s
                  then set_retireRemotePriorTo retire s else s in
        let prior := retireRemotePriorTo s1 in
        match scanRemote c sq id prior (remote s1) false 0 (needSend s1) with
        | ScanViolation rem ns ups =>
            Some (Some (localTransportError errProtocolViolation),
                  set_needSend ns (set_remote rem s1), ups)
        | ScanDone rem have active ns ups =>
            let s2 := set_needSend ns (set_remote rem s1) in
            let '(s3, active', ups') :=
              if have then (s2, active, ups)
              else
                let new := {| rconnID := mkConnID sq id; resetToken := token |} in
                if sq <? prior then
                  (set_needSend true (set_remote (rem ++ [retireRemote new]) s2),
                   active, ups)
                else
                  (set_remote (rem ++ [new]) s2, active + 1,
                   ups ++ [[addResetToken c token]]) in
            if active' >? activeConnIDLimit then
              Some (Some (localTransportError errConnectionIDLimit), s3, ups')
            else if Z.of_nat (length (remote s3)) >? 4 * activeConnIDLimit then
              Some (Some (localTransportError errConnectionIDLimit), s3, ups')
            else Some (None, s3, ups')
        end
  end.

(** *** issueLocalIDs and its callers *)

(** The condition of line 169: a local ID that counts against the peer's
    limit. *)
Definition countsAgainstLimit (e : connID) : bool :=
  negb (seq e =? -1) && negb (retired e).

(** Lines 168-172: one [toIssue--] for each such ID. *)
Definition countDown (toIssue : Z) (l : list connID) : Z :=
  fold_left (fun t e => if countsAgainstLimit e then wrap64 (t - 1) else t)
            l toIssue.

(** The ID appended by lines 180-184. *)
Definition issued (sq : Z) (id : bytes) : connID :=
  {| cid := id; seq := sq; retired := false;
     send := setUnsent sentValUnset |}.

(** Lines 174-188. The loop [for toIssue > 0 { ...; toIssue-- }] makes
    [Z.to_nat toIssue] rounds unless [newConnID] fails; [n] is the number
    of rounds still to make, [k] the number of calls of [c.newConnID] made
    so far. *)
Fixpoint issueLoop (n : nat) (s : connIDState) (k : nat) (newIDs : list bytes)
    : option error * connIDState * nat * list bytes :=
  match n with
  | O => (None, s, k, newIDs)
  | S n' =>
      match newConnID k (nextLocalSeq s) with
      | None => (Some errNewConnID, s, S k, newIDs)
      | Some id =>
          let s1 := set_local (local s ++ [issued (nextLocalSeq s) id]) s in
          let s2 := set_nextLocalSeq (wrap64 (nextLocalSeq s1 + 1)) s1 in
          issueLoop n' (set_needSend true s2) (S k) (newIDs ++ [id])
      end
  end.

(** The result is the error, the state, the closures enqueued and the
    number of calls of [c.newConnID] made so far. [int] has 64 bits, so
    the conversion of line 167 changes nothing. *)
Definition issueLocalIDs (s : connIDState) (c : Conn) (k : nat)
    : option error * connIDState * list closure * nat :=
  let toIssue :=
    countDown (Z.min (peerActiveConnIDLimit s) maxPeerActiveConnIDLimit)
              (local s) in
  match issueLoop (Z.to_nat toIssue) s k [] with
  | (Some err, s', k', _) => (Some err, s', [], k')
  | (None, s', k', newIDs) => (None, s', [map (addConnID c) newIDs], k')
  end.

Definition setPeerActiveConnIDLimit (s : connIDState) (c : Conn) (k : nat)
    (lim : Z) : option error * connIDState * list closure * nat :=
  issueLocalIDs (set_peerActiveConnIDLimit lim s) c k.

Definition initServer (s : connIDState) (c : Conn) (k : nat) (dstConnID : bytes)
    : option error * connIDState * list closure * nat :=
  let s1 := set_local (local s ++ [mkConnID (-1) dstConnID]) s in
  match newConnID k 0 with
  | None => (Some errNewConnID, s1, [], S k)
  | Some locid =>
      let s2 := set_local (local s1 ++ [mkConnID 0 locid]) s1 in
      (None, set_nextLocalSeq 1 s2,
       [[addConnID c dstConnID; addConnID c locid]], S k)
  end.

(** Lines 372-381: the index of the first local ID with sequence number
    [sq], if there is one. *)
Fixpoint findSeq (l : list connID) (sq : Z) : option nat :=
  match l with
  | [] => None
  | e :: rest => if seq e =? sq then Some O else S <$> findSeq rest sq
  end.

(** The error of [issueLocalIDs] is dropped in line 382. *)
Definition handleRetireConnID (s : connIDState) (c : Conn) (k : nat) (sq : Z)
    : option error * connIDState * list closure * nat :=
  if sq >=? nextLocalSeq s then
    (Some (localTransportError errProtocolViolation), s, [], k)
  else
    let '(s1, ups) :=
      match findSeq (local s) sq with
      | Some i =>
          (set_local (take i (local s) ++ drop (S i) (local s)) s,
           [[retireConnID c (cid (nth i (local s) (mkConnID 0 [])))]])
      | None => (s, [])
      end in
    let '(_, s2, ups', k') := issueLocalIDs s1 c k in
    (None, s2, ups ++ ups', k').

End WithLimits.

(** *** Vocabulary of the statements *)

(** An entry that carries the sequence number of the frame with another
    connection ID: line 310 returns at it. *)
Definition clash (sq : Z) (id : bytes) (rcid : remoteConnID) : bool :=
  (seq rcid =? sq) && negb (bytes_Equal (cid rcid) id).

(** The number of entries the loop of lines 298-315 gets to: all of them,
    or those up to and including the first clash. *)
Fixpoint visited (sq : Z) (id : bytes) (l : list remoteConnID) : nat :=
  match l with
  | [] => O
  | rcid :: rest => if clash sq id rcid then 1%nat else S (visited sq id rest)
  end.

Definition retirePass (prior : Z) (l : list remoteConnID) : list remoteConnID :=
  map (fun rcid => if toRetire prior rcid then retireRemote rcid else rcid) l.

Definition retireOps (c : Conn) (prior : Z) (l : list remoteConnID)
    : list closure :=
  flat_map (fun rcid => if toRetire prior rcid
                        then [[retireResetToken c (resetToken rcid)]] else [])
           l.

(** The number of remote connection IDs that are not retired. *)
Definition activeRemote (l : list remoteConnID) : Z :=
  Z.of_nat (length (List.filter (fun rcid : remoteConnID => negb (retired rcid)) l)).

Definition hasSeq (sq : Z) (l : list remoteConnID) : bool :=
  existsb (fun rcid : remoteConnID => seq rcid =? sq) l.

(** What lines 317-339 append to [s.remote]. *)
Definition appended (prior sq : Z) (id token : bytes) (l : list remoteConnID)
    : list remoteConnID :=
  if hasSeq sq l then []
  else
    let new := {| rconnID := mkConnID sq id; resetToken := token |} in
    [if sq <? prior then retireRemote new else new].

Definition isAddResetToken (op : mapOp) : bool :=
  match op with addResetToken _ _ => true | _ => false end.

(** The number of local connection IDs that count against the peer's
    limit, and the number of those that are not retired. *)
Definition activeLocal (l : list connID) : Z :=
  Z.of_nat (length (List.filter countsAgainstLimit l)).

Definition nonRetiredLocal (l : list connID) : Z :=
  Z.of_nat (length (List.filter (fun e => negb (retired e)) l)).

(** The IDs issued for the connection IDs [ids], from sequence number [sq]
    on. *)
Fixpoint issuedFrom (sq : Z) (ids : list bytes) : list connID :=
  match ids with
  | [] => []
  | id :: rest => issued sq id :: issuedFrom (sq + 1) rest
  end.

(** Two slices that hold the same connection IDs under the same sequence
    numbers. *)
Definition sameIDs (l l' : list remoteConnID) : Prop :=
  Forall2 (fun r r' : remoteConnID => seq r' = seq r /\ cid r' = cid r) l l'.

(** The state [s] with the three fields [handleNewConnID] writes. *)
Definition updated (prior : Z) (rem : list remoteConnID) (ns : bool)
    (s : connIDState) : connIDState :=
  {| local := local s; remote := rem; nextLocalSeq := nextLocalSeq s;
     retireRemotePriorTo := prior;
     peerActiveConnIDLimit := peerActiveConnIDLimit s;
     originalDstConnID := originalDstConnID s;
     retrySrcConnID := retrySrcConnID s; needSend := ns |}.

Definition protocolViolation : option error :=
  Some (localTransportError errProtocolViolation).

Definition connectionIDLimit : option error :=
  Some (localTransportError errConnectionIDLimit).

(** *** Sample data *)

(** Some connection. *)
Definition conn7 : Conn := 7%nat.

Definition cidA : bytes := [1; 1; 1; 1; 1; 1; 1; 1].
Definition cidB : bytes := [2; 2; 2; 2; 2; 2; 2; 2].
Definition cidC : bytes := [3; 3; 3; 3; 3; 3; 3; 3].
Definition tokenA : bytes := repeat 10 16.
Definition tokenB : bytes := repeat 11 16.
Definition tokenC : bytes := repeat 12 16.

Definition remoteA : remoteConnID :=
  {| rconnID := mkConnID 0 cidA; resetToken := tokenA |}.
Definition remoteB : remoteConnID :=
  {| rconnID := mkConnID 1 cidB; resetToken := tokenB |}.

(** A connection that uses [cidA] and has [cidB] in reserve. *)
Definition twoRemotes : connIDState := set_remote [remoteA; remoteB] zeroState.

(** A client before the first Initial packet of the server: the only
    remote ID is the transient one. *)
Definition transientRemote : connIDState :=
  set_remote [{| rconnID := mkConnID (-1) cidA; resetToken := [] |}] zeroState.

(** The peer uses a connection ID of length zero. *)
Definition emptyRemote : connIDState :=
  set_remote [{| rconnID := mkConnID 0 []; resetToken := [] |}] zeroState.

(** A spare remote connection ID with sequence number [i]. *)
Definition spare (i : nat) : remoteConnID :=
  {| rconnID := mkConnID (Z.of_nat i) cidB; resetToken := tokenB |}.

(** A connection that uses [cidA] and holds [lim] spare remote connection
    IDs, with the sequence numbers from 1 on. *)
Definition crowded (lim : Z) : connIDState :=
  set_remote (remoteA :: map spare (List.seq 1 (Z.to_nat lim))) zeroState.

(** A source of connection IDs that never fails: the call number [k]
    yields eight bytes [k]. *)
Definition countingIDs (k : nat) (_ : Z) : option bytes :=
  Some (repeat (Z.of_nat k) 8).

(** A server connection after [initServer]: the transient connection ID the
    client chose and the first one of the server. *)
Definition serverStart : connIDState :=
  set_nextLocalSeq 1
    (set_local [mkConnID (-1) cidA; mkConnID 0 (repeat 0 8)] zeroState).

(** That server once its peer has announced the limit 2. *)
Definition serverLimit2 : connIDState := set_peerActiveConnIDLimit 2 serverStart.

End ConnID.

(** ** The listener *)

Module Listener.

Definition AddrPort := (bytes * Z)%type.

Record datagram := {
  b : bytes;
  addr : AddrPort
}.

Inductive connSide := clientSide | serverSide.

(** Modelled from the spec: the packet types are declared outside the
    given sources; the listener only asks whether a packet is an Initial
    one. *)
Inductive packetType :=
| packetTypeInvalid
| packetTypeInitial
| packetType0RTT
| packetTypeHandshake
| packetTypeRetry
| packetType1RTT
| packetTypeVersionNegotiation.

#[global] Instance packetType_eq_dec : EqDecision packetType.
Proof. solve_decision. Defined.

(** The fields of [genericLongPacket] the listener reads. *)
Record genericLongPacket := {
  version : Z;
  dstConnID : bytes;
  srcConnID : bytes
}.

(** The fields of [Config] the listener reads; [TLSConfig] only matters to
    [Listen]. *)
Record Config := {
  RequireAddressValidation : bool;
  StatelessResetKey : option bytes
}.

Record statelessResetTokenGenerator := {
  canReset : bool;
  resetKey : option bytes
}.

(** Modelled from the spec: [statelessResetTokenGenerator.init] is
    declared outside the given sources; resets are possible exactly when a
    key is configured. *)
Definition resetGen_init (key : option bytes) : statelessResetTokenGenerator :=
  {| canReset := bool_decide (is_Some key); resetKey := key |}.

Record connsMap := {
  byConnID : gmap (list Z) Conn;
  byResetToken : gmap (list Z) Conn;
  updateNeeded : bool;
  updates : list closure
}.

Definition connsMap_init : connsMap :=
  {| byConnID := ∅; byResetToken := ∅; updateNeeded := false; updates := [] |}.

(** [addConnID], [retireConnID], [addResetToken], [retireResetToken]. *)
Definition applyOp (m : connsMap) (op : mapOp) : connsMap :=
  match op with
  | addConnID c id =>
      {| byConnID := <[id := c]> (byConnID m); byResetToken := byResetToken m;
         updateNeeded := updateNeeded m; updates := updates m |}
  | retireConnID _ id =>
      {| byConnID := delete id (byConnID m); byResetToken := byResetToken m;
         updateNeeded := updateNeeded m; updates := updates m |}
  | addResetToken c token =>
      {| byConnID := byConnID m; byResetToken := <[token := c]> (byResetToken m);
         updateNeeded := updateNeeded m; updates := updates m |}
  | retireResetToken _ token =>
      {| byConnID := byConnID m; byResetToken := delete token (byResetToken m);
         updateNeeded := updateNeeded m; updates := updates m |}
  end.

Definition updateConnIDs (m : connsMap) (f : closure) : connsMap :=
  {| byConnID := byConnID m; byResetToken := byResetToken m;
     updateNeeded := true; updates := updates m ++ [f] |}.

Definition applyUpdates (m : connsMap) : connsMap :=
  let m' := fold_left (fun m f => fold_left applyOp f m) (updates m) m in
  {| byConnID := byConnID m'; byResetToken := byResetToken m';
     updateNeeded := false; updates := [] |}.

(** The listener. [conns_map] is the field [connsMap], [udpCloseCalls]
    counts the calls of [udpConn.Close] and [acceptClosed] records
    [acceptQueue.close]. The socket is closed once [udpConn.Close] has been
    called. *)
Record Listener := {
  config : Config;
  resetGen : statelessResetTokenGenerator;
  conns_map : connsMap;
  conns : gset Conn;
  closing : bool;
  acceptClosed : bool;
  udpCloseCalls : nat
}.

Definition udpClosed (l : Listener) : Prop := (0 < udpCloseCalls l)%nat.

Definition set_conns_map (m : connsMap) (l : Listener) : Listener :=
  {| config := config l; resetGen := resetGen l; conns_map := m;
     conns := conns l; closing := closing l; acceptClosed := acceptClosed l;
     udpCloseCalls := udpCloseCalls l |}.

Definition set_conns (cs : gset Conn) (l : Listener) : Listener :=
  {| config := config l; resetGen := resetGen l; conns_map := conns_map l;
     conns := cs; closing := closing l; acceptClosed := acceptClosed l;
     udpCloseCalls := udpCloseCalls l |}.

Definition set_closing (v : bool) (l : Listener) : Listener :=
  {| config := config l; resetGen := resetGen l; conns_map := conns_map l;
     conns := conns l; closing := v; acceptClosed := acceptClosed l;
     udpCloseCalls := udpCloseCalls l |}.

Definition set_acceptClosed (v : bool) (l : Listener) : Listener :=
  {| config := config l; resetGen := resetGen l; conns_map := conns_map l;
     conns := conns l; closing := closing l; acceptClosed := v;
     udpCloseCalls := udpCloseCalls l |}.

(** [l.udpConn.Close()]. *)
Definition udpConn_Close (l : Listener) : Listener :=
  {| config := config l; resetGen := resetGen l; conns_map := conns_map l;
     conns := conns l; closing := closing l; acceptClosed := acceptClosed l;
     udpCloseCalls := S (udpCloseCalls l) |}.

(** What a method of the listener does to the outside. *)
Inductive event :=
| evWriteTo (p : bytes) (a : AddrPort)
| evSendMsgDatagram (c : Conn) (m : datagram)
| evSendMsgStatelessReset (c : Conn) (token : bytes)
| evAbort (c : Conn) (e : error)
| evExit (c : Conn).

(** Modelled from the spec: the constants below are declared outside the
    given sources. Locally issued connection IDs have 8 bytes, a reset
    token has 16, an Initial datagram is padded to 1200 bytes and the one
    supported version is 1. *)
Definition connIDLen : nat := 8.
Definition statelessResetTokenLen : nat := 16.
Definition paddedInitialDatagramSize : nat := 1200.
Definition quicVersion1 : Z := 1.

Definition minimumValidPacketSize : nat := 21.

(** The listener [newListener] returns when [retry.init] does not fail;
    the retry state is outside the given sources and left out. *)
Definition newListener (cfg : Config) : Listener :=
  {| config := cfg; resetGen := resetGen_init (StatelessResetKey cfg);
     conns_map := connsMap_init; conns := ∅; closing := false;
     acceptClosed := false; udpCloseCalls := 0 |}.

(** What the listener uses of the package and is declared outside the
    given sources. *)
Class Externals := {
  (** Bits of the first byte of a packet. *)
  headerFormLong : Z;
  fixedBit : Z;
  dstConnIDForDatagram : bytes -> option bytes;
  parseGenericLongHeaderPacket : bytes -> option genericLongPacket;
  getPacketType : bytes -> packetType;
  (** Arguments: the buffer, the destination and the source connection ID
      of the packet to build, the versions. *)
  appendVersionNegotiation : bytes -> bytes -> bytes -> list Z -> bytes;
  tokenForConnID : statelessResetTokenGenerator -> bytes -> bytes;
  (** [l.validateInitialAddress]: the original destination connection ID
      when the address is validated, and what it has sent (a Retry). *)
  validateInitialAddress :
    Z -> genericLongPacket -> AddrPort -> option bytes * list event;
  (** The constructor [newConn] of a [Conn]: the new connection, or an
      error, and the closures it has handed to [connsMap.updateConnIDs]. *)
  newConn_ctor :
    Z -> connSide -> bytes -> bytes -> AddrPort -> Config ->
    option Conn * list closure;
  (** The bytes [rand.Read] delivers; a list shorter than the buffer is a
      read that stops early. *)
  randomBytes : bytes
}.

Section WithExternals.

Context {ext : Externals}.

(** Modelled from the spec: [isLongHeader] is declared outside the given
    sources; the long-header bit of the first byte tells long from short
    headers. *)
Definition isLongHeader (b0 : Z) : bool :=
  negb (Z.land b0 headerFormLong =? 0).

Definition sendDatagram (p : bytes) (a : AddrPort) : list event :=
  [evWriteTo p a].

(** The method [newConn] of the listener. *)
Definition newConn (l : Listener) (now : Z) (side : connSide)
    (originalDstConnID retrySrcConnID : bytes) (peerAddr : AddrPort)
    : option Conn * Listener :=
  if closing l then (None, l)
  else
    let '(r, ups) := newConn_ctor now side originalDstConnID retrySrcConnID
                                  peerAddr (config l) in
    let l1 := set_conns_map (fold_left updateConnIDs ups (conns_map l)) l in
    match r with
    | None => (None, l1)
    | Some c => (Some c, set_conns ({[c]} ∪ conns l1) l1)
    end.

(** [Close], lines 105-116: what it does before it waits. *)
Definition Close (l : Listener) : Listener * list event :=
  let l0 := set_acceptClosed true l in
  if closing l0 then (l0, [])
  else
    let l1 := set_closing true l0 in
    let evs := map (fun c => evAbort c (localTransportError errNo))
                   (elements (conns l1)) in
    if (size (conns l1) =? 0)%nat then (udpConn_Close l1, evs) else (l1, evs).

(** [Close], lines 119-125: the context is done before the listen loop
    has exited. *)
Definition Close_cancelled (l : Listener) : list event :=
  map evExit (elements (conns l)).

(** [connDrained]; [s] is [c.connIDState]. *)
Definition connDrained (l : Listener) (c : Conn) (s : ConnID.connIDState)
    : Listener :=
  let cids := map ConnID.cid (ConnID.local s) in
  let tokens := map ConnID.resetToken (ConnID.remote s) in
  let l1 := set_conns_map
              (updateConnIDs (conns_map l)
                 (map (retireConnID c) cids ++ map (retireResetToken c) tokens))
              l in
  let l2 := set_conns (conns l1 ∖ {[c]}) l1 in
  if closing l2 && (size (conns l2) =? 0)%nat then udpConn_Close l2 else l2.

Definition maybeSendStatelessReset (l : Listener) (b : bytes) (a : AddrPort)
    : list event :=
  if negb (canReset (resetGen l)) then []
  else if (length b <? 1 + connIDLen + 1 + 1 + 16)%nat then []
  else
    let cid := take connIDLen (drop 1 b) in
    let token := tokenForConnID (resetGen l) cid in
    let size := Nat.min (length b - 1) 42 in
    let b1 := take size b in
    let n := (length b1 - statelessResetTokenLen)%nat in
    let b2 := copy (take n b1) randomBytes ++ drop n b1 in
    let b3 := <[O := Z.lor (Z.ldiff (nth O b2 0) headerFormLong) fixedBit]> b2 in
    let m := (length b3 - statelessResetTokenLen)%nat in
    let b4 := take m b3 ++ copy (drop m b3) token in
    sendDatagram b4 a.

Definition sendVersionNegotiation (p : genericLongPacket) (a : AddrPort)
    : list event :=
  sendDatagram (appendVersionNegotiation [] (srcConnID p) (dstConnID p)
                                         [quicVersion1]) a.

(** [now] is what the clock (or the test hook) says in line 293. *)
Definition handleUnknownDestinationDatagram (l : Listener) (now : Z)
    (m : datagram) : Listener * list event :=
  if (length (b m) <? minimumValidPacketSize)%nat then (l, [])
  else
    let token := copy (repeat 0 statelessResetTokenLen)
                      (tail_from statelessResetTokenLen (b m)) in
    match byResetToken (conns_map l) !! token with
    | Some c => (l, [evSendMsgStatelessReset c token])
    | None =>
        if negb (isLongHeader (nth O (b m) 0)) then
          (l, maybeSendStatelessReset l (b m) (addr m))
        else
          match parseGenericLongHeaderPacket (b m) with
          | None => (l, [])
          | Some p =>
              if (length (b m) <? paddedInitialDatagramSize)%nat then (l, [])
              else if negb (version p =? quicVersion1) then
                if version p =? 0 then (l, [])
                else (l, sendVersionNegotiation p (addr m))
              else if negb (bool_decide (getPacketType (b m) = packetTypeInitial))
              then (l, [])
              else
                let '(ids, evs) :=
                  if RequireAddressValidation (config l) then
                    match validateInitialAddress now p (addr m) with
                    | (Some original, evs) => (Some (original, dstConnID p), evs)
                    | (None, evs) => (None, evs)
                    end
                  else (Some (dstConnID p, []), []) in
                match ids with
                | None => (l, evs)
                | Some (originalDstConnID, retrySrcConnID) =>
                    match newConn l now serverSide originalDstConnID
                                  retrySrcConnID (addr m) with
                    | (None, l') => (l', evs)
                    | (Some c, l') => (l', evs ++ [evSendMsgDatagram c m])
                    end
                end
          end
    end.

Definition handleDatagram (l : Listener) (now : Z) (m : datagram)
    : Listener * list event :=
  match dstConnIDForDatagram (b m) with
  | None => (l, [])
  | Some id =>
      match byConnID (conns_map l) !! id with
      | None => handleUnknownDestinationDatagram l now m
      | Some c => (l, [evSendMsgDatagram c m])
      end
  end.

(** One round of the loop of [listen] for a datagram that was read. *)
Definition listen_round (l : Listener) (now : Z) (m : datagram)
    : Listener * list event :=
  if (length (b m) =? 0)%nat then (l, [])
  else
    let l1 := if updateNeeded (conns_map l)
              then set_conns_map (applyUpdates (conns_map l)) l else l in
    handleDatagram l1 now m.

(** [Dial] up to the call of [newConn]. *)
Definition Dial (l : Listener) (now : Z) (peerAddr : AddrPort)
    : option Conn * Listener :=
  newConn l now clientSide [] [] peerAddr.

(** What can happen to a listener: each step is one critical section of
    one of its methods, or a connection handing a closure to the
    [connsMap]. *)
Inductive step : Listener -> Listener -> Prop :=
| step_Dial l now a : step l (Dial l now a).2
| step_listen l now m : step l (listen_round l now m).1
| step_Close l : step l (Close l).1
| step_connDrained l c s : step l (connDrained l c s)
| step_updateConnIDs l f :
    step l (set_conns_map (updateConnIDs (conns_map l) f) l).

Inductive reachable (cfg : Config) : Listener -> Prop :=
| reachable_new : reachable cfg (newListener cfg)
| reachable_step l l' : reachable cfg l -> step l l' -> reachable cfg l'.

End WithExternals.

(** *** Vocabulary of the statements *)

(** What a step that can only create a connection does to the listener:
    nothing to [closing] and to the socket, and at most one connection
    more, none when the listener is closing. *)
Definition admits (l l' : Listener) : Prop :=
  closing l' = closing l /\ udpCloseCalls l' = udpCloseCalls l /\
  (conns l' = conns l \/
   closing l = false /\ exists c, conns l' = {[c]} ∪ conns l).

(** *** Sample data *)

(** Stand-ins for the functions declared outside the given sources, after
    the packet layout of RFC 9000: the first byte, four bytes of version,
    then each connection ID behind one byte of length. *)
Definition sampleVersion (bs : bytes) : Z :=
  fold_left (fun acc x => acc * 256 + x) (take 4 (drop 1 bs)) 0.

Definition sampleParse (bs : bytes) : option genericLongPacket :=
  if (length bs <? 7)%nat then None
  else if Z.land (nth O bs 0) 128 =? 0 then None
  else
    let dlen := Z.to_nat (nth 5 bs 0) in
    let slen := Z.to_nat (nth (6 + dlen) bs 0) in
    Some {| version := sampleVersion bs;
            dstConnID := take dlen (drop 6 bs);
            srcConnID := take slen (drop (7 + dlen) bs) |}.

Definition sampleDstConnID (bs : bytes) : option bytes :=
  if Z.land (nth O bs 0) 128 =? 0 then
    if (length bs <? 1 + connIDLen)%nat then None
    else Some (take connIDLen (drop 1 bs))
  else dstConnID <$> sampleParse bs.

Definition samplePacketType (bs : bytes) : packetType :=
  if Z.land (nth O bs 0) 128 =? 0 then packetType1RTT
  else match Z.land (Z.shiftr (nth O bs 0) 4) 3 with
       | 0 => packetTypeInitial
       | 1 => packetType0RTT
       | 2 => packetTypeHandshake
       | _ => packetTypeRetry
       end.

Definition sampleAppendVersionNegotiation (pkt dst src : bytes)
    (versions : list Z) : bytes :=
  pkt ++ [192; 0; 0; 0; 0] ++ [Z.of_nat (length dst)] ++ dst
      ++ [Z.of_nat (length src)] ++ src
      ++ flat_map (fun v => [Z.shiftr v 24 mod 256; Z.shiftr v 16 mod 256;
                             Z.shiftr v 8 mod 256; v mod 256]) versions.

(** Sixteen bytes, whatever the connection ID. *)
Definition sampleToken (_ : statelessResetTokenGenerator) (id : bytes) : bytes :=
  take 16 (id ++ repeat 0 16).

Definition sampleExternals : Externals :=
  {| headerFormLong := 128;
     fixedBit := 64;
     dstConnIDForDatagram := sampleDstConnID;
     parseGenericLongHeaderPacket := sampleParse;
     getPacketType := samplePacketType;
     appendVersionNegotiation := sampleAppendVersionNegotiation;
     tokenForConnID := sampleToken;
     validateInitialAddress := fun _ p _ => (Some (dstConnID p), []);
     newConn_ctor := fun now _ _ _ _ _ => (Some (Z.to_nat now), []);
     randomBytes := repeat 170 64 |}.

Definition peer : AddrPort := ([192; 0; 2; 1], 4433).

(** A listener that has just been made, with a key for stateless
    resets. *)
Definition freshListener : Listener :=
  newListener {| RequireAddressValidation := false;
                 StatelessResetKey := Some [1; 2; 3; 4] |}.

(** A long header with the version [v] (four bytes), the destination
    connection ID 1..8 and the source connection ID 11..18, padded with
    zeros to [n] bytes. *)
Definition longHeaderDatagram (v : bytes) (n : nat) : datagram :=
  let hdr := [192] ++ v ++ [8; 1; 2; 3; 4; 5; 6; 7; 8]
                   ++ [8; 11; 12; 13; 14; 15; 16; 17; 18] in
  {| b := hdr ++ repeat 0 (n - length hdr); addr := peer |}.

(** A short header, the destination connection ID 1..8, and bytes [9] up
    to [n] bytes. *)
Definition shortHeaderDatagram (n : nat) : datagram :=
  {| b := [64; 1; 2; 3; 4; 5; 6; 7; 8] ++ repeat 9 (n - 9); addr := peer |}.

End Listener.

(** ** conn_id.go, the other methods *)

Module ConnIDRest.
Import ConnID.

(** Modelled from the spec: the fate of a packet is declared outside the
    given sources; a packet is acknowledged or lost. *)
Inductive packetFate := packetAcked | packetLost.

(** The fields of [transportParameters] that conn_id.go reads. *)
Record transportParameters := {
  p_originalDstConnID : bytes;
  p_retrySrcConnID : bytes;
  p_initialSrcConnID : bytes;
  p_statelessResetToken : bytes
}.

(** The zero value of [statelessResetToken], a [[16]byte]. *)
Definition zeroToken : bytes := repeat 0 16.

(** A composite literal [remoteConnID{connID: connID{seq: .., cid: ..}}]. *)
Definition mkRemote (sq : Z) (id : bytes) : remoteConnID :=
  {| rconnID := mkConnID sq id; resetToken := zeroToken |}.

Definition set_originalDstConnID (v : bytes) (s : connIDState) : connIDState :=
  {| local := local s; remote := remote s; nextLocalSeq := nextLocalSeq s;
     retireRemotePriorTo := retireRemotePriorTo s;
     peerActiveConnIDLimit := peerActiveConnIDLimit s;
     originalDstConnID := v;
     retrySrcConnID := retrySrcConnID s; needSend := needSend s |}.

Definition set_retrySrcConnID (v : bytes) (s : connIDState) : connIDState :=
  {| local := local s; remote := remote s; nextLocalSeq := nextLocalSeq s;
     retireRemotePriorTo := retireRemotePriorTo s;
     peerActiveConnIDLimit := peerActiveConnIDLimit s;
     originalDstConnID := originalDstConnID s;
     retrySrcConnID := v; needSend := needSend s |}.

Definition set_cid (id : bytes) (rcid : remoteConnID) : remoteConnID :=
  {| rconnID := {| cid := id; seq := seq rcid; retired := retired rcid;
                   send := send rcid |};
     resetToken := resetToken rcid |}.

Definition set_resetToken (token : bytes) (rcid : remoteConnID) : remoteConnID :=
  {| rconnID := rconnID rcid; resetToken := token |}.

Definition set_send (v : sentVal) (e : connID) : connID :=
  {| cid := cid e; seq := seq e; retired := retired e; send := v |}.

Definition set_remote_send (v : sentVal) (rcid : remoteConnID) : remoteConnID :=
  {| rconnID := set_send v rcid; resetToken := resetToken rcid |}.

Section WithConn.

(** [c.newConnID(seq)], as for [issueLocalIDs]. *)
Variable newConnID : nat -> Z -> option bytes.

(** [sentVal.ackOrLoss], declared outside the given sources. *)
Variable ackOrLoss : sentVal -> Z -> packetFate -> sentVal.

(** The result is the error, the state, the closures enqueued and the
    number of calls of [c.newConnID] made so far. *)
Definition initClient (s : connIDState) (c : Conn) (k : nat)
    : option error * connIDState * list closure * nat :=
  match newConnID k 0 with
  | None => (Some errNewConnID, s, [], S k)
  | Some locid =>
      let s1 := set_nextLocalSeq 1 (set_local (local s ++ [mkConnID 0 locid]) s) in
      let ups := [[addConnID c locid]] in
      match newConnID (S k) (-1) with
      | None => (Some errNewConnID, s1, ups, S (S k))
      | Some remid =>
          let s2 := set_remote (remote s1 ++ [mkRemote (-1) remid]) s1 in
          (None, set_originalDstConnID remid s2, ups, S (S k))
      end
  end.

(** [None] is the panic of [s.local[0]] on an empty slice. *)
Definition srcConnID (s : connIDState) : option bytes :=
  match local s with
  | [] => None
  | e0 :: rest =>
      if (seq e0 =? -1) && (1 <? length (local s))%nat then
        cid <$> head rest
      else Some (cid e0)
  end.

(** Lines 138-143, over what is left of [s.remote]. *)
Fixpoint firstActive (l : list remoteConnID) : option remoteConnID :=
  match l with
  | [] => None
  | rcid :: rest => if retired rcid then firstActive rest else Some rcid
  end.

(** [None] is the result [(nil, false)]. *)
Definition dstConnID (s : connIDState) : option bytes :=
  match firstActive (remote s) with
  | Some rcid => Some (cid rcid)
  | None => None
  end.

Definition isValidStatelessResetToken (s : connIDState) (token : bytes) : bool :=
  match firstActive (remote s) with
  | Some rcid => bool_decide (resetToken rcid = token)
  | None => false
  end.

(** [side] is [c.side]. The conversion of line 225, from a slice to an
    array of 16 bytes, panics on a slice of fewer than 16 bytes and keeps
    the first 16 of a longer one; [None] is that panic. [isRetry] is not
    read. *)
Definition validateTransportParameters (s : connIDState) (c : Conn)
    (side : Listener.connSide) (isRetry : bool) (p : transportParameters)
    : option (option error * connIDState * list closure) :=
  let fail := Some (localTransportError errTransportParameter) in
  if negb (bytes_Equal (originalDstConnID s) (p_originalDstConnID p)) then
    Some (fail, s, [])
  else
    let s1 := set_originalDstConnID [] s in
    if negb (bytes_Equal (p_retrySrcConnID p) (retrySrcConnID s1)) then
      Some (fail, s1, [])
    else
      let s2 := set_retrySrcConnID [] s1 in
      match remote s2 with
      | [] => Some (Some (localTransportError errInternal), s2, [])
      | r0 :: rest =>
          if negb (seq r0 =? 0) then
            Some (Some (localTransportError errInternal), s2, [])
          else if negb (bytes_Equal (p_initialSrcConnID p) (cid r0)) then
            Some (fail, s2, [])
          else if (0 <? length (p_statelessResetToken p))%nat then
            match side with
            | Listener.serverSide => Some (fail, s2, [])
            | Listener.clientSide =>
                if (length (p_statelessResetToken p) <? 16)%nat then None
                else
                  let token := take 16 (p_statelessResetToken p) in
                  Some (None, set_remote (set_resetToken token r0 :: rest) s2,
                        [[addResetToken c token]])
            end
          else Some (None, s2, [])
      end.

(** [side] is [c.side]. *)
Definition handlePacket (s : connIDState) (c : Conn) (side : Listener.connSide)
    (ptype : Listener.packetType) (src : bytes)
    : connIDState * list closure :=
  match ptype, side with
  | Listener.packetTypeInitial, Listener.clientSide =>
      match remote s with
      | [r0] => if seq r0 =? -1 then (set_remote [mkRemote 0 src] s, [])
                else (s, [])
      | _ => (s, [])
      end
  | Listener.packetTypeInitial, Listener.serverSide =>
      match remote s with
      | [] => (set_remote [mkRemote 0 src] s, [])
      | _ => (s, [])
      end
  | Listener.packetTypeHandshake, Listener.serverSide =>
      match local s with
      | e0 :: rest =>
          if (seq e0 =? -1) && negb (retired e0) then
            (set_local rest s, [[retireConnID c (cid e0)]])
          else (s, [])
      | [] => (s, [])
      end
  | _, _ => (s, [])
  end.

(** [None] is the panic of line 277. *)
Definition handleRetryPacket (s : connIDState) (src : bytes)
    : option connIDState :=
  match remote s with
  | [r0] =>
      if seq r0 =? -1 then
        Some (set_remote [set_cid src r0] (set_retrySrcConnID src s))
      else None
  | _ => None
  end.

(** Lines 387-396, over what is left of [s.local]: the slice after the
    call and whether [s.needSend] is set. *)
Fixpoint ackOrLossLocal (l : list connID) (pnum sq : Z) (fate : packetFate)
    : list connID * bool :=
  match l with
  | [] => ([], false)
  | e :: rest =>
      if negb (seq e =? sq) then
        let '(rest', ns) := ackOrLossLocal rest pnum sq fate in (e :: rest', ns)
      else
        (set_send (ackOrLoss (send e) pnum fate) e :: rest,
         match fate with packetAcked => false | _ => true end)
  end.

Definition ackOrLossNewConnectionID (s : connIDState) (pnum sq : Z)
    (fate : packetFate) : connIDState :=
  let '(l, ns) := ackOrLossLocal (local s) pnum sq fate in
  let s1 := set_local l s in
  if ns then set_needSend true s1 else s1.

(** Lines 400-414, over what is left of [s.remote]. *)
Fixpoint ackOrLossRemote (l : list remoteConnID) (pnum sq : Z) (fate : packetFate)
    : list remoteConnID * bool :=
  match l with
  | [] => ([], false)
  | rcid :: rest =>
      if negb (seq rcid =? sq) then
        let '(rest', ns) := ackOrLossRemote rest pnum sq fate in
        (rcid :: rest', ns)
      else
        match fate with
        | packetAcked => (rest, false)
        | _ => (set_remote_send (ackOrLoss (send rcid) pnum fate) rcid :: rest,
                true)
        end
  end.

Definition ackOrLossRetireConnectionID (s : connIDState) (pnum sq : Z)
    (fate : packetFate) : connIDState :=
  let '(l, ns) := ackOrLossRemote (remote s) pnum sq fate in
  let s1 := set_remote l s in
  if ns then set_needSend true s1 else s1.

End WithConn.

(** *** Vocabulary of the statements *)

(** Every remote connection ID that is in use and not the transient one
    has a sequence number that the peer has not asked to retire. *)
Definition retiredBelow (s : connIDState) : Prop :=
  forall rcid : remoteConnID, In rcid (remote s) ->
    retired rcid = false -> 0 <= seq rcid ->
    retireRemotePriorTo s <= seq rcid.

(** The sequence numbers of the local connection IDs grow along the slice
    and stay below [nextLocalSeq]. *)
Definition localOrdered (s : connIDState) : Prop :=
  0 <= nextLocalSeq s /\
  StronglySorted Z.lt (map seq (local s)) /\
  Forall (fun e => -1 <= seq e < nextLocalSeq s) (local s).

(** Far enough from the ends of the 64-bit range for [issueLocalIDs]:
    neither its countdown nor the sequence numbers it assigns can wrap
    around. *)
Definition inRange (maxPeer : Z) (s : connIDState) : Prop :=
  peerActiveConnIDLimit s < 2 ^ 63 /\
  - 2 ^ 63 <= Z.min (peerActiveConnIDLimit s) maxPeer
              - Z.of_nat (length (local s)) /\
  nextLocalSeq s + Z.max 0 (Z.min (peerActiveConnIDLimit s) maxPeer) < 2 ^ 63.

(** What [handleNewConnID] may do to a remote connection ID that it has:
    retire it, and nothing else. *)
Definition kept (r r' : remoteConnID) : Prop :=
  seq r' = seq r /\ cid r' = cid r /\ resetToken r' = resetToken r /\
  (retired r = true -> retired r' = true) /\
  (r' = r \/ retired r = false /\ r' = retireRemote r).

(** The maps of the listener once the closures [ups] have been handed to
    it, in order, and the listen loop has applied what is pending. *)
Definition afterUpdates (m : Listener.connsMap) (ups : list closure)
    : Listener.connsMap :=
  Listener.applyUpdates (fold_left Listener.updateConnIDs ups m).

(** The transport parameters name the connection IDs the state expects:
    the checks of lines 204-220. *)
Definition paramsMatch (s : connIDState) (p : transportParameters) : Prop :=
  originalDstConnID s = p_originalDstConnID p /\
  p_retrySrcConnID p = retrySrcConnID s /\
  exists (r0 : remoteConnID) rest,
    remote s = r0 :: rest /\ seq r0 = 0 /\ p_initialSrcConnID p = cid r0.

(** What a sequence of map operations makes of each of the two maps. *)
Definition idsAfter (ops : list mapOp) (ids : gmap (list Z) Conn)
    : gmap (list Z) Conn :=
  fold_left (fun ids op => match op with
                           | addConnID c id => <[id := c]> ids
                           | retireConnID _ id => delete id ids
                           | _ => ids
                           end) ops ids.

Definition tokensAfter (ops : list mapOp) (tokens : gmap (list Z) Conn)
    : gmap (list Z) Conn :=
  fold_left (fun tokens op => match op with
                              | addResetToken c t => <[t := c]> tokens
                              | retireResetToken _ t => delete t tokens
                              | _ => tokens
                              end) ops tokens.

(** *** Sample data *)

(** A client right after [initClient], with the IDs [countingIDs] gives. *)
Definition clientStart : connIDState :=
  set_originalDstConnID (repeat 1 8)
    (set_remote [mkRemote (-1) (repeat 1 8)]
       (set_nextLocalSeq 1 (set_local [mkConnID 0 (repeat 0 8)] zeroState))).

(** The transport parameters of a server that has sent no Retry and
    answers with the source connection ID [cidB]. *)
Definition serverParams (token : bytes) : transportParameters :=
  {| p_originalDstConnID := repeat 1 8; p_retrySrcConnID := [];
     p_initialSrcConnID := cidB; p_statelessResetToken := token |}.

(** A table in which the tokens of the sample connection are
    registered. *)
Definition tableAB : Listener.connsMap :=
  {| Listener.byConnID := ∅;
     Listener.byResetToken := <[tokenA := conn7]> (<[tokenB := conn7]> ∅);
     Listener.updateNeeded := false; Listener.updates := [] |}.

(** A source of connection IDs that answers the first call and fails at
    the second. *)
Definition failSecond (k : nat) (_ : Z) : option bytes :=
  if (k =? 0)%nat then Some (repeat 9 8) else None.

(** A server that has learnt the limit 3 of its peer. *)
Definition serverLimit3 : connIDState := set_peerActiveConnIDLimit 3 serverStart.

(** A [sentVal.ackOrLoss] to run the statements on. *)
Definition sampleAckOrLoss (v : sentVal) (_ : Z) (fate : packetFate) : sentVal :=
  match fate with
  | packetAcked => sentValReceived
  | packetLost => sentValUnsent
  end.

End ConnIDRest.

(** ** The listener, vocabulary of further statements *)

Module ListenerRest.
Import Listener.

Section WithExternals.

Context {ext : Externals}.

(** Lines 299-309 of [handleUnknownDestinationDatagram]: the original
    destination and the retry source connection ID for the new
    connection, with what the address validation has sent; [None] when the
    address is not validated. *)
Definition addressCheck (l : Listener) (now : Z) (p : genericLongPacket)
    (m : datagram) : option (bytes * bytes * list event) :=
  if RequireAddressValidation (config l) then
    match validateInitialAddress now p (addr m) with
    | (Some original, evs) => Some (original, dstConnID p, evs)
    | (None, _) => None
    end
  else Some (dstConnID p, [], []).

(** The runs of a listener in which [connDrained] is only called for a
    connection the listener has, as a connection does when it has
    drained. *)
Inductive orderly (cfg : Config) : Listener -> Prop :=
| orderly_new : orderly cfg (newListener cfg)
| orderly_Dial l now a : orderly cfg l -> orderly cfg (Dial l now a).2
| orderly_listen l now m : orderly cfg l -> orderly cfg (listen_round l now m).1
| orderly_Close l : orderly cfg l -> orderly cfg (Close l).1
| orderly_connDrained l c s :
    orderly cfg l -> c ∈ conns l -> orderly cfg (connDrained l c s)
| orderly_updateConnIDs l f :
    orderly cfg l ->
    orderly cfg (set_conns_map (updateConnIDs (conns_map l) f) l).

End WithExternals.

(** *** Sample data *)

(** A listener with the connections 1 and 2. *)
Definition busyListener : Listener :=
  set_conns ({[1%nat]} ∪ {[2%nat]}) freshListener.

(** A listener at which the token of sixteen bytes [9] is registered for
    the sample connection. *)
Definition resetListener : Listener :=
  set_conns_map
    {| byConnID := ∅; byResetToken := {[repeat 9 16 := ConnID.conn7]};
       updateNeeded := false; updates := [] |}
    freshListener.

(** An Initial packet of version 1 in a datagram of 1200 bytes. *)
Definition initialDatagram : datagram := longHeaderDatagram [0; 0; 0; 1] 1200.

(** A datagram with a short header that ends in [token]. *)
Definition resetDatagram (token : bytes) : datagram :=
  {| b := [64; 1; 2; 3; 4; 5; 6; 7; 8] ++ token; addr := peer |}.

(** A listener of the peer at which the token that [sampleToken] derives
    from the connection ID 1..8 is registered for the sample connection. *)
Definition peerListener : Listener :=
  set_conns_map
    {| byConnID := ∅;
       byResetToken :=
         {[sampleToken (resetGen freshListener) [1; 2; 3; 4; 5; 6; 7; 8]
           := ConnID.conn7]};
       updateNeeded := false; updates := [] |}
    freshListener.

End ListenerRest.

(** * Properties *)

(** ** Machine integers and slices *)

Lemma wrap64_small z : - 2 ^ 63 <= z < 2 ^ 63 -> wrap64 z = z.
Proof.
  intros Hz. unfold wrap64.
  rewrite Z.mod_small; lia.
Qed.

Lemma length_copy dst src : length (copy dst src) = length dst.
Proof.
  unfold copy. rewrite length_app, length_take, length_drop. lia.
Qed.

Lemma copy_exact dst src : length dst = length src -> copy dst src = src.
Proof.
  intros Hlen. unfold copy.
  rewrite Hlen, firstn_all, drop_ge by lia. apply app_nil_r.
Qed.

(** ** conn_id.go *)

Module ConnIDFacts.
Import ConnID.

(** *** The pass over the remote connection IDs *)

Lemma retireRemote_seq rcid : seq (retireRemote rcid) = seq rcid.
Proof. reflexivity. Qed.

Lemma retireRemote_cid rcid : cid (retireRemote rcid) = cid rcid.
Proof. reflexivity. Qed.

Lemma toRetire_retired prior rcid :
  toRetire prior rcid = true -> retired rcid = false.
Proof.
  unfold toRetire. destruct (retired rcid); [discriminate | reflexivity].
Qed.

Lemma activeRemote_cons rcid l :
  activeRemote (rcid :: l) =
  (if retired rcid then 0 else 1) + activeRemote l.
Proof.
  unfold activeRemote. simpl. destruct (retired rcid); simpl; lia.
Qed.

Lemma activeRemote_app l1 l2 :
  activeRemote (l1 ++ l2) = activeRemote l1 + activeRemote l2.
Proof.
  unfold activeRemote. rewrite List.filter_app, length_app. lia.
Qed.

(** The loop, in one equation: it retires what it visits, counts what it
    leaves active and stops at the first clash. *)
Lemma scanRemote_eq c sq id prior l : forall have active ns,
  scanRemote c sq id prior l have active ns =
  let k := visited sq id l in
  let rem := retirePass prior (take k l) ++ drop k l in
  let ns' := ns || existsb (toRetire prior) (take k l) in
  let ups := retireOps c prior (take k l) in
  if existsb (clash sq id) l then ScanViolation rem ns' ups
  else ScanDone rem (have || hasSeq sq l)
                (active + activeRemote (retirePass prior l)) ns' ups.
Proof.
  induction l as [|rcid rest IH]; intros have active ns; simpl.
  - rewrite !orb_false_r. f_equal. unfold activeRemote; simpl; lia.
  - set (rcid' := if toRetire prior rcid then retireRemote rcid else rcid).
    assert (Hseq : seq rcid' = seq rcid) by (subst rcid'; destruct (toRetire prior rcid); reflexivity).
    assert (Hcid : cid rcid' = cid rcid) by (subst rcid'; destruct (toRetire prior rcid); reflexivity).
    assert (Htok : resetToken rcid' = resetToken rcid) by (subst rcid'; destruct (toRetire prior rcid); reflexivity).
    rewrite Hseq, Hcid, Htok.
    fold (clash sq id rcid).
    destruct (clash sq id rcid) eqn:Hclash; simpl.
    + fold rcid'. f_equal; destruct (toRetire prior rcid), ns; reflexivity.
    + rewrite IH. simpl. fold rcid'.
      rewrite activeRemote_cons. fold rcid'.
      assert (Hns : (if toRetire prior rcid then true else ns) =
                    ns || toRetire prior rcid)
        by (destruct (toRetire prior rcid), ns; reflexivity).
      rewrite Hns, <- orb_assoc.
      destruct (existsb (clash sq id) rest); f_equal.
      * unfold hasSeq; simpl. destruct (seq rcid =? sq), have; reflexivity.
      * destruct (retired rcid'); lia.
Qed.

(** [handleNewConnID] on a state whose first remote connection ID is not
    empty, in one equation. *)
Lemma handleNewConnID_eq lim s c sq retire id token head rest :
  remote s = head :: rest -> cid head <> [] ->
  let prior := Z.max (retireRemotePriorTo s) retire in
  let l := remote s in
  let k := visited sq id l in
  handleNewConnID lim s c sq retire id token =
  if existsb (clash sq id) l then
    Some (protocolViolation,
          updated prior (retirePass prior (take k l) ++ drop k l)
                  (needSend s || existsb (toRetire prior) (take k l)) s,
          retireOps c prior (take k l))
  else
    let rem := retirePass prior l ++ appended prior sq id token l in
    Some (if (activeRemote rem >? lim) || (Z.of_nat (length rem) >? 4 * lim)
          then connectionIDLimit else None,
          updated prior rem
                  (needSend s || existsb (toRetire prior) l
                   || (negb (hasSeq sq l) && (sq <? prior))) s,
          retireOps c prior l ++
          (if hasSeq sq l || (sq <? prior) then []
           else [[addResetToken c token]])).
Proof.
  intros Hrem Hhead prior l k.
  unfold handleNewConnID. rewrite Hrem.
  destruct (cid head) as [|x xs] eqn:Hcid; [congruence|]. simpl length.
  change (S (length xs) =? 0)%nat with false. cbv iota.
  set (s1 := if retire >? retireRemotePriorTo s
             then set_retireRemotePriorTo retire s else s).
  assert (Hprior : retireRemotePriorTo s1 = prior).
  { subst s1 prior. destruct (Z.gtb_spec retire (retireRemotePriorTo s)); simpl; lia. }
  assert (Hrem1 : remote s1 = l).
  { subst s1. destruct (retire >? retireRemotePriorTo s); reflexivity. }
  assert (Hns1 : needSend s1 = needSend s).
  { subst s1. destruct (retire >? retireRemotePriorTo s); reflexivity. }
  assert (Hupd : forall rem ns,
             set_needSend ns (set_remote rem s1) = updated prior rem ns s).
  { intros rem ns. rewrite <- Hprior. subst s1.
    destruct (retire >? retireRemotePriorTo s); reflexivity. }
  rewrite Hprior, Hrem1, Hns1, scanRemote_eq. cbv zeta. fold k.
  destruct (existsb (clash sq id) l) eqn:Hclash.
  - rewrite Hupd. reflexivity.
  - assert (Hk : k = length l).
    { subst k. clear - Hclash. induction l as [|r l' IH]; simpl in *; [reflexivity|].
      apply orb_false_elim in Hclash as [-> Hl]. rewrite IH; auto. }
    rewrite Hk, firstn_all, drop_all, app_nil_r.
    assert (Hchk : forall (a n : Z) (st : connIDState) (us : list closure),
               (if a >? lim
                then Some (connectionIDLimit, st, us)
                else if n >? 4 * lim
                     then Some (connectionIDLimit, st, us)
                     else Some (None, st, us)) =
               Some (if (a >? lim) || (n >? 4 * lim)
                     then connectionIDLimit else None, st, us)).
    { intros a n st us. destruct (a >? lim), (n >? 4 * lim); reflexivity. }
    unfold appended. rewrite orb_false_l.
    destruct (hasSeq sq l) eqn:Hhave; cbv iota beta zeta.
    + rewrite Hupd. fold connectionIDLimit. rewrite Hchk.
      rewrite !app_nil_r, Z.add_0_l, orb_false_r. reflexivity.
    + destruct (sq <? prior) eqn:Hlt; cbv iota beta zeta; rewrite Hupd;
        fold connectionIDLimit; rewrite Hchk, activeRemote_app, Z.add_0_l.
      * change (activeRemote [retireRemote _]) with 0.
        rewrite Z.add_0_r, !app_nil_r, orb_true_r. reflexivity.
      * change (activeRemote [_]) with 1.
        rewrite orb_false_r. reflexivity.
Qed.

Lemma visited_le sq id l : (visited sq id l <= length l)%nat.
Proof.
  induction l as [|r l IH]; simpl; [lia|].
  destruct (clash sq id r); simpl; lia.
Qed.

Lemma visited_no_clash sq id l :
  existsb (clash sq id) l = false -> visited sq id l = length l.
Proof.
  induction l as [|r l IH]; simpl; [reflexivity|].
  intros H. apply orb_false_elim in H as [-> Hl]. rewrite IH; auto.
Qed.

Lemma clash_iff sq id l :
  existsb (clash sq id) l = true <->
  exists rcid : remoteConnID, In rcid l /\ seq rcid = sq /\ cid rcid <> id.
Proof.
  rewrite existsb_exists. unfold clash, bytes_Equal.
  split; intros (r & Hin & H); exists r; split; auto.
  - apply andb_true_iff in H as [H1 H2].
    apply negb_true_iff, bool_decide_eq_false in H2.
    split; [lia | assumption].
  - destruct H as [H1 H2]. apply andb_true_iff. split; [lia|].
    apply negb_true_iff, bool_decide_eq_false. assumption.
Qed.

Lemma hasSeq_iff sq l :
  hasSeq sq l = true <-> exists rcid : remoteConnID, In rcid l /\ seq rcid = sq.
Proof.
  unfold hasSeq. rewrite existsb_exists.
  split; intros (r & Hin & H); exists r; (split; [assumption | lia]).
Qed.

Lemma length_retirePass prior l : length (retirePass prior l) = length l.
Proof. apply length_map. Qed.

(** A visited entry that is to be retired is retired in place. *)
Lemma retirePass_lookup prior l (i : nat) rcid :
  l !! i = Some rcid -> toRetire prior rcid = true ->
  retirePass prior l !! i = Some (retireRemote rcid).
Proof.
  intros Hi Hret. unfold retirePass.
  rewrite list_lookup_fmap, Hi. simpl. rewrite Hret. reflexivity.
Qed.


(** The pass registers no token. *)
Lemma retireOps_no_add c prior l f op :
  In f (retireOps c prior l) -> In op f -> isAddResetToken op = false.
Proof.
  unfold retireOps. intros Hf Hop.
  apply in_flat_map in Hf as (r & _ & Hf).
  destruct (toRetire prior r); [|contradiction].
  destruct Hf as [<- | []]. destruct Hop as [<- | []]. reflexivity.
Qed.

(** When the first remote connection ID is not empty, PROTOCOL_VIOLATION
    is the answer to a clash and to nothing else. *)
Lemma handleNewConnID_violation_iff lim s c sq retire id token head rest :
  remote s = head :: rest -> cid head <> [] ->
  (exists s' ups,
     handleNewConnID lim s c sq retire id token =
       Some (protocolViolation, s', ups)) <->
  (exists rcid : remoteConnID,
     In rcid (remote s) /\ seq rcid = sq /\ cid rcid <> id).
Proof.
  intros Hrem Hhead. rewrite <- clash_iff.
  rewrite (handleNewConnID_eq lim s c sq retire id token head rest Hrem Hhead).
  cbv zeta. destruct (existsb (clash sq id) (remote s)).
  - split; [reflexivity | eauto].
  - split; [|discriminate]. intros (s' & ups & H). exfalso.
    destruct (_ || _); discriminate.
Qed.

(** Nothing to retire, nothing retired. *)
Lemma retirePass_none prior l :
  Forall (fun rcid => toRetire prior rcid = false) l -> retirePass prior l = l.
Proof.
  induction 1 as [|r l Hr _ IH]; simpl; [reflexivity|].
  rewrite Hr. f_equal. exact IH.
Qed.

Lemma retireOps_none c prior l :
  Forall (fun rcid => toRetire prior rcid = false) l -> retireOps c prior l = [].
Proof.
  induction 1 as [|r l Hr _ IH]; simpl; [reflexivity|].
  rewrite Hr. exact IH.
Qed.

Lemma activeRemote_all l :
  Forall (fun rcid : remoteConnID => retired rcid = false) l ->
  activeRemote l = Z.of_nat (length l).
Proof.
  induction 1 as [|r l Hr _ IH]; [reflexivity|].
  rewrite activeRemote_cons, Hr, IH. simpl length. lia.
Qed.

(** *** A frame that comes twice *)

Lemma retirePass_idem prior l :
  retirePass prior (retirePass prior l) = retirePass prior l.
Proof.
  unfold retirePass. rewrite map_map. apply map_ext. intros r.
  destruct (toRetire prior r) eqn:Hr; [reflexivity | rewrite Hr; reflexivity].
Qed.

Lemma sameIDs_refl l : sameIDs l l.
Proof. unfold sameIDs. induction l; constructor; auto. Qed.

Lemma sameIDs_retired k prior l :
  sameIDs l (retirePass prior (take k l) ++ drop k l).
Proof.
  revert k. induction l as [|r l IH]; intros [|k]; simpl;
    try apply sameIDs_refl.
  constructor; [destruct (toRetire prior r); auto | apply IH].
Qed.

Lemma sameIDs_scan sq id l l' :
  sameIDs l l' ->
  visited sq id l' = visited sq id l /\
  existsb (clash sq id) l' = existsb (clash sq id) l /\
  hasSeq sq l' = hasSeq sq l.
Proof.
  unfold hasSeq. induction 1 as [|r r' l l' [Hs Hc] _ IH]; simpl; [auto|].
  destruct IH as (IH1 & IH2 & IH3).
  unfold clash at 1 3. rewrite Hs, Hc, IH1, IH2, IH3. auto.
Qed.

Lemma toRetire_done prior (rcid : remoteConnID) :
  toRetire prior (if toRetire prior rcid then retireRemote rcid else rcid) = false.
Proof. destruct (toRetire prior rcid) eqn:H; [reflexivity | exact H]. Qed.

Lemma retirePass_done prior l :
  Forall (fun rcid => toRetire prior rcid = false) (retirePass prior l).
Proof.
  unfold retirePass. induction l as [|r l IH]; simpl; constructor; auto.
  apply toRetire_done.
Qed.

Lemma existsb_toRetire_none prior l :
  Forall (fun rcid => toRetire prior rcid = false) l ->
  existsb (toRetire prior) l = false.
Proof.
  induction 1 as [|r l Hr _ IH]; simpl; [reflexivity|]. rewrite Hr, IH. reflexivity.
Qed.

(** X29. A frame that comes a second time changes nothing any more: on the
    state the first call has left, the same call gives the same answer,
    leaves the state as it is and enqueues nothing. *)
Lemma handleNewConnID_repeat lim s c sq retire id token err s' ups :
  handleNewConnID lim s c sq retire id token = Some (err, s', ups) ->
  handleNewConnID lim s' c sq retire id token = Some (err, s', []).
Proof.
  destruct (remote s) as [|head rest] eqn:Hrem.
  { unfold handleNewConnID. rewrite Hrem. discriminate. }
  destruct (cid head) as [|x xs] eqn:Hcid.
  { unfold handleNewConnID at 1. rewrite Hrem, Hcid. simpl.
    intros H. injection H as <- <- <-.
    unfold handleNewConnID. rewrite Hrem, Hcid. reflexivity. }
  assert (Hhead : cid head <> []) by (rewrite Hcid; discriminate).
  rewrite (handleNewConnID_eq lim s c sq retire id token head rest Hrem Hhead).
  cbv zeta. set (prior := Z.max (retireRemotePriorTo s) retire).
  set (l := remote s). set (k := visited sq id l).
  assert (Hmax : Z.max prior retire = prior) by lia.
  destruct (existsb (clash sq id) l) eqn:Hclash.
  - intros H. injection H as <- <- <-.
    set (l' := retirePass prior (take k l) ++ drop k l).
    pose proof (sameIDs_retired k prior l) as Hsame. fold l' in Hsame.
    destruct (sameIDs_scan sq id l l' Hsame) as (Hv & Hc & _).
    assert (Hk : (k <= length l)%nat) by apply visited_le.
    assert (Hlen : length (retirePass prior (take k l)) = k)
      by (rewrite length_retirePass, length_take; lia).
    assert (Hhd : exists head' rest', l' = head' :: rest' /\ cid head' <> []).
    { unfold l, sameIDs in Hsame. rewrite Hrem in Hsame.
      inversion Hsame as [|? head' ? rest' [_ Hc'] _]; subst.
      exists head', rest'. split; [reflexivity | congruence]. }
    destruct Hhd as (head' & rest' & Hl' & Hhead').
    match goal with
    | |- handleNewConnID _ ?st _ _ _ _ _ = _ =>
        rewrite (handleNewConnID_eq lim st c sq retire id token head' rest'
                   Hl' Hhead')
    end.
    cbv zeta. simpl retireRemotePriorTo. simpl remote. simpl needSend.
    rewrite Hmax. fold l'. rewrite Hc, Hclash, Hv. fold k.
    assert (Htake : take k l' = retirePass prior (take k l))
      by (unfold l'; rewrite <- Hlen at 1; apply take_app_length).
    assert (Hdrop : drop k l' = drop k l)
      by (unfold l'; rewrite <- Hlen at 1; apply drop_app_length).
    rewrite Htake, Hdrop, retirePass_idem.
    rewrite (existsb_toRetire_none _ _ (retirePass_done prior _)), orb_false_r.
    rewrite (retireOps_none _ _ _ (retirePass_done prior _)).
    reflexivity.
  - intros H. injection H as <- <- <-.
    set (l' := retirePass prior l ++ appended prior sq id token l).
    assert (Hdone : Forall (fun r => toRetire prior r = false) l').
    { apply Forall_app. split; [apply retirePass_done|].
      unfold appended. destruct (hasSeq sq l); [constructor|].
      constructor; [|constructor].
      destruct (sq <? prior) eqn:Hlt; [reflexivity|].
      unfold toRetire. simpl. rewrite Hlt, andb_false_r. reflexivity. }
    assert (Hclash' : existsb (clash sq id) l' = false).
    { unfold l'. rewrite existsb_app.
      pose proof (sameIDs_retired (length l) prior l) as Hsame.
      rewrite firstn_all, drop_all, app_nil_r in Hsame.
      destruct (sameIDs_scan sq id _ _ Hsame) as (_ & -> & _).
      rewrite Hclash. unfold appended. destruct (hasSeq sq l); [reflexivity|].
      simpl. unfold clash, bytes_Equal.
      destruct (sq <? prior); simpl; rewrite bool_decide_eq_true_2 by reflexivity;
        rewrite andb_false_r; reflexivity. }
    assert (Hhave' : hasSeq sq l' = true).
    { unfold l', hasSeq. rewrite existsb_app. fold (hasSeq sq (retirePass prior l)).
      pose proof (sameIDs_retired (length l) prior l) as Hsame.
      rewrite firstn_all, drop_all, app_nil_r in Hsame.
      destruct (sameIDs_scan sq id _ _ Hsame) as (_ & _ & ->).
      unfold appended. destruct (hasSeq sq l) eqn:Hh; [reflexivity|].
      simpl. destruct (sq <? prior); simpl; rewrite Z.eqb_refl; reflexivity. }
    assert (Hhd : exists head' rest', l' = head' :: rest' /\ cid head' <> []).
    { unfold l', l. rewrite Hrem. simpl.
      eexists _, _. split; [reflexivity|].
      destruct (toRetire prior head); simpl; congruence. }
    destruct Hhd as (head' & rest' & Hl' & Hhead').
    match goal with
    | |- handleNewConnID _ ?st _ _ _ _ _ = _ =>
        rewrite (handleNewConnID_eq lim st c sq retire id token head' rest'
                   Hl' Hhead')
    end.
    cbv zeta. simpl retireRemotePriorTo. simpl remote. simpl needSend.
    rewrite Hmax. fold l'. rewrite Hclash', Hhave'.
    unfold appended at 1 2 3. rewrite Hhave'. rewrite !app_nil_r.
    rewrite (retirePass_none _ _ Hdone), (retireOps_none _ _ _ Hdone).
    rewrite (existsb_toRetire_none _ _ Hdone), !orb_false_r.
    reflexivity.
Qed.

(** C10. [handleNewConnID] reads [s.remote[0]] before anything else: the
    call panics (has no result) exactly when [s.remote] is empty; with at
    least one remote connection ID it always returns. *)
Theorem handleNewConnID_panics_iff_no_remote lim s c sq retire id token :
  handleNewConnID lim s c sq retire id token = None <-> remote s = [].
Proof.
  unfold handleNewConnID.
  destruct (remote s) as [|head rest] eqn:Hrem; [tauto|].
  split; [|discriminate]. intros H. exfalso. revert H.
  destruct (length (cid head) =? 0)%nat; [discriminate|].
  destruct (scanRemote _ _ _ _ _ _ _ _) as [rem have active ns ups | rem ns ups];
    [|discriminate].
  destruct have; [|destruct (sq <? _)];
    repeat match goal with |- context [if ?b then _ else _] => destruct b end;
    discriminate.
Qed.

(** C1, as the code has it. On a state whose first remote connection ID is
    not empty, [handleNewConnID] sets [retireRemotePriorTo] to the larger
    of its value and [retire], and then passes over the entries of
    [remote] in order, up to and including the first one that has the
    sequence number of the frame with another connection ID (over all of
    them when there is none, which is the case whenever the result is not
    PROTOCOL_VIOLATION). Of the entries it passes, those that are not
    retired and have [0 <= seq < retireRemotePriorTo] are marked retired
    and one closure removing the token is enqueued for each, in order; all
    other entries stay as they are. The only other closure the call may
    enqueue registers the token of the frame. *)
Theorem handleNewConnID_retire_pass lim s c sq retire id token head rest :
  remote s = head :: rest -> cid head <> [] ->
  exists err s' ups tail,
    handleNewConnID lim s c sq retire id token = Some (err, s', ups) /\
    retireRemotePriorTo s' = Z.max (retireRemotePriorTo s) retire /\
    take (length (remote s)) (remote s') =
      retirePass (retireRemotePriorTo s')
                 (take (visited sq id (remote s)) (remote s))
      ++ drop (visited sq id (remote s)) (remote s) /\
    ups = retireOps c (retireRemotePriorTo s')
                    (take (visited sq id (remote s)) (remote s)) ++ tail /\
    (tail = [] \/ tail = [[addResetToken c token]]) /\
    (err <> protocolViolation ->
     visited sq id (remote s) = length (remote s)).
Proof.
  intros Hrem Hhead.
  rewrite (handleNewConnID_eq lim s c sq retire id token head rest Hrem Hhead).
  cbv zeta. set (l := remote s). set (prior := Z.max _ _).
  destruct (existsb (clash sq id) l) eqn:Hclash.
  - eexists _, _, _, []. split; [reflexivity|]. simpl.
    repeat split.
    + apply take_ge.
      rewrite length_app, length_retirePass, length_take, length_drop. lia.
    + rewrite app_nil_r. reflexivity.
    + left; reflexivity.
    + intros H. exfalso. apply H. reflexivity.
  - eexists _, _, _, _. split; [reflexivity|]. simpl.
    rewrite (visited_no_clash _ _ _ Hclash), firstn_all, drop_all, app_nil_r.
    repeat split.
    + rewrite <- (length_retirePass prior l). apply take_app_length.
    + destruct (hasSeq sq l || (sq <? prior)); [left | right]; reflexivity.
Qed.

Lemma handleNewConnID_retire_pass_witness :
  remote twoRemotes = [remoteA; remoteB] /\ cid remoteA <> [] /\
  exists err s' ups tail,
    handleNewConnID 2 twoRemotes conn7 2 1 cidC tokenC = Some (err, s', ups) /\
    retireRemotePriorTo s' = Z.max (retireRemotePriorTo twoRemotes) 1 /\
    take (length (remote twoRemotes)) (remote s') =
      retirePass (retireRemotePriorTo s')
                 (take (visited 2 cidC (remote twoRemotes)) (remote twoRemotes))
      ++ drop (visited 2 cidC (remote twoRemotes)) (remote twoRemotes) /\
    ups = retireOps conn7 (retireRemotePriorTo s')
            (take (visited 2 cidC (remote twoRemotes)) (remote twoRemotes))
          ++ tail /\
    (tail = [] \/ tail = [[addResetToken conn7 tokenC]]) /\
    (err <> protocolViolation ->
     visited 2 cidC (remote twoRemotes) = length (remote twoRemotes)).
Proof.
  split; [reflexivity|]. split; [discriminate|].
  apply (handleNewConnID_retire_pass 2 twoRemotes conn7 2 1 cidC tokenC
           remoteA [remoteB]); [reflexivity | discriminate].
Defined.

(** C1 as stated fails in two ways. A transient remote ID (sequence number
    -1) is below every [retireRemotePriorTo] and is never retired; and an
    entry behind a clash is not reached: with remote IDs 0 and 1, the
    frame (seq 0, retire prior to 2, another connection ID) retires ID 0
    and returns PROTOCOL_VIOLATION with ID 1 still active. *)
Lemma handleNewConnID_retire_pass_counterexample :
  (exists s' ups (rcid : remoteConnID),
     handleNewConnID 2 transientRemote conn7 1 0 cidB tokenB = Some (None, s', ups) /\
     retireRemotePriorTo s' = 0 /\
     remote transientRemote !! 0%nat = Some rcid /\
     retired rcid = false /\ seq rcid < retireRemotePriorTo s' /\
     remote s' !! 0%nat = Some rcid /\
     ~ In [retireResetToken conn7 (resetToken rcid)] ups) /\
  (exists s' ups (rcid : remoteConnID),
     handleNewConnID 2 twoRemotes conn7 0 2 cidC tokenC =
       Some (protocolViolation, s', ups) /\
     retireRemotePriorTo s' = 2 /\
     remote twoRemotes !! 1%nat = Some rcid /\
     retired rcid = false /\ seq rcid < retireRemotePriorTo s' /\
     remote s' !! 1%nat = Some rcid /\
     ~ In [retireResetToken conn7 (resetToken rcid)] ups).
Proof.
  split.
  - eexists _, _, _. split; [reflexivity|]. simpl.
    repeat split; try reflexivity.
    intros [H | []]. discriminate H.
  - eexists _, _, _. split; [reflexivity|]. simpl.
    repeat split; try reflexivity.
    intros [H | []]. discriminate H.
Qed.

(** C2. When [handleNewConnID] gets past the check of the first remote
    connection ID and the pass finds no clash, it returns
    CONNECTION_ID_LIMIT_ERROR if, in the state it leaves (after the pass
    and the append of a connection ID not seen before), more than
    [activeConnIDLimit] remote connection IDs are not retired or there are
    more than [4 * activeConnIDLimit] of them in all; otherwise it returns
    no error. *)
Theorem handleNewConnID_limit_error lim s c sq retire id token head rest :
  remote s = head :: rest -> cid head <> [] ->
  (forall rcid : remoteConnID, In rcid (remote s) -> seq rcid = sq -> cid rcid = id) ->
  exists s' ups,
    handleNewConnID lim s c sq retire id token =
      Some (if bool_decide (lim < activeRemote (remote s') \/
                            4 * lim < Z.of_nat (length (remote s')))
            then connectionIDLimit else None, s', ups) /\
    remote s' =
      retirePass (Z.max (retireRemotePriorTo s) retire) (remote s) ++
      appended (Z.max (retireRemotePriorTo s) retire) sq id token (remote s).
Proof.
  intros Hrem Hhead Hsame.
  rewrite (handleNewConnID_eq lim s c sq retire id token head rest Hrem Hhead).
  cbv zeta.
  destruct (existsb (clash sq id) (remote s)) eqn:Hclash.
  { apply clash_iff in Hclash as (r & Hin & Hsq & Hne).
    exfalso. apply Hne. auto. }
  match goal with
  | |- exists s' ups, Some (_, ?st, ?us) = _ /\ _ => exists st, us
  end.
  split; [|reflexivity]. simpl remote.
  set (rem := _ ++ _).
  replace (bool_decide _) with ((activeRemote rem >? lim)
                                || (Z.of_nat (length rem) >? 4 * lim));
    [reflexivity|].
  symmetry. destruct (Z.gtb_spec (activeRemote rem) lim);
    destruct (Z.gtb_spec (Z.of_nat (length rem)) (4 * lim)); simpl;
    first [apply bool_decide_eq_true; lia | apply bool_decide_eq_false; lia].
Qed.

Lemma handleNewConnID_limit_error_witness :
  remote twoRemotes = [remoteA; remoteB] /\ cid remoteA <> [] /\
  (forall rcid : remoteConnID,
     In rcid (remote twoRemotes) -> seq rcid = 2 -> cid rcid = cidC) /\
  exists s' ups,
    handleNewConnID 2 twoRemotes conn7 2 0 cidC tokenC =
      Some (if bool_decide (2 < activeRemote (remote s') \/
                            4 * 2 < Z.of_nat (length (remote s')))
            then connectionIDLimit else None, s', ups) /\
    remote s' =
      retirePass (Z.max (retireRemotePriorTo twoRemotes) 0) (remote twoRemotes) ++
      appended (Z.max (retireRemotePriorTo twoRemotes) 0) 2 cidC tokenC
               (remote twoRemotes).
Proof.
  assert (H : forall rcid : remoteConnID,
             In rcid (remote twoRemotes) -> seq rcid = 2 -> cid rcid = cidC).
  { intros r [<- | [<- | []]]; discriminate. }
  split; [reflexivity|]. split; [discriminate|]. split; [exact H|].
  apply (handleNewConnID_limit_error 2 twoRemotes conn7 2 0 cidC tokenC
           remoteA [remoteB]); [reflexivity | discriminate | exact H].
Defined.

(** C4, as the code has it. On a state whose first remote connection ID
    is not empty, a frame whose sequence number is already present in
    [remote] is answered with PROTOCOL_VIOLATION if and only if an entry
    with that sequence number holds another connection ID; when every such
    entry holds the connection ID of the frame, no entry is appended to
    [remote] and no closure that registers a reset token is enqueued. *)
Theorem handleNewConnID_known_seq lim s c sq retire id token head rest :
  remote s = head :: rest -> cid head <> [] ->
  (exists rcid : remoteConnID, In rcid (remote s) /\ seq rcid = sq) ->
  exists err s' ups,
    handleNewConnID lim s c sq retire id token = Some (err, s', ups) /\
    (err = protocolViolation <->
     exists rcid : remoteConnID,
       In rcid (remote s) /\ seq rcid = sq /\ cid rcid <> id) /\
    ((forall rcid : remoteConnID,
        In rcid (remote s) -> seq rcid = sq -> cid rcid = id) ->
     length (remote s') = length (remote s) /\
     forall f op, In f ups -> In op f -> isAddResetToken op = false).
Proof.
  intros Hrem Hhead Hpresent. apply hasSeq_iff in Hpresent.
  rewrite (handleNewConnID_eq lim s c sq retire id token head rest Hrem Hhead).
  cbv zeta.
  destruct (existsb (clash sq id) (remote s)) eqn:Hclash.
  - eexists _, _, _. split; [reflexivity|]. split.
    + split; [intros _; apply clash_iff, Hclash | reflexivity].
    + intros Hsame. exfalso.
      apply clash_iff in Hclash as (r & Hin & Hsq & Hne). apply Hne; auto.
  - eexists _, _, _. split; [reflexivity|]. split.
    + split.
      * destruct (_ || _); discriminate.
      * intros Hex. apply clash_iff in Hex. congruence.
    + intros _. unfold appended. rewrite Hpresent. simpl.
      rewrite !app_nil_r, length_retirePass. split; [reflexivity|].
      apply retireOps_no_add.
Qed.

Lemma handleNewConnID_known_seq_witness :
  remote twoRemotes = [remoteA; remoteB] /\ cid remoteA <> [] /\
  (exists rcid : remoteConnID, In rcid (remote twoRemotes) /\ seq rcid = 1) /\
  exists err s' ups,
    handleNewConnID 2 twoRemotes conn7 1 1 cidB tokenB = Some (err, s', ups) /\
    (err = protocolViolation <->
     exists rcid : remoteConnID,
       In rcid (remote twoRemotes) /\ seq rcid = 1 /\ cid rcid <> cidB) /\
    ((forall rcid : remoteConnID,
        In rcid (remote twoRemotes) -> seq rcid = 1 -> cid rcid = cidB) ->
     length (remote s') = length (remote twoRemotes) /\
     forall f op, In f ups -> In op f -> isAddResetToken op = false).
Proof.
  assert (H : exists rcid : remoteConnID,
             In rcid (remote twoRemotes) /\ seq rcid = 1).
  { exists remoteB. split; [right; left|]; reflexivity. }
  split; [reflexivity|]. split; [discriminate|]. split; [exact H|].
  apply (handleNewConnID_known_seq 2 twoRemotes conn7 1 1 cidB tokenB
           remoteA [remoteB]); [reflexivity | discriminate | exact H].
Defined.

(** C4 as stated fails when the peer uses a connection ID of length zero:
    the frame that repeats the stored pair (sequence number 0, empty
    connection ID) is answered with PROTOCOL_VIOLATION although the
    connection IDs are equal. *)
Lemma handleNewConnID_known_seq_counterexample :
  hasSeq 0 (remote emptyRemote) = true /\
  (forall rcid : remoteConnID,
     In rcid (remote emptyRemote) -> seq rcid = 0 -> cid rcid = []) /\
  handleNewConnID 2 emptyRemote conn7 0 0 [] [] =
    Some (protocolViolation, emptyRemote, []).
Proof.
  split; [reflexivity|]. split; [|reflexivity].
  intros r [<- | []] _. reflexivity.
Qed.

(** *** Error returns leave their traces *)

Lemma spares_spec n rcid :
  In rcid (map spare (List.seq 1 n)) ->
  retired rcid = false /\ 1 <= seq rcid <= Z.of_nat n /\ cid rcid = cidB.
Proof.
  intros H. apply in_map_iff in H as (i & <- & Hi).
  apply in_seq in Hi. simpl. split; [reflexivity|]. split; [lia | reflexivity].
Qed.

(** C9. Whatever the limit is, there is a call that returns
    PROTOCOL_VIOLATION for a sequence number that is present with another
    connection ID, and a call that returns CONNECTION_ID_LIMIT_ERROR, each
    after it has raised [retireRemotePriorTo], retired a remote connection
    ID and enqueued the removal of its token; the second one has also
    appended the connection ID of the frame and enqueued the registration
    of its token. *)
Theorem handleNewConnID_not_atomic lim :
  (exists s c sq retire id token s' ups (i : nat) (rcid : remoteConnID),
     handleNewConnID lim s c sq retire id token =
       Some (protocolViolation, s', ups) /\
     (exists other : remoteConnID,
        In other (remote s) /\ seq other = sq /\ cid other <> id) /\
     retireRemotePriorTo s < retireRemotePriorTo s' /\
     remote s !! i = Some rcid /\ retired rcid = false /\
     remote s' !! i = Some (retireRemote rcid) /\
     In [retireResetToken c (resetToken rcid)] ups) /\
  (exists s c sq retire id token s' ups (i : nat) (rcid : remoteConnID),
     handleNewConnID lim s c sq retire id token =
       Some (connectionIDLimit, s', ups) /\
     retireRemotePriorTo s < retireRemotePriorTo s' /\
     remote s !! i = Some rcid /\ retired rcid = false /\
     remote s' !! i = Some (retireRemote rcid) /\
     In [retireResetToken c (resetToken rcid)] ups /\
     remote s' !! length (remote s) =
       Some {| rconnID := mkConnID sq id; resetToken := token |} /\
     In [addResetToken c token] ups).
Proof.
  split.
  - exists twoRemotes, conn7, 1, 1, cidC, tokenC.
    eexists _, _, 0%nat, remoteA. split; [reflexivity|].
    split; [exists remoteB; split; [right; left; reflexivity | split; [reflexivity | discriminate]]|].
    simpl. repeat split; try reflexivity; try lia. left; reflexivity.
  - set (n := Z.to_nat lim). set (l := map spare (List.seq 1 n)).
    set (sq := Z.of_nat (S n)).
    assert (Hl : forall r : remoteConnID, In r l ->
                 retired r = false /\ 1 <= seq r <= Z.of_nat n /\ cid r = cidB)
      by apply spares_spec.
    assert (Hkeep : Forall (fun r => toRetire 1 r = false) l).
    { apply List.Forall_forall. intros r Hr. apply Hl in Hr as (_ & Hr & _).
      unfold toRetire. rewrite andb_false_iff. right. lia. }
    assert (Hact : Forall (fun r : remoteConnID => retired r = false) l).
    { apply List.Forall_forall. intros r Hr. apply Hl in Hr. tauto. }
    assert (Hclash : existsb (clash sq cidC) (remote (crowded lim)) = false).
    { apply not_true_is_false. intros H.
      apply clash_iff in H as (r & [<- | Hr] & Hsq & _).
      - simpl in Hsq. lia.
      - apply Hl in Hr as (_ & Hr & _). lia. }
    assert (Hnew : hasSeq sq (remote (crowded lim)) = false).
    { apply not_true_is_false. intros H.
      apply hasSeq_iff in H as (r & [<- | Hr] & Hsq).
      - simpl in Hsq. lia.
      - apply Hl in Hr as (_ & Hr & _). lia. }
    exists (crowded lim), conn7, sq, 1, cidC, tokenC.
    eexists _, _, 0%nat, remoteA.
    rewrite (handleNewConnID_eq lim (crowded lim) conn7 sq 1 cidC tokenC
               remoteA l eq_refl ltac:(discriminate)).
    cbv zeta. rewrite Hclash. unfold appended. rewrite Hnew.
    change (remote (crowded lim)) with (remoteA :: l).
    change (Z.max (retireRemotePriorTo (crowded lim)) 1) with 1.
    replace (sq <? 1) with false by (symmetry; apply Z.ltb_ge; lia).
    simpl retirePass. simpl retireOps. fold (retirePass 1 l). fold (retireOps conn7 1 l).
    rewrite (retirePass_none _ _ Hkeep), (retireOps_none _ _ _ Hkeep).
    change (toRetire 1 remoteA) with true. cbv iota.
    replace ((activeRemote _ >? lim) || _) with true.
    + split; [reflexivity|]. simpl.
      repeat split; try reflexivity; try lia.
      * left; reflexivity.
      * change (retireRemote remoteA :: l ++ [?x]) with ((retireRemote remoteA :: l) ++ [x]).
        rewrite list_lookup_middle; [reflexivity | reflexivity].
      * right; left; reflexivity.
    + symmetry. apply orb_true_iff. left. apply Z.gtb_lt.
      change ((retireRemote remoteA :: l) ++ ?x) with (retireRemote remoteA :: (l ++ x)).
      rewrite activeRemote_cons, activeRemote_app, (activeRemote_all _ Hact).
      subst l. rewrite length_map, length_seq.
      change (activeRemote [_]) with 1. simpl retired. cbv iota. lia.
Qed.

(** *** Issuing and retiring local connection IDs *)

Lemma activeLocal_cons e l :
  activeLocal (e :: l) = (if countsAgainstLimit e then 1 else 0) + activeLocal l.
Proof.
  unfold activeLocal. simpl. destruct (countsAgainstLimit e); simpl; lia.
Qed.

Lemma activeLocal_app l1 l2 :
  activeLocal (l1 ++ l2) = activeLocal l1 + activeLocal l2.
Proof.
  unfold activeLocal. rewrite List.filter_app, length_app. lia.
Qed.

Lemma activeLocal_nonneg l : 0 <= activeLocal l.
Proof. unfold activeLocal. lia. Qed.

(** The countdown of lines 168-172 subtracts the number of IDs that count,
    as long as it stays within 64 bits. *)
Lemma countDown_eq l : forall t,
  - 2 ^ 63 <= t - activeLocal l -> t < 2 ^ 63 ->
  countDown t l = t - activeLocal l.
Proof.
  unfold countDown.
  induction l as [|e l IH]; intros t Hlo Hhi; simpl.
  - unfold activeLocal; simpl; lia.
  - rewrite activeLocal_cons in Hlo |- *.
    pose proof (activeLocal_nonneg l) as Hl.
    destruct (countsAgainstLimit e); cbv iota in Hlo |- *.
    + assert (Hw : wrap64 (t - 1) = t - 1) by (apply wrap64_small; lia).
      rewrite Hw, IH; lia.
    + rewrite IH; lia.
Qed.

Lemma activeLocal_issuedFrom ids : forall sq,
  0 <= sq -> activeLocal (issuedFrom sq ids) = Z.of_nat (length ids).
Proof.
  induction ids as [|id ids IH]; intros sq Hsq; [reflexivity|].
  simpl issuedFrom. rewrite activeLocal_cons, IH by lia.
  unfold countsAgainstLimit. simpl.
  replace (sq =? -1) with false by (symmetry; apply Z.eqb_neq; lia).
  simpl. lia.
Qed.

(** A loop of [n] rounds that ends without error has drawn [n] connection
    IDs and appended them under consecutive sequence numbers. *)
Lemma issueLoop_success newConnID n : forall s k acc s' k' out,
  - 2 ^ 63 <= nextLocalSeq s -> nextLocalSeq s + Z.of_nat n < 2 ^ 63 ->
  issueLoop newConnID n s k acc = (None, s', k', out) ->
  exists ids,
    length ids = n /\ out = acc ++ ids /\ k' = (k + n)%nat /\
    local s' = local s ++ issuedFrom (nextLocalSeq s) ids /\
    nextLocalSeq s' = nextLocalSeq s + Z.of_nat n /\
    remote s' = remote s /\
    peerActiveConnIDLimit s' = peerActiveConnIDLimit s /\
    (forall (i : nat) id, ids !! i = Some id ->
       newConnID (k + i)%nat (nextLocalSeq s + Z.of_nat i) = Some id).
Proof.
  induction n as [|n IH]; intros s k acc s' k' out Hlo Hhi Hrun.
  - simpl in Hrun. injection Hrun as <- <- <-. exists [].
    rewrite !app_nil_r, Nat.add_0_r, Z.add_0_r.
    repeat split. intros i id Hi. rewrite lookup_nil in Hi. discriminate.
  - simpl in Hrun.
    destruct (newConnID k (nextLocalSeq s)) as [id|] eqn:Hdraw; [|discriminate].
    apply IH in Hrun; simpl; try (rewrite wrap64_small; lia).
    destruct Hrun as (ids & Hlen & Hout & Hk & Hloc & Hseq & Hrem & Hlim & Hids).
    simpl in Hloc, Hseq, Hrem, Hlim, Hids.
    rewrite wrap64_small in Hloc, Hseq, Hids by lia.
    exists (id :: ids). simpl length.
    repeat split; try assumption; try lia.
    + rewrite Hout, <- app_assoc. reflexivity.
    + rewrite Hloc, <- app_assoc. reflexivity.
    + intros [|i] id' Hi; simpl in Hi.
      * injection Hi as <-. rewrite Nat.add_0_r, Z.add_0_r. exact Hdraw.
      * apply Hids in Hi. rewrite <- Hi. f_equal; lia.
Qed.

(** ... and it does end without error when [newConnID] answers each of
    the [n] calls. *)
Lemma issueLoop_returns newConnID n : forall s k acc,
  - 2 ^ 63 <= nextLocalSeq s -> nextLocalSeq s + Z.of_nat n < 2 ^ 63 ->
  (forall i : nat, (i < n)%nat ->
     is_Some (newConnID (k + i)%nat (nextLocalSeq s + Z.of_nat i))) ->
  (issueLoop newConnID n s k acc).1.1.1 = None.
Proof.
  induction n as [|n IH]; intros s k acc Hlo Hhi Hdraw; [reflexivity|].
  simpl. destruct (Hdraw O ltac:(lia)) as [id Hid].
  rewrite Nat.add_0_r, Z.add_0_r in Hid. rewrite Hid.
  apply IH; simpl; try (rewrite wrap64_small; lia).
  intros i Hi. rewrite wrap64_small by lia.
  specialize (Hdraw (S i) ltac:(lia)).
  replace (S (k + i))%nat with (k + S i)%nat by lia.
  replace (nextLocalSeq s + 1 + Z.of_nat i)
    with (nextLocalSeq s + Z.of_nat (S i)) by lia.
  exact Hdraw.
Qed.

Lemma setPeerActiveConnIDLimit_returns maxPeer newConnID s c k lim :
  0 <= nextLocalSeq s ->
  lim < 2 ^ 63 ->
  - 2 ^ 63 <= Z.min lim maxPeer - activeLocal (local s) ->
  nextLocalSeq s + Z.max 0 (Z.min lim maxPeer - activeLocal (local s)) < 2 ^ 63 ->
  (forall i : nat,
     Z.of_nat i < Z.min lim maxPeer - activeLocal (local s) ->
     is_Some (newConnID (k + i)%nat (nextLocalSeq s + Z.of_nat i))) ->
  (setPeerActiveConnIDLimit maxPeer newConnID s c k lim).1.1.1 = None.
Proof.
  intros Hseq Hlim Hlo Hhi Hdraw.
  unfold setPeerActiveConnIDLimit, issueLocalIDs.
  change (peerActiveConnIDLimit (set_peerActiveConnIDLimit lim s)) with lim.
  change (local (set_peerActiveConnIDLimit lim s)) with (local s).
  rewrite countDown_eq by lia.
  set (n := Z.to_nat (Z.min lim maxPeer - activeLocal (local s))).
  pose proof (issueLoop_returns newConnID n (set_peerActiveConnIDLimit lim s)
                k []) as Hret.
  destruct (issueLoop newConnID n _ k []) as [[[err s1] k1] out].
  simpl in Hret. rewrite Hret; [reflexivity | lia | lia |].
  intros i Hi. apply Hdraw. lia.
Qed.

Lemma findSeq_Some l sq : forall i,
  findSeq l sq = Some i ->
  exists l1 e l2,
    l = l1 ++ e :: l2 /\ length l1 = i /\ seq e = sq /\
    Forall (fun x => seq x <> sq) l1.
Proof.
  induction l as [|e l IH]; intros i Hfind; simpl in Hfind; [discriminate|].
  destruct (Z.eqb_spec (seq e) sq) as [Heq|Hne].
  - injection Hfind as <-. exists [], e, l. repeat split; auto.
  - destruct (findSeq l sq) as [j|]; [|discriminate]. injection Hfind as <-.
    destruct (IH j eq_refl) as (l1 & e' & l2 & -> & Hlen & Hseq & Hall).
    exists (e :: l1), e', l2. simpl. repeat split; auto.
Qed.

Lemma findSeq_None l sq :
  findSeq l sq = None -> Forall (fun x => seq x <> sq) l.
Proof.
  induction l as [|e l IH]; intros Hfind; simpl in Hfind; [constructor|].
  destruct (Z.eqb_spec (seq e) sq) as [Heq|Hne]; [discriminate|].
  destruct (findSeq l sq); [discriminate|]. constructor; auto.
Qed.

(** C3, as the code has it. Let [n] be the number of local connection IDs
    that are neither retired nor transient. When [nextLocalSeq] is not
    negative and neither the countdown nor the sequence numbers leave the
    64-bit range, a call of [setPeerActiveConnIDLimit] that returns without
    error has stored [lim] and appended to [local] exactly
    [max 0 (min lim maxPeerActiveConnIDLimit - n)] connection IDs, drawn in
    order from [newConnID], with consecutive sequence numbers from
    [nextLocalSeq] on; it has enqueued one closure that registers them; and
    the number of local connection IDs that are neither retired nor
    transient is then [max n (min lim maxPeerActiveConnIDLimit)]. *)
Theorem setPeerActiveConnIDLimit_issues maxPeer newConnID s c k lim s' ups k' :
  0 <= nextLocalSeq s ->
  lim < 2 ^ 63 ->
  - 2 ^ 63 <= Z.min lim maxPeer - activeLocal (local s) ->
  nextLocalSeq s + Z.max 0 (Z.min lim maxPeer - activeLocal (local s)) < 2 ^ 63 ->
  setPeerActiveConnIDLimit maxPeer newConnID s c k lim = (None, s', ups, k') ->
  exists ids,
    Z.of_nat (length ids) =
      Z.max 0 (Z.min lim maxPeer - activeLocal (local s)) /\
    peerActiveConnIDLimit s' = lim /\
    local s' = local s ++ issuedFrom (nextLocalSeq s) ids /\
    nextLocalSeq s' = nextLocalSeq s + Z.of_nat (length ids) /\
    (forall (i : nat) id, ids !! i = Some id ->
       newConnID (k + i)%nat (nextLocalSeq s + Z.of_nat i) = Some id) /\
    ups = [map (addConnID c) ids] /\
    k' = (k + length ids)%nat /\
    activeLocal (local s') =
      Z.max (activeLocal (local s)) (Z.min lim maxPeer).
Proof.
  intros Hseq Hlim Hlo Hhi Hrun.
  unfold setPeerActiveConnIDLimit, issueLocalIDs in Hrun.
  change (peerActiveConnIDLimit (set_peerActiveConnIDLimit lim s)) with lim in Hrun.
  change (local (set_peerActiveConnIDLimit lim s)) with (local s) in Hrun.
  rewrite countDown_eq in Hrun by lia.
  set (n := Z.to_nat (Z.min lim maxPeer - activeLocal (local s))) in Hrun.
  destruct (issueLoop newConnID n _ k []) as [[[err s1] k1] out] eqn:Hloop.
  destruct err; [discriminate|]. injection Hrun as <- <- <-.
  apply issueLoop_success in Hloop; simpl; try lia.
  destruct Hloop as (ids & Hlen & -> & -> & Hloc & Hnext & _ & Hpeer & Hids).
  simpl in Hloc, Hnext, Hpeer, Hids.
  exists ids. rewrite Hlen. repeat split; try assumption; try lia.
  rewrite Hloc, activeLocal_app, activeLocal_issuedFrom by lia. lia.
Qed.

Lemma setPeerActiveConnIDLimit_issues_witness :
  let r := setPeerActiveConnIDLimit 4 countingIDs serverStart conn7 1 2 in
  (0 <= nextLocalSeq serverStart /\ 2 < 2 ^ 63 /\
   - 2 ^ 63 <= Z.min 2 4 - activeLocal (local serverStart) /\
   nextLocalSeq serverStart
     + Z.max 0 (Z.min 2 4 - activeLocal (local serverStart)) < 2 ^ 63 /\
   r = (None, r.1.1.2, r.1.2, r.2)) /\
  exists ids,
    Z.of_nat (length ids) =
      Z.max 0 (Z.min 2 4 - activeLocal (local serverStart)) /\
    peerActiveConnIDLimit r.1.1.2 = 2 /\
    local r.1.1.2 = local serverStart ++ issuedFrom (nextLocalSeq serverStart) ids /\
    nextLocalSeq r.1.1.2 = nextLocalSeq serverStart + Z.of_nat (length ids) /\
    (forall (i : nat) id, ids !! i = Some id ->
       countingIDs (1 + i)%nat (nextLocalSeq serverStart + Z.of_nat i) = Some id) /\
    r.1.2 = [map (addConnID conn7) ids] /\
    r.2 = (1 + length ids)%nat /\
    activeLocal (local r.1.1.2) =
      Z.max (activeLocal (local serverStart)) (Z.min 2 4).
Proof.
  intros r.
  assert (H1 : 0 <= nextLocalSeq serverStart) by (simpl; lia).
  assert (H2 : 2 < 2 ^ 63) by reflexivity.
  assert (H3 : - 2 ^ 63 <= Z.min 2 4 - activeLocal (local serverStart))
    by (vm_compute; discriminate).
  assert (H4 : nextLocalSeq serverStart
               + Z.max 0 (Z.min 2 4 - activeLocal (local serverStart)) < 2 ^ 63)
    by reflexivity.
  assert (H5 : r = (None, r.1.1.2, r.1.2, r.2)) by reflexivity.
  split; [repeat split; assumption|].
  exact (setPeerActiveConnIDLimit_issues 4 countingIDs serverStart conn7 1 2
           r.1.1.2 r.1.2 r.2 H1 H2 H3 H4 H5).
Defined.

(** C3 as stated fails in two ways. The transient connection ID is not
    counted: a server that learns the limit 2 right after [initServer]
    holds three local connection IDs that are not retired. And nothing is
    taken back: with the limit 0 it keeps the two it has. *)
Lemma setPeerActiveConnIDLimit_counterexample :
  initServer countingIDs zeroState conn7 0 cidA =
    (None, serverStart, [[addConnID conn7 cidA; addConnID conn7 (repeat 0 8)]],
     1%nat) /\
  (exists s' ups,
     setPeerActiveConnIDLimit 4 countingIDs serverStart conn7 1 2 =
       (None, s', ups, 2%nat) /\
     nonRetiredLocal (local s') = 3 /\ Z.min 2 4 = 2) /\
  (exists s' ups,
     setPeerActiveConnIDLimit 4 countingIDs serverStart conn7 1 0 =
       (None, s', ups, 1%nat) /\
     nonRetiredLocal (local s') = 2 /\ activeLocal (local s') = 1 /\
     Z.min 0 4 = 0).
Proof.
  split; [reflexivity|]. split.
  - eexists _, _. split; [reflexivity|]. split; reflexivity.
  - eexists _, _. split; [reflexivity|]. repeat split; reflexivity.
Qed.





(** What the call does to the sample server, which holds the transient
    connection ID and its own first one: the peer retires the latter, and
    two new connection IDs, with the sequence numbers 1 and 2, fill
    [local] up to the limit 2. *)
Example handleRetireConnID_sample :
  handleRetireConnID 4 countingIDs serverLimit2 conn7 1 0 =
    (None,
     set_needSend true
       (set_nextLocalSeq 3
          (set_local [mkConnID (-1) cidA; issued 1 (repeat 1 8);
                      issued 2 (repeat 2 8)] serverLimit2)),
     [[retireConnID conn7 (repeat 0 8)];
      [addConnID conn7 (repeat 1 8); addConnID conn7 (repeat 2 8)]],
     3%nat).
Proof. reflexivity. Qed.

End ConnIDFacts.

(** ** The listener *)

Module ListenerFacts.
Import Listener.

Section WithExternals.

Context {ext : Externals}.

(** *** Closing *)

Lemma admits_refl l : admits l l.
Proof. unfold admits. auto. Qed.

Lemma newConn_closing l now side o r a :
  closing l = true -> newConn l now side o r a = (None, l).
Proof. intros H. unfold newConn. rewrite H. reflexivity. Qed.

Lemma newConn_admits l now side o r a : admits l (newConn l now side o r a).2.
Proof.
  unfold newConn. destruct (closing l) eqn:Hc; [apply admits_refl|].
  destruct (newConn_ctor _ _ _ _ _ _) as [[c|] ups]; unfold admits; simpl.
  - rewrite Hc. split; [reflexivity|]. split; [reflexivity|]. right. eauto.
  - auto.
Qed.

Lemma handleUnknownDestinationDatagram_admits l now m :
  admits l (handleUnknownDestinationDatagram l now m).1.
Proof.
  unfold handleUnknownDestinationDatagram.
  repeat first
    [ apply admits_refl
    | match goal with
      | |- context [newConn ?l ?n ?s ?o ?r ?a] =>
          pose proof (newConn_admits l n s o r a);
          destruct (newConn l n s o r a) as [[?|] ?]; simpl in *; assumption
      | |- context [if ?x then _ else _] => destruct x; simpl
      | |- context [match ?x with _ => _ end] => destruct x; simpl
      end ].
Qed.

Lemma listen_round_admits l now m : admits l (listen_round l now m).1.
Proof.
  unfold listen_round. destruct (length (b m) =? 0)%nat; [apply admits_refl|].
  set (l1 := if updateNeeded (conns_map l) then _ else l).
  assert (H1 : closing l1 = closing l /\ udpCloseCalls l1 = udpCloseCalls l /\
               conns l1 = conns l)
    by (subst l1; destruct (updateNeeded (conns_map l)); auto).
  destruct H1 as (Hc & Hu & Hs).
  assert (H : admits l1 (handleDatagram l1 now m).1).
  { unfold handleDatagram. destruct (dstConnIDForDatagram (b m)); [|apply admits_refl].
    destruct (byConnID (conns_map l1) !! _); [apply admits_refl|].
    apply handleUnknownDestinationDatagram_admits. }
  unfold admits in *. rewrite <- Hc, <- Hu, <- Hs. exact H.
Qed.

Lemma size_zero_iff (cs : gset Conn) : (size cs =? 0)%nat = true <-> cs = ∅.
Proof.
  rewrite Nat.eqb_eq, size_empty_iff. split; intros H.
  - apply leibniz_equiv, H.
  - rewrite H. reflexivity.
Qed.

(** Once the listener is closing, it stays so and gets no new
    connection. *)
Lemma step_closing l l' :
  step l l' -> closing l = true -> closing l' = true /\ conns l' ⊆ conns l.
Proof.
  intros Hstep Hc. destruct Hstep as [l now a | l now m | l | l c s | l f].
  - unfold Dial. rewrite newConn_closing by assumption. simpl. auto.
  - destruct (listen_round_admits l now m) as (H1 & _ & [H2 | [H2 _]]).
    + rewrite H1, H2. auto.
    + congruence.
  - unfold Close. simpl. rewrite Hc. simpl. auto.
  - unfold connDrained. simpl. rewrite Hc. simpl.
    destruct (size _ =? 0)%nat; simpl;
      (split; [assumption | apply subseteq_difference_l; reflexivity]).
  - simpl. auto.
Qed.

(** The socket is closed at the step that makes the listener closing
    without connections, and that step is [Close] or [connDrained]. *)
Lemma step_into_closed l l' :
  step l l' ->
  ~ (closing l = true /\ conns l = ∅) ->
  closing l' = true /\ conns l' = ∅ ->
  udpCloseCalls l' = S (udpCloseCalls l) /\
  (l' = (Close l).1 \/ exists c s, l' = connDrained l c s).
Proof.
  intros Hstep Hnot [Hc' He'].
  destruct Hstep as [l now a | l now m | l | l c s | l f].
  - exfalso. destruct (newConn_admits l now clientSide [] [] a)
      as (H1 & _ & [H2 | [H2 _]]); unfold Dial in *.
    + apply Hnot. rewrite <- H1, <- H2. auto.
    + congruence.
  - exfalso. destruct (listen_round_admits l now m) as (H1 & _ & [H2 | [H2 _]]).
    + apply Hnot. rewrite <- H1, <- H2. auto.
    + congruence.
  - split; [|left; reflexivity]. revert Hc' He'. unfold Close. simpl.
    destruct (closing l) eqn:Hc; simpl.
    + intros _ He. exfalso. apply Hnot. auto.
    + destruct (size (conns l) =? 0)%nat eqn:Hsz; simpl; [reflexivity|].
      intros _ He. apply size_zero_iff in He. congruence.
  - split; [|right; eauto]. revert Hc' He'. unfold connDrained. simpl.
    destruct (closing l) eqn:Hc; simpl.
    + destruct (size (conns l ∖ {[c]}) =? 0)%nat eqn:Hsz; simpl; [reflexivity|].
      intros _ He. apply size_zero_iff in He. congruence.
    + congruence.
  - exfalso. apply Hnot. simpl in *. auto.
Qed.

(** In every state the listener can reach, the socket is closed exactly
    when the listener is closing and has no connection. *)
Lemma reachable_closed_iff cfg l :
  reachable cfg l -> (udpClosed l <-> closing l = true /\ conns l = ∅).
Proof.
  unfold udpClosed. induction 1 as [|l l' Hreach IH Hstep].
  - simpl. split; [lia | intros [H _]; congruence].
  - destruct Hstep as [l now a | l now m | l | l c s | l f].
    + destruct (newConn_admits l now clientSide [] [] a)
        as (H1 & H2 & [H3 | [H3 _]]); unfold Dial; rewrite H1, H2.
      * rewrite H3. exact IH.
      * rewrite H3. split; [|intros [? _]; congruence].
        intros Hcl. apply IH in Hcl as [? _]. congruence.
    + destruct (listen_round_admits l now m) as (H1 & H2 & [H3 | [H3 _]]);
        rewrite H1, H2.
      * rewrite H3. exact IH.
      * rewrite H3. split; [|intros [? _]; congruence].
        intros Hcl. apply IH in Hcl as [? _]. congruence.
    + unfold Close. simpl. destruct (closing l) eqn:Hc; simpl; [rewrite ?Hc; exact IH|].
      destruct (size (conns l) =? 0)%nat eqn:Hsz; simpl.
      * apply size_zero_iff in Hsz. split; [auto | lia].
      * split; [|intros [_ He]; apply size_zero_iff in He; congruence].
        intros Hcl. apply IH in Hcl as [? _]. congruence.
    + unfold connDrained. simpl. destruct (closing l) eqn:Hc; simpl.
      * destruct (size (conns l ∖ {[c]}) =? 0)%nat eqn:Hsz; simpl.
        -- apply size_zero_iff in Hsz. split; [auto | lia].
        -- split; [|intros [_ He]; apply size_zero_iff in He; congruence].
           intros Hcl. apply IH in Hcl as [_ He]. exfalso.
           assert (Hz : (size (conns l ∖ {[c]}) =? 0)%nat = true)
             by (apply size_zero_iff; rewrite He; apply empty_difference_L).
           congruence.
      * split; [|intros [? _]; congruence].
        intros Hcl. apply IH in Hcl as [? _]. congruence.
    + simpl. exact IH.
Qed.

(** C8. In every state the listener can reach: once [closing] is set,
    [newConn] fails for either side and leaves the listener as it is, and
    every later step keeps [closing] set and adds no connection; the
    socket is closed exactly when [closing] holds and there is no
    connection; and the step that leads into that condition is [Close] or
    [connDrained] and calls [udpConn.Close] once. *)
Theorem closing_invariant cfg l :
  reachable cfg l ->
  (closing l = true ->
   (forall now side o r a, newConn l now side o r a = (None, l)) /\
   (forall l', step l l' -> closing l' = true /\ conns l' ⊆ conns l)) /\
  (udpClosed l <-> closing l = true /\ conns l = ∅) /\
  (forall l', step l l' ->
     ~ (closing l = true /\ conns l = ∅) ->
     closing l' = true /\ conns l' = ∅ ->
     udpCloseCalls l' = S (udpCloseCalls l) /\
     (l' = (Close l).1 \/ exists c s, l' = connDrained l c s)).
Proof.
  intros Hreach. split; [|split].
  - intros Hc. split.
    + intros. apply newConn_closing. exact Hc.
    + intros l' Hstep. apply step_closing; assumption.
  - apply (reachable_closed_iff cfg). exact Hreach.
  - intros l' Hstep. apply step_into_closed. exact Hstep.
Qed.

(** *** Datagrams for no connection *)

Lemma token_of_tail (bs : bytes) :
  (statelessResetTokenLen <= length bs)%nat ->
  copy (repeat 0 statelessResetTokenLen) (tail_from statelessResetTokenLen bs) =
  tail_from statelessResetTokenLen bs.
Proof.
  intros Hlen. apply copy_exact. unfold tail_from.
  rewrite repeat_length, length_drop. lia.
Qed.

(** C5, as the code has it. Take a datagram for no connection, of at
    least 21 bytes, whose last 16 bytes are no registered reset token and
    whose first byte announces a long header. When the header does not
    parse, or the datagram has fewer than [paddedInitialDatagramSize]
    bytes, it is dropped and nothing is sent. When the version is 0 it is
    dropped and nothing is sent. When the datagram has at least
    [paddedInitialDatagramSize] bytes and its version is neither 0 nor
    [quicVersion1], one Version Negotiation packet goes back to the
    sender, built from the source connection ID of the packet as
    destination, its destination connection ID as source, and the list of
    the one supported version. *)
Theorem unknown_long_header_version l now m id :
  dstConnIDForDatagram (b m) = Some id ->
  byConnID (conns_map l) !! id = None ->
  (minimumValidPacketSize <= length (b m))%nat ->
  byResetToken (conns_map l) !! tail_from statelessResetTokenLen (b m) = None ->
  isLongHeader (nth O (b m) 0) = true ->
  (parseGenericLongHeaderPacket (b m) = None \/
   (length (b m) < paddedInitialDatagramSize)%nat ->
   handleDatagram l now m = (l, [])) /\
  (forall p, parseGenericLongHeaderPacket (b m) = Some p -> version p = 0 ->
   handleDatagram l now m = (l, [])) /\
  (forall p, parseGenericLongHeaderPacket (b m) = Some p ->
   (paddedInitialDatagramSize <= length (b m))%nat ->
   version p <> 0 -> version p <> quicVersion1 ->
   handleDatagram l now m =
     (l, [evWriteTo (appendVersionNegotiation [] (srcConnID p) (dstConnID p)
                                              [quicVersion1])
                    (addr m)])).
Proof.
  intros Hdst Hconn Hmin Htok Hlong.
  unfold minimumValidPacketSize in Hmin.
  unfold handleDatagram. rewrite Hdst, Hconn.
  unfold handleUnknownDestinationDatagram.
  replace (length (b m) <? minimumValidPacketSize)%nat with false
    by (symmetry; apply Nat.ltb_ge; unfold minimumValidPacketSize; lia).
  rewrite token_of_tail by (unfold statelessResetTokenLen; lia).
  rewrite Htok, Hlong. simpl negb. cbv iota.
  split; [|split].
  - intros [Hparse | Hlen].
    + rewrite Hparse. reflexivity.
    + destruct (parseGenericLongHeaderPacket (b m)); [|reflexivity].
      replace (length (b m) <? paddedInitialDatagramSize)%nat with true
        by (symmetry; apply Nat.ltb_lt; assumption).
      reflexivity.
  - intros p Hparse Hzero. rewrite Hparse, Hzero.
    destruct (length (b m) <? paddedInitialDatagramSize)%nat; reflexivity.
  - intros p Hparse Hlen Hnz Hnv. rewrite Hparse.
    replace (length (b m) <? paddedInitialDatagramSize)%nat with false
      by (symmetry; apply Nat.ltb_ge; assumption).
    replace (version p =? quicVersion1) with false
      by (symmetry; apply Z.eqb_neq; assumption).
    replace (version p =? 0) with false
      by (symmetry; apply Z.eqb_neq; assumption).
    reflexivity.
Qed.

(** The stateless reset built by [maybeSendStatelessReset] for an input of
    at least 27 bytes. *)
Lemma maybeSendStatelessReset_sends l (bs : bytes) a :
  canReset (resetGen l) = true ->
  length (tokenForConnID (resetGen l) (take connIDLen (drop 1 bs))) =
    statelessResetTokenLen ->
  (1 + connIDLen + 1 + 1 + 16 <= length bs)%nat ->
  exists p,
    maybeSendStatelessReset l bs a = [evWriteTo p a] /\
    length p = Nat.min (length bs - 1) 42 /\
    tail_from statelessResetTokenLen p =
      tokenForConnID (resetGen l) (take connIDLen (drop 1 bs)).
Proof.
  intros Hcan Htoken Hlen. unfold connIDLen in Hlen.
  unfold maybeSendStatelessReset, sendDatagram. rewrite Hcan. simpl negb. cbv iota.
  replace (length bs <? 1 + connIDLen + 1 + 1 + 16)%nat with false
    by (symmetry; apply Nat.ltb_ge; unfold connIDLen; lia).
  cbv zeta.
  set (token := tokenForConnID _ _) in *.
  set (size := Nat.min (length bs - 1) 42).
  set (b1 := take size bs).
  assert (H1 : length b1 = size) by (subst b1 size; rewrite length_take; lia).
  rewrite H1.
  set (n := (size - statelessResetTokenLen)%nat).
  set (b2 := copy (take n b1) randomBytes ++ drop n b1).
  assert (H2 : length b2 = size).
  { subst b2. rewrite length_app, length_copy, length_take, length_drop, H1.
    subst n. lia. }
  set (b3 := <[O := _]> b2).
  assert (H3 : length b3 = size) by (subst b3; rewrite length_insert; exact H2).
  rewrite H3. fold n.
  assert (Hn : length (take n b3) = n)
    by (rewrite length_take, H3; subst n; lia).
  assert (Hcopy : copy (drop n b3) token = token).
  { apply copy_exact. rewrite length_drop, H3, Htoken.
    subst n size. unfold statelessResetTokenLen. lia. }
  rewrite Hcopy. eexists. split; [reflexivity|]. split.
  - rewrite length_app, Hn, Htoken. subst n size.
    unfold statelessResetTokenLen. lia.
  - unfold tail_from. rewrite length_app, Hn, Htoken.
    replace (n + statelessResetTokenLen - statelessResetTokenLen)%nat
      with (length (take n b3)) by lia.
    apply drop_app_length.
Qed.

(** C6. A datagram for no connection whose last 16 bytes are no
    registered reset token, with a short header, at a listener that has a
    key for stateless resets (and so derives tokens of 16 bytes): when it
    has fewer than [1 + connIDLen + 1 + 1 + 16] bytes nothing is sent;
    otherwise exactly one datagram goes back to the sender, of
    [min (len - 1) 42] bytes, hence shorter than the one received, and its
    last 16 bytes are the token derived from the bytes [1] to
    [1 + connIDLen] of the input. *)
Theorem short_header_stateless_reset l now m id :
  dstConnIDForDatagram (b m) = Some id ->
  byConnID (conns_map l) !! id = None ->
  byResetToken (conns_map l) !! tail_from statelessResetTokenLen (b m) = None ->
  isLongHeader (nth O (b m) 0) = false ->
  canReset (resetGen l) = true ->
  length (tokenForConnID (resetGen l) (take connIDLen (drop 1 (b m)))) =
    statelessResetTokenLen ->
  ((length (b m) < 1 + connIDLen + 1 + 1 + 16)%nat ->
   handleDatagram l now m = (l, [])) /\
  ((1 + connIDLen + 1 + 1 + 16 <= length (b m))%nat ->
   exists p,
     handleDatagram l now m = (l, [evWriteTo p (addr m)]) /\
     length p = Nat.min (length (b m) - 1) 42 /\
     (length p < length (b m))%nat /\
     tail_from statelessResetTokenLen p =
       tokenForConnID (resetGen l) (take connIDLen (drop 1 (b m)))).
Proof.
  intros Hdst Hconn Htok Hshort Hcan Htoken.
  unfold handleDatagram. rewrite Hdst, Hconn.
  unfold handleUnknownDestinationDatagram.
  destruct (Nat.ltb_spec (length (b m)) minimumValidPacketSize) as [Hsmall|Hbig];
    unfold minimumValidPacketSize, connIDLen in *.
  - split; [reflexivity | lia].
  - rewrite token_of_tail by (unfold statelessResetTokenLen; lia).
    rewrite Htok, Hshort. simpl negb. cbv iota. split.
    + intros Hlen. unfold maybeSendStatelessReset. rewrite Hcan. simpl negb.
      cbv iota.
      replace (length (b m) <? 1 + connIDLen + 1 + 1 + 16)%nat with true
        by (symmetry; apply Nat.ltb_lt; unfold connIDLen; lia).
      reflexivity.
    + intros Hlen.
      destruct (maybeSendStatelessReset_sends l (b m) (addr m) Hcan Htoken Hlen)
        as (p & Hsend & Hsize & Htail).
      exists p. rewrite Hsend. repeat split; try assumption. lia.
Qed.

End WithExternals.

(** *** The statements on sample data *)

#[local] Existing Instance sampleExternals.

Lemma closing_invariant_witness :
  let cfg := config freshListener in
  let l := (Close freshListener).1 in
  reachable cfg l /\
  (closing l = true ->
   (forall now side o r a, newConn l now side o r a = (None, l)) /\
   (forall l', step l l' -> closing l' = true /\ conns l' ⊆ conns l)) /\
  (udpClosed l <-> closing l = true /\ conns l = ∅) /\
  (forall l', step l l' ->
     ~ (closing l = true /\ conns l = ∅) ->
     closing l' = true /\ conns l' = ∅ ->
     udpCloseCalls l' = S (udpCloseCalls l) /\
     (l' = (Close l).1 \/ exists c s, l' = connDrained l c s)).
Proof.
  intros cfg l.
  assert (H : reachable cfg l).
  { apply (reachable_step cfg freshListener l).
    - apply reachable_new.
    - apply step_Close. }
  split; [exact H|]. exact (closing_invariant cfg l H).
Defined.

Lemma unknown_long_header_version_witness :
  let l := freshListener in
  let m := longHeaderDatagram [222; 173; 190; 239] 1200 in
  let id := [1; 2; 3; 4; 5; 6; 7; 8] in
  (dstConnIDForDatagram (b m) = Some id /\
   byConnID (conns_map l) !! id = None /\
   (minimumValidPacketSize <= length (b m))%nat /\
   byResetToken (conns_map l) !! tail_from statelessResetTokenLen (b m) = None /\
   isLongHeader (nth O (b m) 0) = true) /\
  (parseGenericLongHeaderPacket (b m) = None \/
   (length (b m) < paddedInitialDatagramSize)%nat ->
   handleDatagram l 0 m = (l, [])) /\
  (forall p, parseGenericLongHeaderPacket (b m) = Some p -> version p = 0 ->
   handleDatagram l 0 m = (l, [])) /\
  (forall p, parseGenericLongHeaderPacket (b m) = Some p ->
   (paddedInitialDatagramSize <= length (b m))%nat ->
   version p <> 0 -> version p <> quicVersion1 ->
   handleDatagram l 0 m =
     (l, [evWriteTo (appendVersionNegotiation [] (srcConnID p) (dstConnID p)
                                              [quicVersion1])
                    (addr m)])).
Proof.
  intros l m id.
  assert (H1 : dstConnIDForDatagram (b m) = Some id) by (vm_compute; reflexivity).
  assert (H2 : byConnID (conns_map l) !! id = None) by apply lookup_empty.
  assert (H3 : (minimumValidPacketSize <= length (b m))%nat)
    by (vm_compute; lia).
  assert (H4 : byResetToken (conns_map l)
                 !! tail_from statelessResetTokenLen (b m) = None)
    by apply lookup_empty.
  assert (H5 : isLongHeader (nth O (b m) 0) = true) by reflexivity.
  split; [repeat split; assumption|].
  exact (unknown_long_header_version l 0 m id H1 H2 H3 H4 H5).
Defined.

(** The Version Negotiation packet sent for the sample datagram of 1200
    bytes with the version 0xdeadbeef. *)
Example unknown_long_header_version_sample :
  handleDatagram freshListener 0 (longHeaderDatagram [222; 173; 190; 239] 1200) =
    (freshListener,
     [evWriteTo ([192; 0; 0; 0; 0]
                 ++ [8; 11; 12; 13; 14; 15; 16; 17; 18]
                 ++ [8; 1; 2; 3; 4; 5; 6; 7; 8] ++ [0; 0; 0; 1])
                peer]).
Proof. vm_compute. reflexivity. Qed.

(** C5 as stated fails for a datagram of fewer than
    [paddedInitialDatagramSize] bytes: 30 bytes with a long header and the
    version 0xdeadbeef, for no connection and with no reset token at the
    end, are dropped and no Version Negotiation packet is sent. *)
Lemma unknown_long_header_version_counterexample :
  let l := freshListener in
  let m := longHeaderDatagram [222; 173; 190; 239] 30 in
  let id := [1; 2; 3; 4; 5; 6; 7; 8] in
  dstConnIDForDatagram (b m) = Some id /\
  byConnID (conns_map l) !! id = None /\
  length (b m) = 30%nat /\
  byResetToken (conns_map l) !! tail_from statelessResetTokenLen (b m) = None /\
  isLongHeader (nth O (b m) 0) = true /\
  (version <$> parseGenericLongHeaderPacket (b m)) = Some 3735928559 /\
  handleDatagram l 0 m = (l, []).
Proof.
  intros l m id. repeat split; try reflexivity; apply lookup_empty.
Qed.

Lemma short_header_stateless_reset_witness :
  let l := freshListener in
  let m := shortHeaderDatagram 30 in
  let id := [1; 2; 3; 4; 5; 6; 7; 8] in
  (dstConnIDForDatagram (b m) = Some id /\
   byConnID (conns_map l) !! id = None /\
   byResetToken (conns_map l) !! tail_from statelessResetTokenLen (b m) = None /\
   isLongHeader (nth O (b m) 0) = false /\
   canReset (resetGen l) = true /\
   length (tokenForConnID (resetGen l) (take connIDLen (drop 1 (b m)))) =
     statelessResetTokenLen) /\
  ((length (b m) < 1 + connIDLen + 1 + 1 + 16)%nat ->
   handleDatagram l 0 m = (l, [])) /\
  ((1 + connIDLen + 1 + 1 + 16 <= length (b m))%nat ->
   exists p,
     handleDatagram l 0 m = (l, [evWriteTo p (addr m)]) /\
     length p = Nat.min (length (b m) - 1) 42 /\
     (length p < length (b m))%nat /\
     tail_from statelessResetTokenLen p =
       tokenForConnID (resetGen l) (take connIDLen (drop 1 (b m)))).
Proof.
  intros l m id.
  assert (H1 : dstConnIDForDatagram (b m) = Some id) by reflexivity.
  assert (H2 : byConnID (conns_map l) !! id = None) by apply lookup_empty.
  assert (H3 : byResetToken (conns_map l)
                 !! tail_from statelessResetTokenLen (b m) = None)
    by apply lookup_empty.
  assert (H4 : isLongHeader (nth O (b m) 0) = false) by reflexivity.
  assert (H5 : canReset (resetGen l) = true) by reflexivity.
  assert (H6 : length (tokenForConnID (resetGen l)
                         (take connIDLen (drop 1 (b m)))) =
               statelessResetTokenLen) by reflexivity.
  split; [repeat split; assumption|].
  exact (short_header_stateless_reset l 0 m id H1 H2 H3 H4 H5 H6).
Defined.

(** The reset sent for the sample datagram of 30 bytes: 29 bytes, the
    first with the long-header bit clear and the fixed bit set, the last
    16 the token. *)
Example short_header_stateless_reset_sample :
  handleDatagram freshListener 0 (shortHeaderDatagram 30) =
    (freshListener,
     [evWriteTo ([106] ++ repeat 170 12 ++ [1; 2; 3; 4; 5; 6; 7; 8] ++ repeat 0 8)
                peer]).
Proof. vm_compute. reflexivity. Qed.

End ListenerFacts.

(** ** conn_id.go, the other methods *)

Module ConnIDRestFacts.
Import ConnID ConnIDRest ConnIDFacts.

(** *** The connection ID in use *)

Lemma firstActive_Some l rcid :
  firstActive l = Some rcid <->
  exists l1 l2,
    l = l1 ++ rcid :: l2 /\
    Forall (fun r : remoteConnID => retired r = true) l1 /\
    retired rcid = false.
Proof.
  induction l as [|r l IH]; simpl.
  - split; [discriminate|]. intros (l1 & l2 & H & _). destruct l1; discriminate.
  - destruct (retired r) eqn:Hr.
    + rewrite IH. split.
      * intros (l1 & l2 & -> & Hall & Hact). exists (r :: l1), l2. auto.
      * intros (l1 & l2 & Heq & Hall & Hact). destruct l1 as [|r1 l1].
        -- injection Heq as -> ->. congruence.
        -- injection Heq as -> ->. inversion Hall; subst. eauto.
    + split.
      * intros H. injection H as <-. exists [], l. auto.
      * intros (l1 & l2 & Heq & Hall & Hact). destruct l1 as [|r1 l1].
        -- injection Heq as -> ->. reflexivity.
        -- injection Heq as -> ->. inversion Hall; subst. congruence.
Qed.

Lemma firstActive_None l :
  firstActive l = None <->
  forall rcid : remoteConnID, In rcid l -> retired rcid = true.
Proof.
  induction l as [|r l IH]; simpl.
  - split; [intros _ ? [] | reflexivity].
  - destruct (retired r) eqn:Hr.
    + rewrite IH. split.
      * intros H x [<- | Hx]; auto.
      * intros H x Hx. apply H. auto.
    + split; [discriminate|]. intros H. specialize (H r (or_introl eq_refl)).
      congruence.
Qed.

(** X1. The reset token that [isValidStatelessResetToken] accepts is the
    token of the connection ID that [dstConnID] returns: the first remote
    connection ID that is not retired. When all are retired, [dstConnID]
    has nothing to return and no token is valid. *)
Theorem valid_token_is_of_dstConnID s :
  (dstConnID s = None <->
   forall rcid : remoteConnID, In rcid (remote s) -> retired rcid = true) /\
  (dstConnID s = None -> forall token, isValidStatelessResetToken s token = false) /\
  (forall token,
     isValidStatelessResetToken s token = true <->
     exists l1 (rcid : remoteConnID) l2,
       remote s = l1 ++ rcid :: l2 /\
       Forall (fun r : remoteConnID => retired r = true) l1 /\
       retired rcid = false /\
       resetToken rcid = token /\ dstConnID s = Some (cid rcid)).
Proof.
  unfold dstConnID, isValidStatelessResetToken. split; [|split].
  - rewrite <- firstActive_None. destruct (firstActive (remote s)); split;
      congruence.
  - destruct (firstActive (remote s)); [discriminate | reflexivity].
  - intros token. destruct (firstActive (remote s)) as [r|] eqn:Hfirst.
    + pose proof Hfirst as Hr. apply firstActive_Some in Hr as (l1 & l2 & Hl & Hall & Hact).
      split.
      * intros H. apply bool_decide_eq_true in H. exists l1, r, l2. auto.
      * intros (l1' & r' & l2' & Hl' & Hall' & Hact' & Htok & _).
        assert (Hr' : firstActive (remote s) = Some r')
          by (apply firstActive_Some; eauto).
        apply bool_decide_eq_true. congruence.
    + split; [discriminate|].
      intros (l1' & r' & l2' & Hl' & Hall' & Hact' & _).
      assert (Hr' : firstActive (remote s) = Some r')
        by (apply firstActive_Some; eauto).
      congruence.
Qed.

(** *** What [handleNewConnID] keeps *)

Lemma handleNewConnID_cases lim s c sq retire id token err s' ups :
  handleNewConnID lim s c sq retire id token = Some (err, s', ups) ->
  (err = protocolViolation /\ s' = s /\ ups = [] /\
   exists head rest, remote s = head :: rest /\ cid head = []) \/
  (exists head rest,
     remote s = head :: rest /\ cid head <> [] /\
     let prior := Z.max (retireRemotePriorTo s) retire in
     let l := remote s in
     let k := visited sq id l in
     (existsb (clash sq id) l = true /\ err = protocolViolation /\
      s' = updated prior (retirePass prior (take k l) ++ drop k l)
                   (needSend s || existsb (toRetire prior) (take k l)) s /\
      ups = retireOps c prior (take k l)) \/
     (existsb (clash sq id) l = false /\ err <> protocolViolation /\
      s' = updated prior (retirePass prior l ++ appended prior sq id token l)
                   (needSend s || existsb (toRetire prior) l
                    || (negb (hasSeq sq l) && (sq <? prior))) s /\
      ups = retireOps c prior l ++
            (if hasSeq sq l || (sq <? prior) then []
             else [[addResetToken c token]]))).
Proof.
  destruct (remote s) as [|head rest] eqn:Hrem.
  { unfold handleNewConnID. rewrite Hrem. discriminate. }
  destruct (cid head) as [|x xs] eqn:Hcid.
  { unfold handleNewConnID. rewrite Hrem, Hcid. simpl.
    intros H. injection H as <- <- <-. left. eauto 10. }
  assert (Hhead : cid head <> []) by (rewrite Hcid; discriminate).
  rewrite (handleNewConnID_eq lim s c sq retire id token head rest Hrem Hhead).
  cbv zeta. rewrite Hrem. intros H. right. exists head, rest.
  split; [reflexivity|]. split; [assumption|].
  destruct (existsb (clash sq id) (head :: rest)).
  - injection H as <- <- <-. left. auto.
  - injection H as <- <- <-. right. split; [reflexivity|].
    split; [destruct (_ || _); discriminate | auto].
Qed.

Lemma In_retirePass prior l (rcid : remoteConnID) :
  In rcid (retirePass prior l) ->
  exists r0 : remoteConnID,
    In r0 l /\ rcid = (if toRetire prior r0 then retireRemote r0 else r0).
Proof.
  unfold retirePass. intros H. apply in_map_iff in H as (r0 & <- & Hin). eauto.
Qed.

(** X2. Whenever [handleNewConnID] returns something else than
    PROTOCOL_VIOLATION, every remote connection ID that is left in use and
    is not the transient one has a sequence number of at least
    [retireRemotePriorTo], whatever the state was before. *)
Theorem handleNewConnID_retiredBelow lim s c sq retire id token err s' ups :
  handleNewConnID lim s c sq retire id token = Some (err, s', ups) ->
  err <> protocolViolation ->
  retiredBelow s'.
Proof.
  intros Hrun Herr.
  apply handleNewConnID_cases in Hrun
    as [(-> & _) | (head & rest & Hrem & Hhead & [(_ & -> & _) | (_ & _ & -> & _)])];
    try congruence.
  unfold retiredBelow. simpl. set (prior := Z.max _ _).
  intros r Hin Hact Hseq. apply in_app_or in Hin as [Hin | Hin].
  - apply In_retirePass in Hin as (r0 & _ & ->).
    destruct (toRetire prior r0) eqn:Hret; [discriminate|].
    unfold toRetire in Hret. rewrite Hact in Hret. simpl in Hret. lia.
  - unfold appended in Hin. destruct (hasSeq sq _); [contradiction|].
    destruct Hin as [<- | []].
    destruct (Z.ltb_spec sq prior); [discriminate | assumption].
Qed.

Lemma handleNewConnID_retiredBelow_witness :
  let r := handleNewConnID 2 twoRemotes conn7 2 1 cidC tokenC in
  exists s' ups,
    (r = Some (None, s', ups) /\ None <> protocolViolation) /\ retiredBelow s'.
Proof.
  eexists _, _.
  assert (H : handleNewConnID 2 twoRemotes conn7 2 1 cidC tokenC =
              Some (None, _, _)) by reflexivity.
  split; [split; [exact H | discriminate]|].
  exact (handleNewConnID_retiredBelow 2 twoRemotes conn7 2 1 cidC tokenC
           None _ _ H ltac:(discriminate)).
Defined.

Lemma map_seq_sameIDs l l' :
  sameIDs l l' ->
  map (fun r : remoteConnID => seq r) l' = map (fun r : remoteConnID => seq r) l.
Proof.
  induction 1 as [|r r' l l' [Hs _] _ IH]; simpl; [reflexivity|].
  rewrite Hs, IH. reflexivity.
Qed.

(** X3. [handleNewConnID] never stores a sequence number twice: when the
    remote connection IDs have pairwise different sequence numbers before
    the call, they have so after it, whatever it returns. *)
Theorem handleNewConnID_unique_seq lim s c sq retire id token err s' ups :
  NoDup (map (fun r : remoteConnID => seq r) (remote s)) ->
  handleNewConnID lim s c sq retire id token = Some (err, s', ups) ->
  NoDup (map (fun r : remoteConnID => seq r) (remote s')).
Proof.
  intros Hnd Hrun.
  apply handleNewConnID_cases in Hrun
    as [(_ & -> & _) | (head & rest & Hrem & Hhead & [(_ & _ & -> & _) | (_ & _ & -> & _)])];
    [assumption | |]; simpl; set (prior := Z.max _ _).
  - rewrite (map_seq_sameIDs _ _ (sameIDs_retired _ prior (remote s))). exact Hnd.
  - rewrite map_app.
    pose proof (sameIDs_retired (length (remote s)) prior (remote s)) as Hsame.
    rewrite firstn_all, drop_all, app_nil_r in Hsame.
    rewrite (map_seq_sameIDs _ _ Hsame).
    unfold appended. destruct (hasSeq sq (remote s)) eqn:Hhas.
    + simpl. rewrite app_nil_r. exact Hnd.
    + assert (Hnew : ~ In sq (map (fun r : remoteConnID => seq r) (remote s))).
      { intros Hin. apply in_map_iff in Hin as (r & Hr & Hin).
        assert (hasSeq sq (remote s) = true) by (apply hasSeq_iff; eauto).
        congruence. }
      replace (map _ [_]) with [sq] by (destruct (sq <? prior); reflexivity).
      apply NoDup_app. split; [exact Hnd|]. split.
      * intros x Hx Hin. apply list_elem_of_In in Hin. destruct Hin as [<- | []].
        apply Hnew, list_elem_of_In, Hx.
      * apply NoDup_singleton.
Qed.

Lemma handleNewConnID_unique_seq_witness :
  let r := handleNewConnID 2 twoRemotes conn7 2 1 cidC tokenC in
  exists s' ups,
    (NoDup (map (fun r : remoteConnID => seq r) (remote twoRemotes)) /\
     r = Some (None, s', ups)) /\
    NoDup (map (fun r : remoteConnID => seq r) (remote s')).
Proof.
  eexists _, _.
  assert (H : handleNewConnID 2 twoRemotes conn7 2 1 cidC tokenC =
              Some (None, _, _)) by reflexivity.
  assert (Hnd : NoDup (map (fun r : remoteConnID => seq r) (remote twoRemotes))).
  { simpl. apply NoDup_cons. split; [|apply NoDup_singleton].
    intros Hin. apply list_elem_of_In in Hin. destruct Hin as [Hin | []].
    discriminate. }
  split; [split; [exact Hnd | exact H]|].
  exact (handleNewConnID_unique_seq 2 twoRemotes conn7 2 1 cidC tokenC
           None _ _ Hnd H).
Defined.

Lemma handleNewConnID_repeat_witness :
  let r := handleNewConnID 2 twoRemotes conn7 2 1 cidC tokenC in
  exists s' ups,
    r = Some (None, s', ups) /\
    handleNewConnID 2 s' conn7 2 1 cidC tokenC = Some (None, s', []).
Proof.
  eexists _, _.
  assert (H : handleNewConnID 2 twoRemotes conn7 2 1 cidC tokenC =
              Some (None, _, _)) by reflexivity.
  split; [exact H|].
  exact (handleNewConnID_repeat 2 twoRemotes conn7 2 1 cidC tokenC None _ _ H).
Defined.

Lemma kept_pass k prior l :
  Forall2 (fun r r' => kept r r' /\
                       (r' <> r -> In r (take k l) /\ toRetire prior r = true))
          l (retirePass prior (take k l) ++ drop k l).
Proof.
  assert (Hrefl : forall (P : remoteConnID -> Prop) l0,
             Forall2 (fun r r' => kept r r' /\ (r' <> r -> P r)) l0 l0).
  { intros P l0. induction l0; constructor; auto.
    split; [unfold kept; auto 10 | congruence]. }
  revert k. induction l as [|r l IH]; intros [|k]; simpl;
    try (constructor; fail).
  - apply (Hrefl (fun r0 => False /\ toRetire prior r0 = true) (r :: l)).
  - constructor.
    + destruct (toRetire prior r) eqn:Hret; unfold kept; simpl.
      * split; [|auto]. repeat split; auto. right. split; [|reflexivity].
        apply (toRetire_retired prior). exact Hret.
      * split; [auto 10 | congruence].
    + eapply Forall2_impl; [apply (IH k)|].
      intros x y [Hk Hne]. split; [exact Hk|].
      intros H. destruct (Hne H). auto.
Qed.

(** The call seen from each entry it finds, and the closures it leaves. *)
Lemma handleNewConnID_pass lim s c sq retire id token err s' ups :
  handleNewConnID lim s c sq retire id token = Some (err, s', ups) ->
  exists prior k tail,
    (forall (i : nat) (r : remoteConnID), remote s !! i = Some r ->
       exists r' : remoteConnID,
         remote s' !! i = Some r' /\ kept r r' /\
         (r' <> r -> In r (take k (remote s)) /\ toRetire prior r = true)) /\
    ups = retireOps c prior (take k (remote s)) ++ tail /\
    (tail = [] \/ tail = [[addResetToken c token]]).
Proof.
  intros Hrun.
  apply handleNewConnID_cases in Hrun
    as [(_ & -> & -> & _) | (head & rest & Hrem & Hhead & [(_ & _ & -> & ->) | (Hclash & _ & -> & ->)])].
  - exists 0, O, []. split; [|split; [reflexivity | auto]].
    intros i r Hi. exists r. split; [exact Hi|].
    split; [unfold kept; auto 10 | congruence].
  - eexists _, _, []. split; [|split; [symmetry; apply app_nil_r | auto]].
    intros i r Hi. simpl remote.
    exact (Forall2_lookup_l _ _ _ i r (kept_pass _ _ (remote s)) Hi).
  - simpl remote. set (prior := Z.max _ _).
    exists prior, (length (remote s)),
      (if hasSeq sq (remote s) || (sq <? prior) then []
       else [[addResetToken c token]]).
    rewrite firstn_all. split; [|split; [reflexivity|]].
    + intros i r Hi.
      pose proof (kept_pass (length (remote s)) prior (remote s)) as Hall.
      rewrite firstn_all, drop_all, app_nil_r in Hall.
      destruct (Forall2_lookup_l _ _ _ i r Hall Hi) as (r' & Hi' & Hk).
      exists r'. split; [|exact Hk]. apply lookup_app_l_Some. exact Hi'.
    + destruct (_ || _); auto.
Qed.

(** X4. Whatever it returns, [handleNewConnID] leaves the local connection
    IDs and the other fields alone, never lowers [retireRemotePriorTo],
    and does nothing to a remote connection ID it has but retire it:
    position, sequence number, connection ID and reset token stay, and a
    retired one stays retired. The closures it enqueues only remove reset
    tokens or register the token of the frame. *)
Theorem handleNewConnID_only_retires lim s c sq retire id token err s' ups :
  handleNewConnID lim s c sq retire id token = Some (err, s', ups) ->
  (local s' = local s /\ nextLocalSeq s' = nextLocalSeq s /\
   peerActiveConnIDLimit s' = peerActiveConnIDLimit s /\
   originalDstConnID s' = originalDstConnID s /\
   retrySrcConnID s' = retrySrcConnID s) /\
  retireRemotePriorTo s <= retireRemotePriorTo s' /\
  (forall (i : nat) (r : remoteConnID), remote s !! i = Some r ->
     exists r' : remoteConnID, remote s' !! i = Some r' /\ kept r r') /\
  (forall f op, In f ups -> In op f ->
     (exists t, op = retireResetToken c t) \/ op = addResetToken c token).
Proof.
  intros Hrun. split; [|split; [|split]].
  - apply handleNewConnID_cases in Hrun
      as [(_ & -> & _) | (head & rest & _ & _ & [(_ & _ & -> & _) | (_ & _ & -> & _)])];
      simpl; auto.
  - apply handleNewConnID_cases in Hrun
      as [(_ & -> & _) | (head & rest & _ & _ & [(_ & _ & -> & _) | (_ & _ & -> & _)])];
      simpl; lia.
  - apply handleNewConnID_pass in Hrun as (prior & k & tail & Hpt & _).
    intros i r Hi. destruct (Hpt i r Hi) as (r' & Hi' & Hk & _). eauto.
  - apply handleNewConnID_pass in Hrun as (prior & k & tail & _ & -> & Htail).
    intros f op Hf Hop. apply in_app_or in Hf as [Hf | Hf].
    + left. unfold retireOps in Hf. apply in_flat_map in Hf as (r & _ & Hf).
      destruct (toRetire prior r); [|contradiction].
      destruct Hf as [<- | []]. destruct Hop as [<- | []]. eauto.
    + right. destruct Htail as [-> | ->]; [contradiction|].
      destruct Hf as [<- | []]. destruct Hop as [<- | []]. reflexivity.
Qed.

Lemma handleNewConnID_only_retires_witness :
  let r := handleNewConnID 2 twoRemotes conn7 2 1 cidC tokenC in
  exists s' ups,
    r = Some (None, s', ups) /\
    (local s' = local twoRemotes /\ nextLocalSeq s' = nextLocalSeq twoRemotes /\
     peerActiveConnIDLimit s' = peerActiveConnIDLimit twoRemotes /\
     originalDstConnID s' = originalDstConnID twoRemotes /\
     retrySrcConnID s' = retrySrcConnID twoRemotes) /\
    retireRemotePriorTo twoRemotes <= retireRemotePriorTo s' /\
    (forall (i : nat) (r : remoteConnID), remote twoRemotes !! i = Some r ->
       exists r' : remoteConnID, remote s' !! i = Some r' /\ kept r r') /\
    (forall f op, In f ups -> In op f ->
       (exists t, op = retireResetToken conn7 t) \/ op = addResetToken conn7 tokenC).
Proof.
  eexists _, _.
  assert (H : handleNewConnID 2 twoRemotes conn7 2 1 cidC tokenC =
              Some (None, _, _)) by reflexivity.
  split; [exact H|].
  exact (handleNewConnID_only_retires 2 twoRemotes conn7 2 1 cidC tokenC
           None _ _ H).
Defined.

(** *** The closures and the table *)

Lemma applyOps_maps ops : forall m,
  Listener.byConnID (fold_left Listener.applyOp ops m) =
    idsAfter ops (Listener.byConnID m) /\
  Listener.byResetToken (fold_left Listener.applyOp ops m) =
    tokensAfter ops (Listener.byResetToken m).
Proof.
  unfold idsAfter, tokensAfter.
  induction ops as [|op ops IH]; intros m; simpl; [auto|].
  destruct (IH (Listener.applyOp m op)) as [-> ->].
  destruct op; simpl; auto.
Qed.

Lemma applyClosures_concat fs : forall m,
  fold_left (fun m f => fold_left Listener.applyOp f m) fs m =
  fold_left Listener.applyOp (concat fs) m.
Proof.
  induction fs as [|f fs IH]; intros m; simpl; [reflexivity|].
  rewrite IH, fold_left_app. reflexivity.
Qed.

Lemma updateConnIDs_all ups : forall m,
  Listener.updates (fold_left Listener.updateConnIDs ups m) =
    Listener.updates m ++ ups /\
  Listener.byConnID (fold_left Listener.updateConnIDs ups m) =
    Listener.byConnID m /\
  Listener.byResetToken (fold_left Listener.updateConnIDs ups m) =
    Listener.byResetToken m.
Proof.
  induction ups as [|f ups IH]; intros m; simpl.
  - rewrite app_nil_r. auto.
  - destruct (IH (Listener.updateConnIDs m f)) as (-> & -> & ->). simpl.
    rewrite <- app_assoc. auto.
Qed.

(** After an update round the maps are what the pending closures and then
    the new ones make of them, in the order in which they were enqueued,
    and nothing is pending. *)
Lemma afterUpdates_maps m ups :
  Listener.byConnID (afterUpdates m ups) =
    idsAfter (concat (Listener.updates m) ++ concat ups) (Listener.byConnID m) /\
  Listener.byResetToken (afterUpdates m ups) =
    tokensAfter (concat (Listener.updates m) ++ concat ups)
                (Listener.byResetToken m) /\
  Listener.updates (afterUpdates m ups) = [] /\
  Listener.updateNeeded (afterUpdates m ups) = false.
Proof.
  unfold afterUpdates, Listener.applyUpdates. simpl.
  destruct (updateConnIDs_all ups m) as (Hu & Hi & Ht).
  rewrite applyClosures_concat, Hu, concat_app.
  destruct (applyOps_maps (concat (Listener.updates m) ++ concat ups)
              (fold_left Listener.updateConnIDs ups m)) as [-> ->].
  rewrite Hi, Ht. auto.
Qed.

Lemma tokensAfter_app ops1 ops2 tokens :
  tokensAfter (ops1 ++ ops2) tokens = tokensAfter ops2 (tokensAfter ops1 tokens).
Proof. unfold tokensAfter. apply fold_left_app. Qed.

Lemma idsAfter_app ops1 ops2 ids :
  idsAfter (ops1 ++ ops2) ids = idsAfter ops2 (idsAfter ops1 ids).
Proof. unfold idsAfter. apply fold_left_app. Qed.

(** A token that is removed and not registered again is not in the map,
    whatever the map was. *)
Lemma tokensAfter_retired t ops : forall tokens : gmap (list Z) Conn,
  (forall c, ~ In (addResetToken c t) ops) ->
  tokens !! t = None \/ (exists c, In (retireResetToken c t) ops) ->
  tokensAfter ops tokens !! t = None.
Proof.
  unfold tokensAfter.
  induction ops as [|op ops IH]; intros tokens Hadd Hret; simpl.
  - destruct Hret as [H | [c []]]. exact H.
  - apply IH.
    + intros c Hin. apply (Hadd c). right. exact Hin.
    + destruct Hret as [H | [c [-> | Hc]]].
      * left. destruct op as [c0 id0 | c0 id0 | c0 t0 | c0 t0]; try exact H.
        -- rewrite lookup_insert_ne; [exact H|].
           intros ->. apply (Hadd c0). left. reflexivity.
        -- destruct (decide (t0 = t)) as [-> | Hne].
           ++ apply lookup_delete_eq.
           ++ rewrite lookup_delete_ne by exact Hne. exact H.
      * left. apply lookup_delete_eq.
      * right. eauto.
Qed.

Lemma idsAfter_retired id ops : forall ids : gmap (list Z) Conn,
  (forall c, ~ In (addConnID c id) ops) ->
  ids !! id = None \/ (exists c, In (retireConnID c id) ops) ->
  idsAfter ops ids !! id = None.
Proof.
  unfold idsAfter.
  induction ops as [|op ops IH]; intros ids Hadd Hret; simpl.
  - destruct Hret as [H | [c []]]. exact H.
  - apply IH.
    + intros c Hin. apply (Hadd c). right. exact Hin.
    + destruct Hret as [H | [c [-> | Hc]]].
      * left. destruct op as [c0 id0 | c0 id0 | c0 t0 | c0 t0]; try exact H.
        -- rewrite lookup_insert_ne; [exact H|].
           intros ->. apply (Hadd c0). left. reflexivity.
        -- destruct (decide (id0 = id)) as [-> | Hne].
           ++ apply lookup_delete_eq.
           ++ rewrite lookup_delete_ne by exact Hne. exact H.
      * left. apply lookup_delete_eq.
      * right. eauto.
Qed.

(** A connection ID that is registered for [c] by closures that do nothing
    but register connection IDs for [c] belongs to [c]. *)
Lemma idsAfter_added c id ops : forall ids : gmap (list Z) Conn,
  (forall op, In op ops -> exists id', op = addConnID c id') ->
  ids !! id = Some c \/ In (addConnID c id) ops ->
  idsAfter ops ids !! id = Some c.
Proof.
  unfold idsAfter.
  induction ops as [|op ops IH]; intros ids Hall Hin; simpl.
  - destruct Hin as [H | []]. exact H.
  - apply IH.
    + intros op' Hop'. apply Hall. right. exact Hop'.
    + destruct (Hall op (or_introl eq_refl)) as [id' ->].
      destruct (decide (id' = id)) as [-> | Hne].
      * left. apply lookup_insert_eq.
      * rewrite lookup_insert_ne by exact Hne.
        destruct Hin as [H | [H | H]]; [auto | congruence | auto].
Qed.



(** *** Issuing local connection IDs, with or without error *)

(** The loop of [issueLocalIDs], however it ends. *)
Lemma issueLoop_any newConnID n : forall s k acc err s' k' out,
  - 2 ^ 63 <= nextLocalSeq s -> nextLocalSeq s + Z.of_nat n < 2 ^ 63 ->
  issueLoop newConnID n s k acc = (err, s', k', out) ->
  exists ids,
    out = acc ++ ids /\
    local s' = local s ++ issuedFrom (nextLocalSeq s) ids /\
    nextLocalSeq s' = nextLocalSeq s + Z.of_nat (length ids) /\
    remote s' = remote s /\
    peerActiveConnIDLimit s' = peerActiveConnIDLimit s /\
    retireRemotePriorTo s' = retireRemotePriorTo s /\
    (err = None -> length ids = n /\ k' = (k + n)%nat) /\
    (err <> None ->
     err = Some errNewConnID /\ (length ids < n)%nat /\
     k' = S (k + length ids) /\
     newConnID (k + length ids)%nat (nextLocalSeq s + Z.of_nat (length ids)) = None).
Proof.
  induction n as [|n IH]; intros s k acc err s' k' out Hlo Hhi Hrun.
  - simpl in Hrun. injection Hrun as <- <- <- <-. exists [].
    rewrite !app_nil_r, Nat.add_0_r, Z.add_0_r. simpl.
    repeat split; auto; congruence.
  - simpl in Hrun.
    destruct (newConnID k (nextLocalSeq s)) as [id|] eqn:Hdraw.
    + apply IH in Hrun; simpl; try (rewrite wrap64_small; lia).
      destruct Hrun as (ids & Hout & Hloc & Hseq & Hrem & Hlim & Hrr & Hok & Herr).
      simpl in Hloc, Hseq, Hrem, Hlim, Hrr, Herr.
      rewrite wrap64_small in Hloc, Hseq, Herr by lia.
      exists (id :: ids). simpl length.
      split; [rewrite Hout, <- app_assoc; reflexivity|].
      split; [rewrite Hloc, <- app_assoc; reflexivity|].
      split; [lia|]. split; [assumption|]. split; [assumption|].
      split; [assumption|]. split.
      * intros He. destruct (Hok He) as [H1 H2]. split; lia.
      * intros He. destruct (Herr He) as (H1 & H2 & H3 & H4).
        split; [assumption|]. split; [lia|]. split; [lia|].
        rewrite <- H4. f_equal; lia.
    + injection Hrun as <- <- <- <-. exists [].
      rewrite !app_nil_r, Nat.add_0_r, Z.add_0_r. simpl.
      repeat split; auto; try congruence; lia.
Qed.

Lemma activeLocal_le_length l : activeLocal l <= Z.of_nat (length l).
Proof.
  unfold activeLocal. pose proof (filter_length_le countsAgainstLimit l). lia.
Qed.

(** [issueLocalIDs], however it ends. *)
Lemma issueLocalIDs_any maxPeer newConnID s c k err s' ups k' :
  0 <= nextLocalSeq s -> inRange maxPeer s ->
  issueLocalIDs maxPeer newConnID s c k = (err, s', ups, k') ->
  let n := Z.max 0 (Z.min (peerActiveConnIDLimit s) maxPeer
                    - activeLocal (local s)) in
  exists ids,
    Z.of_nat (length ids) <= n /\
    local s' = local s ++ issuedFrom (nextLocalSeq s) ids /\
    nextLocalSeq s' = nextLocalSeq s + Z.of_nat (length ids) /\
    remote s' = remote s /\
    peerActiveConnIDLimit s' = peerActiveConnIDLimit s /\
    retireRemotePriorTo s' = retireRemotePriorTo s /\
    (err = None ->
     Z.of_nat (length ids) = n /\ ups = [map (addConnID c) ids]) /\
    (err <> None ->
     err = Some errNewConnID /\ Z.of_nat (length ids) < n /\ ups = [] /\
     newConnID (k + length ids)%nat (nextLocalSeq s + Z.of_nat (length ids)) = None).
Proof.
  intros Hseq (Hlim & Hlo & Hhi) Hrun n.
  pose proof (activeLocal_le_length (local s)) as Hle.
  pose proof (activeLocal_nonneg (local s)) as Hge.
  unfold issueLocalIDs in Hrun. rewrite countDown_eq in Hrun by lia.
  fold n in Hrun.
  replace (Z.to_nat (Z.min (peerActiveConnIDLimit s) maxPeer - activeLocal (local s)))
    with (Z.to_nat n) in Hrun by lia.
  destruct (issueLoop newConnID (Z.to_nat n) s k []) as [[[e s1] k1] out] eqn:Hloop.
  apply issueLoop_any in Hloop; try lia.
  destruct Hloop as (ids & Hout & Hloc & Hnext & Hrem & Hpeer & Hrr & Hok & Herr).
  simpl in Hout. subst out. exists ids.
  destruct e as [e|].
  - injection Hrun as <- <- <- <-.
    destruct (Herr ltac:(discriminate)) as (H1 & H2 & H3 & H4).
    repeat split; auto; try discriminate; lia.
  - injection Hrun as <- <- <- <-.
    destruct (Hok eq_refl) as [H1 H2].
    repeat split; auto; try congruence; lia.
Qed.

Lemma serverLimit3_inRange : 0 <= nextLocalSeq serverLimit3 /\ inRange 4 serverLimit3.
Proof. unfold inRange. simpl. repeat split; try lia; reflexivity. Qed.

(** X6. When [newConnID] fails in [issueLocalIDs], the connection IDs
    drawn before the failure stay in [local], with their sequence numbers
    taken, but no closure is enqueued: they are never registered in the
    table. *)
Theorem issueLocalIDs_error_registers_nothing maxPeer newConnID s c k e s' ups k' :
  0 <= nextLocalSeq s -> inRange maxPeer s ->
  issueLocalIDs maxPeer newConnID s c k = (Some e, s', ups, k') ->
  e = errNewConnID /\ ups = [] /\
  exists ids,
    local s' = local s ++ issuedFrom (nextLocalSeq s) ids /\
    nextLocalSeq s' = nextLocalSeq s + Z.of_nat (length ids) /\
    Z.of_nat (length ids) <
      Z.min (peerActiveConnIDLimit s) maxPeer - activeLocal (local s) /\
    (forall (i : nat) id, ids !! i = Some id ->
       In (issued (nextLocalSeq s + Z.of_nat i) id) (local s')) /\
    newConnID (k + length ids)%nat (nextLocalSeq s + Z.of_nat (length ids)) = None.
Proof.
  intros Hseq Hrange Hrun.
  destruct (issueLocalIDs_any _ _ _ _ _ _ _ _ _ Hseq Hrange Hrun)
    as (ids & Hn & Hloc & Hnext & _ & _ & _ & _ & Herr).
  destruct (Herr ltac:(discriminate)) as (He & Hlt & Hups & Hfail).
  split; [congruence|]. split; [assumption|]. exists ids.
  split; [assumption|]. split; [assumption|]. split; [lia|].
  split; [|assumption].
  intros i id Hi. rewrite Hloc. apply in_or_app. right.
  clear - Hi. revert i Hi. generalize (nextLocalSeq s) as a.
  induction ids as [|id0 ids IH]; intros a [|i] Hi; simpl in Hi; try discriminate.
  - injection Hi as ->. left. f_equal. lia.
  - right. replace (a + Z.of_nat (S i)) with (a + 1 + Z.of_nat i) by lia.
    apply IH. exact Hi.
Qed.

Lemma issueLocalIDs_error_registers_nothing_witness :
  let r := issueLocalIDs 4 failSecond serverLimit3 conn7 0 in
  (0 <= nextLocalSeq serverLimit3 /\ inRange 4 serverLimit3 /\
   r = (Some errNewConnID, r.1.1.2, r.1.2, r.2)) /\
  errNewConnID = errNewConnID /\ r.1.2 = [] /\
  exists ids,
    local r.1.1.2 = local serverLimit3 ++ issuedFrom (nextLocalSeq serverLimit3) ids /\
    nextLocalSeq r.1.1.2 = nextLocalSeq serverLimit3 + Z.of_nat (length ids) /\
    Z.of_nat (length ids) <
      Z.min (peerActiveConnIDLimit serverLimit3) 4 - activeLocal (local serverLimit3) /\
    (forall (i : nat) id, ids !! i = Some id ->
       In (issued (nextLocalSeq serverLimit3 + Z.of_nat i) id) (local r.1.1.2)) /\
    failSecond (0 + length ids)%nat
               (nextLocalSeq serverLimit3 + Z.of_nat (length ids)) = None.
Proof.
  intros r. destruct serverLimit3_inRange as [H1 H2].
  assert (H3 : r = (Some errNewConnID, r.1.1.2, r.1.2, r.2)) by reflexivity.
  split; [auto|].
  exact (issueLocalIDs_error_registers_nothing 4 failSecond serverLimit3 conn7 0
           errNewConnID r.1.1.2 r.1.2 r.2 H1 H2 H3).
Defined.

(** X7. [issueLocalIDs] never issues beyond the limit: however it ends,
    the number of local connection IDs that are neither retired nor
    transient is afterwards at most the larger of what it was and
    [min peerActiveConnIDLimit maxPeerActiveConnIDLimit]; a state within
    the limit stays within it. *)
Theorem issueLocalIDs_within_limit maxPeer newConnID s c k err s' ups k' :
  0 <= nextLocalSeq s -> inRange maxPeer s ->
  issueLocalIDs maxPeer newConnID s c k = (err, s', ups, k') ->
  activeLocal (local s') <=
    Z.max (activeLocal (local s)) (Z.min (peerActiveConnIDLimit s) maxPeer) /\
  (activeLocal (local s) <= Z.min (peerActiveConnIDLimit s) maxPeer ->
   activeLocal (local s') <= Z.min (peerActiveConnIDLimit s') maxPeer).
Proof.
  intros Hseq Hrange Hrun.
  destruct (issueLocalIDs_any _ _ _ _ _ _ _ _ _ Hseq Hrange Hrun)
    as (ids & Hn & Hloc & _ & _ & Hpeer & _).
  rewrite Hloc, Hpeer, activeLocal_app, activeLocal_issuedFrom by lia.
  split; lia.
Qed.

Lemma issueLocalIDs_within_limit_witness :
  let r := issueLocalIDs 4 countingIDs serverLimit3 conn7 0 in
  (0 <= nextLocalSeq serverLimit3 /\ inRange 4 serverLimit3 /\
   r = (r.1.1.1, r.1.1.2, r.1.2, r.2)) /\
  activeLocal (local r.1.1.2) <=
    Z.max (activeLocal (local serverLimit3))
          (Z.min (peerActiveConnIDLimit serverLimit3) 4) /\
  (activeLocal (local serverLimit3) <= Z.min (peerActiveConnIDLimit serverLimit3) 4 ->
   activeLocal (local r.1.1.2) <= Z.min (peerActiveConnIDLimit r.1.1.2) 4).
Proof.
  intros r. destruct serverLimit3_inRange as [H1 H2].
  assert (H3 : r = (r.1.1.1, r.1.1.2, r.1.2, r.2)) by reflexivity.
  split; [auto|].
  exact (issueLocalIDs_within_limit 4 countingIDs serverLimit3 conn7 0
           r.1.1.1 r.1.1.2 r.1.2 r.2 H1 H2 H3).
Defined.

(** *** The order of the local sequence numbers *)

Lemma sorted_app (l1 l2 : list Z) :
  StronglySorted Z.lt l1 -> StronglySorted Z.lt l2 ->
  (forall x y, In x l1 -> In y l2 -> x < y) ->
  StronglySorted Z.lt (l1 ++ l2).
Proof.
  induction l1 as [|a l1 IH]; intros H1 H2 Hlt; simpl; [exact H2|].
  inversion H1 as [|? ? Hs Hall]; subst. constructor.
  - apply IH; auto. intros x y Hx Hy. apply Hlt; [right|]; assumption.
  - apply List.Forall_app. split; [exact Hall|].
    apply List.Forall_forall. intros y Hy. apply Hlt; [left; reflexivity | exact Hy].
Qed.

Lemma sorted_remove (l1 l2 : list Z) x :
  StronglySorted Z.lt (l1 ++ x :: l2) ->
  StronglySorted Z.lt (l1 ++ l2) /\ ~ In x (l1 ++ l2).
Proof.
  induction l1 as [|a l1 IH]; simpl; intros H;
    inversion H as [|? ? Hs Hall]; subst.
  - split; [exact Hs|]. intros Hin.
    rewrite List.Forall_forall in Hall. specialize (Hall x Hin). lia.
  - destruct (IH Hs) as [Hs' Hnot].
    apply List.Forall_app in Hall as [Ha1 Ha2].
    inversion Ha2 as [|? ? Hax Ha2']; subst. split.
    + constructor; [exact Hs'|]. apply List.Forall_app. auto.
    + intros [-> | Hin]; [lia | auto].
Qed.

Lemma issuedFrom_seqs ids : forall a,
  StronglySorted Z.lt (map seq (issuedFrom a ids)) /\
  Forall (fun e => a <= seq e < a + Z.of_nat (length ids)) (issuedFrom a ids).
Proof.
  induction ids as [|id ids IH]; intros a; simpl.
  - split; constructor.
  - destruct (IH (a + 1)) as [Hs Hall]. split.
    + constructor; [exact Hs|].
      apply List.Forall_forall. intros y Hy.
      apply in_map_iff in Hy as (e & <- & He).
      rewrite List.Forall_forall in Hall. specialize (Hall e He). lia.
    + constructor; [simpl; lia|].
      eapply List.Forall_impl; [|exact Hall]. simpl. intros e He. lia.
Qed.

Lemma localOrdered_issued s s' ids :
  localOrdered s ->
  local s' = local s ++ issuedFrom (nextLocalSeq s) ids ->
  nextLocalSeq s' = nextLocalSeq s + Z.of_nat (length ids) ->
  localOrdered s'.
Proof.
  intros (Hnext & Hs & Hall) Hloc Hseq. unfold localOrdered.
  rewrite Hloc, Hseq, map_app.
  destruct (issuedFrom_seqs ids (nextLocalSeq s)) as [Hs2 Hall2].
  rewrite List.Forall_forall in Hall, Hall2.
  split; [lia|]. split.
  - apply sorted_app; [exact Hs | exact Hs2 |].
    intros x y Hx Hy.
    apply in_map_iff in Hx as (e & <- & He). apply in_map_iff in Hy as (e' & <- & He').
    specialize (Hall e He). specialize (Hall2 e' He'). lia.
  - apply List.Forall_forall. intros e He. apply in_app_or in He as [He | He].
    + specialize (Hall e He). lia.
    + specialize (Hall2 e He). lia.
Qed.

(** X8. [issueLocalIDs] keeps the local sequence numbers in order: when
    they grow along [local] and are below [nextLocalSeq] before the call,
    they do so after it, however it ends. *)
Theorem issueLocalIDs_ordered maxPeer newConnID s c k err s' ups k' :
  localOrdered s -> inRange maxPeer s ->
  issueLocalIDs maxPeer newConnID s c k = (err, s', ups, k') ->
  localOrdered s'.
Proof.
  intros Hord Hrange Hrun.
  destruct (issueLocalIDs_any _ _ _ _ _ _ _ _ _ (proj1 Hord) Hrange Hrun)
    as (ids & _ & Hloc & Hnext & _).
  exact (localOrdered_issued s s' ids Hord Hloc Hnext).
Qed.

Lemma serverLimit3_ordered : localOrdered serverLimit3.
Proof.
  unfold localOrdered. simpl. split; [lia|]. split.
  - repeat constructor.
  - repeat constructor; simpl; lia.
Qed.

Lemma issueLocalIDs_ordered_witness :
  let r := issueLocalIDs 4 countingIDs serverLimit3 conn7 0 in
  (localOrdered serverLimit3 /\ inRange 4 serverLimit3 /\
   r = (r.1.1.1, r.1.1.2, r.1.2, r.2)) /\
  localOrdered r.1.1.2.
Proof.
  intros r. destruct serverLimit3_inRange as [_ H2].
  assert (H3 : r = (r.1.1.1, r.1.1.2, r.1.2, r.2)) by reflexivity.
  split; [split; [exact serverLimit3_ordered | auto]|].
  exact (issueLocalIDs_ordered 4 countingIDs serverLimit3 conn7 0
           r.1.1.1 r.1.1.2 r.1.2 r.2 serverLimit3_ordered H2 H3).
Defined.

(** X9. A sequence number that the peer retires is gone for good: when
    the local sequence numbers are in order, no local connection ID has
    the sequence number [seq] after [handleRetireConnID], whatever it
    returns, and the local sequence numbers are still in order. *)
Theorem handleRetireConnID_gone maxPeer newConnID s c k sq err s' ups k' :
  localOrdered s -> inRange maxPeer s ->
  handleRetireConnID maxPeer newConnID s c k sq = (err, s', ups, k') ->
  localOrdered s' /\ forall e, In e (local s') -> seq e <> sq.
Proof.
  intros Hord Hrange Hrun. unfold handleRetireConnID in Hrun.
  destruct (Z.geb_spec sq (nextLocalSeq s)) as [Hge|Hlt].
  - injection Hrun as <- <- <- <-. split; [exact Hord|].
    destruct Hord as (_ & _ & Hall). rewrite List.Forall_forall in Hall.
    intros e He. specialize (Hall e He). lia.
  - assert (Hstep : exists s1,
              localOrdered s1 /\ inRange maxPeer s1 /\
              nextLocalSeq s1 = nextLocalSeq s /\
              (forall e, In e (local s1) -> seq e <> sq) /\
              exists ups1,
                match findSeq (local s) sq with
                | Some i =>
                    (set_local (take i (local s) ++ drop (S i) (local s)) s,
                     [[retireConnID c (cid (nth i (local s) (mkConnID 0 [])))]])
                | None => (s, [])
                end = (s1, ups1)).
    { destruct (findSeq (local s) sq) as [i|] eqn:Hfind.
      - apply findSeq_Some in Hfind as (l1 & e & l2 & Hl & Hlen & Hseq & Hall1).
        assert (Hcut : take i (local s) ++ drop (S i) (local s) = l1 ++ l2).
        { rewrite Hl, <- Hlen, take_app_length.
          change (l1 ++ e :: l2) with (l1 ++ [e] ++ l2). rewrite app_assoc.
          replace (S (length l1)) with (length (l1 ++ [e]))
            by (rewrite length_app; simpl; lia).
          rewrite drop_app_length. reflexivity. }
        rewrite Hcut. eexists. split; [|split; [|split; [|split; [|eauto]]]].
        + destruct Hord as (Hn & Hs & Hall). unfold localOrdered. simpl.
          rewrite Hl, map_app in Hs. simpl in Hs.
          apply sorted_remove in Hs as [Hs _]. rewrite <- map_app in Hs.
          split; [exact Hn|]. split; [exact Hs|].
          rewrite Hl in Hall. apply List.Forall_app in Hall as [Ha1 Ha2].
          inversion Ha2; subst. apply List.Forall_app. auto.
        + destruct Hrange as (H1 & H2 & H3). unfold inRange. simpl.
          rewrite Hl in H2. rewrite !length_app in *. simpl in H2.
          repeat split; try assumption; lia.
        + reflexivity.
        + destruct Hord as (_ & Hs & _). simpl.
          rewrite Hl, map_app in Hs. simpl in Hs.
          apply sorted_remove in Hs as [_ Hnot]. rewrite <- map_app in Hnot.
          intros e' He' Heq. apply Hnot. rewrite Hseq, <- Heq.
          apply in_map. exact He'.
      - apply findSeq_None in Hfind. exists s.
        split; [exact Hord|]. split; [exact Hrange|]. split; [reflexivity|].
        split; [|eauto]. rewrite List.Forall_forall in Hfind. exact Hfind. }
    destruct Hstep as (s1 & Hord1 & Hrange1 & Hnext1 & Hgone1 & ups1 & Heq).
    rewrite Heq in Hrun.
    destruct (issueLocalIDs maxPeer newConnID s1 c k) as [[[e1 s2] ups2] k2] eqn:Hissue.
    injection Hrun as <- <- <- <-.
    destruct (issueLocalIDs_any _ _ _ _ _ _ _ _ _ (proj1 Hord1) Hrange1 Hissue)
      as (ids & _ & Hloc & Hnext & _).
    split; [exact (localOrdered_issued s1 s2 ids Hord1 Hloc Hnext)|].
    intros e He. rewrite Hloc in He. apply in_app_or in He as [He | He].
    + apply Hgone1. exact He.
    + destruct (issuedFrom_seqs ids (nextLocalSeq s1)) as [_ Hall].
      rewrite List.Forall_forall in Hall. specialize (Hall e He). lia.
Qed.

Lemma handleRetireConnID_gone_witness :
  let r := handleRetireConnID 4 countingIDs serverLimit3 conn7 0 0 in
  (localOrdered serverLimit3 /\ inRange 4 serverLimit3 /\
   r = (r.1.1.1, r.1.1.2, r.1.2, r.2)) /\
  localOrdered r.1.1.2 /\ forall e, In e (local r.1.1.2) -> seq e <> 0.
Proof.
  intros r. destruct serverLimit3_inRange as [_ H2].
  assert (H3 : r = (r.1.1.1, r.1.1.2, r.1.2, r.2)) by reflexivity.
  split; [split; [exact serverLimit3_ordered | auto]|].
  exact (handleRetireConnID_gone 4 countingIDs serverLimit3 conn7 0 0
           r.1.1.1 r.1.1.2 r.1.2 r.2 serverLimit3_ordered H2 H3).
Defined.

(** *** The handshake *)

(** X10. A server and the transient connection ID. After [initServer] on
    a state without local connection IDs, [srcConnID] is the connection ID
    the server has drawn, not the transient one of the client. The first
    Handshake packet takes the transient one out of [local] and enqueues
    its removal from the table; [srcConnID] stays what it was, and a
    further Handshake packet changes nothing. When the two connection IDs
    differ, the server's one leads to the connection after the update
    round and the transient one leads nowhere. *)
Theorem server_transient_connID newConnID s c k dst s1 ups k' src m :
  local s = [] ->
  initServer newConnID s c k dst = (None, s1, ups, k') ->
  exists locid,
    newConnID k 0 = Some locid /\
    srcConnID s1 = Some locid /\
    let r := handlePacket s1 c Listener.serverSide Listener.packetTypeHandshake src in
    local r.1 = [mkConnID 0 locid] /\
    r.2 = [[retireConnID c dst]] /\
    srcConnID r.1 = Some locid /\
    handlePacket r.1 c Listener.serverSide Listener.packetTypeHandshake src = (r.1, []) /\
    (dst <> locid ->
     Listener.byConnID (afterUpdates m (ups ++ r.2)) !! locid = Some c /\
     Listener.byConnID (afterUpdates m (ups ++ r.2)) !! dst = None).
Proof.
  intros Hloc Hrun. unfold initServer in Hrun. rewrite Hloc in Hrun.
  destruct (newConnID k 0) as [locid|] eqn:Hdraw; [|discriminate].
  injection Hrun as <- <- <-. exists locid. split; [reflexivity|].
  split; [reflexivity|]. cbv zeta.
  do 4 (split; [reflexivity|]).
  match goal with
  | |- context [(handlePacket ?a ?b ?d ?e ?f).2] =>
      change ((handlePacket a b d e f).2) with [[retireConnID c dst]]
  end.
  intros Hne.
  match goal with
  | |- context [afterUpdates m ?u] =>
      destruct (afterUpdates_maps m u) as (Hids & _); rewrite Hids
  end.
  simpl concat. rewrite !idsAfter_app. unfold idsAfter at 1 3. simpl.
  split.
  - rewrite lookup_delete_ne by exact Hne. apply lookup_insert_eq.
  - apply lookup_delete_eq.
Qed.

Lemma server_transient_connID_witness :
  let r0 := initServer countingIDs zeroState conn7 0 cidA in
  (local zeroState = [] /\ r0 = (None, r0.1.1.2, r0.1.2, r0.2)) /\
  exists locid,
    countingIDs 0 0 = Some locid /\
    srcConnID r0.1.1.2 = Some locid /\
    let r := handlePacket r0.1.1.2 conn7 Listener.serverSide
                          Listener.packetTypeHandshake cidB in
    local r.1 = [mkConnID 0 locid] /\
    r.2 = [[retireConnID conn7 cidA]] /\
    srcConnID r.1 = Some locid /\
    handlePacket r.1 conn7 Listener.serverSide Listener.packetTypeHandshake cidB
      = (r.1, []) /\
    (cidA <> locid ->
     Listener.byConnID (afterUpdates tableAB (r0.1.2 ++ r.2)) !! locid = Some conn7 /\
     Listener.byConnID (afterUpdates tableAB (r0.1.2 ++ r.2)) !! cidA = None).
Proof.
  intros r0.
  assert (H : r0 = (None, r0.1.1.2, r0.1.2, r0.2)) by reflexivity.
  split; [split; [reflexivity | exact H]|].
  exact (server_transient_connID countingIDs zeroState conn7 0 cidA
           r0.1.1.2 r0.1.2 r0.2 cidB tableAB eq_refl H).
Defined.

(** X11. [initClient] and [initServer] on a state without connection IDs
    leave the local sequence numbers in order, whether they fail or not,
    and [handlePacket] keeps them in order. *)
Theorem handshake_ordered newConnID s c k :
  (local s = [] -> 0 <= nextLocalSeq s ->
   (forall dst, localOrdered (initServer newConnID s c k dst).1.1.2) /\
   localOrdered (initClient newConnID s c k).1.1.2) /\
  (localOrdered s ->
   forall side ptype src, localOrdered (handlePacket s c side ptype src).1).
Proof.
  split.
  - intros Hloc Hnext. split.
    + intros dst. unfold initServer. rewrite Hloc.
      destruct (newConnID k 0); unfold localOrdered; simpl.
      * split; [lia|]. split; repeat constructor; simpl; lia.
      * split; [lia|]. split; repeat constructor; simpl; lia.
    + unfold initClient. rewrite Hloc.
      destruct (newConnID k 0); [destruct (newConnID (S k) (-1))|];
        unfold localOrdered; simpl; try rewrite Hloc;
        (split; [lia|]); split; repeat constructor; simpl; lia.
  - intros Hord side ptype src. unfold handlePacket.
    destruct ptype, side; simpl; try exact Hord.
    + destruct (remote s) as [|r0 [|r1 rest]]; simpl; try exact Hord.
      destruct (seq r0 =? -1); exact Hord.
    + destruct (remote s); exact Hord.
    + destruct (local s) as [|e0 rest] eqn:Hl; [exact Hord|].
      destruct ((seq e0 =? -1) && negb (retired e0)); [|exact Hord].
      destruct Hord as (Hn & Hs & Hall). rewrite Hl in Hs, Hall.
      unfold localOrdered. simpl. simpl in Hs.
      inversion Hs; subst. inversion Hall; subst. auto.
Qed.

Lemma bytes_Equal_true a b : bytes_Equal a b = true <-> a = b.
Proof. unfold bytes_Equal. apply bool_decide_eq_true. Qed.

Lemma bytes_Equal_refl a : bytes_Equal a a = true.
Proof. apply bytes_Equal_true. reflexivity. Qed.

Lemma validate_past_checks s c side isRetry p :
  paramsMatch s p ->
  exists (r0 : remoteConnID) rest,
    remote s = r0 :: rest /\
    validateTransportParameters s c side isRetry p =
    let s2 := set_retrySrcConnID [] (set_originalDstConnID [] s) in
    if (0 <? length (p_statelessResetToken p))%nat then
      match side with
      | Listener.serverSide =>
          Some (Some (localTransportError errTransportParameter), s2, [])
      | Listener.clientSide =>
          if (length (p_statelessResetToken p) <? 16)%nat then None
          else
            let token := take 16 (p_statelessResetToken p) in
            Some (None, set_remote (set_resetToken token r0 :: rest) s2,
                  [[addResetToken c token]])
      end
    else Some (None, s2, []).
Proof.
  intros (Ho & Hr & r0 & rest & Hrem & Hseq & Hi).
  exists r0, rest. split; [exact Hrem|].
  unfold validateTransportParameters. rewrite Ho, bytes_Equal_refl. simpl negb.
  cbv iota. simpl retrySrcConnID. rewrite Hr, bytes_Equal_refl. simpl negb.
  cbv iota. simpl remote. rewrite Hrem, Hseq, Hi, bytes_Equal_refl. reflexivity.
Qed.

Lemma validate_not_past_checks s c side isRetry p :
  ~ paramsMatch s p ->
  exists e s', validateTransportParameters s c side isRetry p = Some (Some e, s', []).
Proof.
  intros Hnot. unfold validateTransportParameters.
  destruct (bytes_Equal (originalDstConnID s) (p_originalDstConnID p)) eqn:Ho;
    simpl; [|eauto].
  destruct (bytes_Equal (p_retrySrcConnID p) (retrySrcConnID s)) eqn:Hr;
    simpl; [|eauto].
  destruct (remote s) as [|r0 rest] eqn:Hrem; [eauto|].
  destruct (Z.eqb_spec (seq r0) 0) as [Hseq|Hseq]; simpl; [|eauto].
  destruct (bytes_Equal (p_initialSrcConnID p) (cid r0)) eqn:Hi; simpl; [|eauto].
  exfalso. apply Hnot.
  apply bytes_Equal_true in Ho, Hr, Hi. unfold paramsMatch. eauto 10.
Qed.

Lemma classic_paramsMatch s p : paramsMatch s p \/ ~ paramsMatch s p.
Proof.
  unfold paramsMatch.
  destruct (decide (originalDstConnID s = p_originalDstConnID p)) as [Ho|Ho];
    [|right; tauto].
  destruct (decide (p_retrySrcConnID p = retrySrcConnID s)) as [Hr|Hr];
    [|right; tauto].
  destruct (remote s) as [|r0 rest];
    [right; intros (_ & _ & ? & ? & H & _); discriminate|].
  destruct (decide (seq r0 = 0)) as [Hs|Hs];
    [|right; intros (_ & _ & ? & ? & H & ? & _); congruence].
  destruct (decide (p_initialSrcConnID p = cid r0)) as [Hi|Hi];
    [|right; intros (_ & _ & ? & ? & H & _ & ?); congruence].
  left. eauto 10.
Qed.


(** What a client enqueues when it accepts transport parameters with a
    reset token. *)
Lemma validate_token_ups s c side isRetry p s' ups :
  validateTransportParameters s c side isRetry p = Some (None, s', ups) ->
  p_statelessResetToken p <> [] ->
  ups = [[addResetToken c (take 16 (p_statelessResetToken p))]].
Proof.
  intros Hrun Hne.
  destruct (classic_paramsMatch s p) as [Hm | Hm];
    [|destruct (validate_not_past_checks s c side isRetry p Hm) as (e & s0 & H);
      congruence].
  destruct (validate_past_checks s c side isRetry p Hm) as (r0 & rest & Hrem & Heq).
  rewrite Heq in Hrun. cbv zeta in Hrun.
  destruct (p_statelessResetToken p) as [|x tok] eqn:Htok; [contradiction|].
  change (0 <? length (x :: tok))%nat with true in Hrun. cbv iota in Hrun.
  destruct side; [|discriminate].
  destruct (length (x :: tok) <? 16)%nat; [discriminate|].
  injection Hrun as <- <-. reflexivity.
Qed.

(** X12. [validateTransportParameters] accepts the parameters exactly when
    they name the connection IDs the state expects (the original
    destination connection ID, the source connection ID of the Retry
    packet, and as initial source connection ID the first remote one,
    which must have the sequence number 0) and either carry no reset token
    or, on the client, one of at least 16 bytes. A server never accepts a
    reset token. On the client a token of 1 to 15 bytes that comes with
    matching connection IDs makes the call panic, and nothing else
    does. *)
Theorem validateTransportParameters_accepts s c side isRetry p :
  ((exists s' ups,
      validateTransportParameters s c side isRetry p = Some (None, s', ups)) <->
   paramsMatch s p /\
   (p_statelessResetToken p = [] \/
    side = Listener.clientSide /\ (16 <= length (p_statelessResetToken p))%nat)) /\
  (validateTransportParameters s c side isRetry p = None <->
   paramsMatch s p /\ side = Listener.clientSide /\
   (0 < length (p_statelessResetToken p) < 16)%nat).
Proof.
  destruct (classic_paramsMatch s p) as [Hm | Hm].
  - destruct (validate_past_checks s c side isRetry p Hm) as (r0 & rest & _ & ->).
    cbv zeta. destruct (p_statelessResetToken p) as [|x tok] eqn:Htok.
    + simpl. split.
      * split; [intros _; auto | eauto].
      * split; [discriminate | intros (_ & _ & H); simpl in H; lia].
    + change (0 <? length (x :: tok))%nat with true. cbv iota.
      destruct side.
      * destruct (Nat.ltb_spec (length (x :: tok)) 16) as [Hlt | Hge]; split.
        -- split; [intros (? & ? & H); discriminate|].
           intros (_ & [H | [_ H]]); [discriminate | lia].
        -- split; [intros _ | reflexivity].
           split; [exact Hm|]. split; [reflexivity|]. simpl in *. lia.
        -- split; [intros _ | eauto]. split; [exact Hm|]. right. auto.
        -- split; [discriminate | intros (_ & _ & H); lia].
      * split.
        -- split; [intros (? & ? & H); discriminate|].
           intros (_ & [H | [H _]]); discriminate.
        -- split; [discriminate | intros (_ & H & _); discriminate].
  - destruct (validate_not_past_checks s c side isRetry p Hm) as (e & s' & ->).
    split.
    + split; [intros (? & ? & H); discriminate | tauto].
    + split; [discriminate | tauto].
Qed.

Lemma tokensAfter_added (c : Conn) (t : list Z) (ops : list mapOp)
    (tokens : gmap (list Z) Conn) :
  tokensAfter (ops ++ [addResetToken c t]) tokens !! t = Some c.
Proof.
  rewrite tokensAfter_app. unfold tokensAfter at 1. simpl.
  apply lookup_insert_eq.
Qed.

(** X13. What an accepted call of [validateTransportParameters] leaves:
    the two expected connection IDs are cleared, the local connection IDs
    and the answer of [dstConnID] are as before; without a reset token
    nothing else changes and nothing is enqueued; with one, its first 16
    bytes are registered for the connection after the next update round
    and, when the first remote connection ID is in use, they are the
    token that [isValidStatelessResetToken] accepts. *)
Theorem validateTransportParameters_installs s c side isRetry p s' ups :
  validateTransportParameters s c side isRetry p = Some (None, s', ups) ->
  originalDstConnID s' = [] /\ retrySrcConnID s' = [] /\
  local s' = local s /\ dstConnID s' = dstConnID s /\
  (p_statelessResetToken p = [] -> remote s' = remote s /\ ups = []) /\
  (p_statelessResetToken p <> [] ->
   let token := take 16 (p_statelessResetToken p) in
   ups = [[addResetToken c token]] /\
   (forall m, Listener.byResetToken (afterUpdates m ups) !! token = Some c) /\
   ((exists (r0 : remoteConnID) rest, remote s = r0 :: rest /\ retired r0 = false) ->
    isValidStatelessResetToken s' token = true)).
Proof.
  intros Hrun.
  destruct (classic_paramsMatch s p) as [Hm | Hm];
    [|destruct (validate_not_past_checks s c side isRetry p Hm) as (e & s0 & H);
      congruence].
  destruct (validate_past_checks s c side isRetry p Hm) as (r0 & rest & Hrem & Heq).
  rewrite Heq in Hrun. cbv zeta in Hrun.
  destruct (p_statelessResetToken p) as [|x tok] eqn:Htok.
  - simpl in Hrun. injection Hrun as <- <-. simpl.
    repeat split; auto; congruence.
  - change (0 <? length (x :: tok))%nat with true in Hrun. cbv iota in Hrun.
    destruct side; [|discriminate].
    destruct (length (x :: tok) <? 16)%nat; [discriminate|].
    injection Hrun as <- <-.
    split; [reflexivity|]. split; [reflexivity|]. split; [reflexivity|].
    split; [|split; [discriminate|]].
    + unfold dstConnID. simpl. rewrite Hrem. simpl.
      destruct (retired r0); reflexivity.
    + intros _. cbv zeta. split; [reflexivity|]. split.
      * intros m.
        match goal with
        | |- context [afterUpdates m ?u] =>
            destruct (afterUpdates_maps m u) as (_ & Htokens & _);
            rewrite Htokens
        end.
        simpl concat. apply tokensAfter_added.
      * intros (r0' & rest' & Hrem' & Hact).
        assert (r0' = r0) by congruence. subst r0'.
        unfold isValidStatelessResetToken. simpl. rewrite Hact.
        apply bool_decide_eq_true. reflexivity.
Qed.

Lemma validateTransportParameters_installs_witness :
  let s := (handlePacket clientStart conn7 Listener.clientSide
                         Listener.packetTypeInitial cidB).1 in
  let p := serverParams tokenB in
  let r := validateTransportParameters s conn7 Listener.clientSide false p in
  exists s' ups,
    r = Some (None, s', ups) /\
    originalDstConnID s' = [] /\ retrySrcConnID s' = [] /\
    local s' = local s /\ dstConnID s' = dstConnID s /\
    (p_statelessResetToken p = [] -> remote s' = remote s /\ ups = []) /\
    (p_statelessResetToken p <> [] ->
     let token := take 16 (p_statelessResetToken p) in
     ups = [[addResetToken conn7 token]] /\
     (forall m, Listener.byResetToken (afterUpdates m ups) !! token = Some conn7) /\
     ((exists (r0 : remoteConnID) rest, remote s = r0 :: rest /\ retired r0 = false) ->
      isValidStatelessResetToken s' token = true)).
Proof.
  intros s p r. eexists _, _.
  assert (H : r = Some (None, _, _)) by reflexivity.
  split; [exact H|].
  exact (validateTransportParameters_installs s conn7 Listener.clientSide false p
           _ _ H).
Defined.

(** X14. The connection IDs of a client's handshake. After [initClient]
    on a state without connection IDs, [srcConnID] is the connection ID
    drawn first and [dstConnID] the transient one drawn second. A Retry
    packet, if there is one, makes its source connection ID the
    destination. The first Initial packet of the server then makes the
    source connection ID of that packet the destination, and transport
    parameters without reset token are accepted exactly when they name the
    transient connection ID as original destination, the source of the
    Retry packet (none without one) as retry source, and the source of the
    Initial packet as initial source. *)
Theorem client_handshake newConnID s c k s1 ups k' :
  local s = [] -> remote s = [] -> retrySrcConnID s = [] ->
  initClient newConnID s c k = (None, s1, ups, k') ->
  exists locid remid,
    newConnID k 0 = Some locid /\ newConnID (S k) (-1) = Some remid /\
    ups = [[addConnID c locid]] /\
    srcConnID s1 = Some locid /\ dstConnID s1 = Some remid /\
    (forall src isRetry p, p_statelessResetToken p = [] ->
       let s2 := (handlePacket s1 c Listener.clientSide
                               Listener.packetTypeInitial src).1 in
       dstConnID s2 = Some src /\
       ((exists s3, validateTransportParameters s2 c Listener.clientSide isRetry p
                    = Some (None, s3, [])) <->
        p_originalDstConnID p = remid /\ p_retrySrcConnID p = [] /\
        p_initialSrcConnID p = src)) /\
    (forall rsrc src isRetry p, p_statelessResetToken p = [] ->
       exists s2,
         handleRetryPacket s1 rsrc = Some s2 /\ dstConnID s2 = Some rsrc /\
         let s3 := (handlePacket s2 c Listener.clientSide
                                 Listener.packetTypeInitial src).1 in
         dstConnID s3 = Some src /\
         ((exists s4, validateTransportParameters s3 c Listener.clientSide isRetry p
                      = Some (None, s4, [])) <->
          p_originalDstConnID p = remid /\ p_retrySrcConnID p = rsrc /\
          p_initialSrcConnID p = src)).
Proof.
  intros Hloc Hrem Hretry Hrun. unfold initClient in Hrun.
  destruct (newConnID k 0) as [locid|] eqn:Hd1; [|discriminate].
  destruct (newConnID (S k) (-1)) as [remid|] eqn:Hd2; [|discriminate].
  injection Hrun as <- <- <-. exists locid, remid.
  split; [reflexivity|]. split; [reflexivity|]. split; [reflexivity|].
  split; [unfold srcConnID; simpl; rewrite Hloc; reflexivity|].
  split; [unfold dstConnID; simpl; rewrite Hrem; reflexivity|].
  assert (Hacc : forall st isRetry p, p_statelessResetToken p = [] ->
            ((exists s3, validateTransportParameters st c Listener.clientSide
                           isRetry p = Some (None, s3, [])) <->
             paramsMatch st p)).
  { intros st isRetry p Htok.
    split.
    - intros (s3 & H).
      destruct (classic_paramsMatch st p) as [Hm | Hm]; [exact Hm|].
      destruct (validate_not_past_checks st c Listener.clientSide isRetry p Hm)
        as (e & s0 & H').
      congruence.
    - intros Hm. destruct (validate_past_checks st c Listener.clientSide isRetry p Hm)
        as (r0 & rest & _ & ->). rewrite Htok. simpl. eauto. }
  split.
  - intros src isRetry p Htok. cbv zeta.
    unfold handlePacket. simpl remote. rewrite Hrem. simpl.
    split; [reflexivity|]. rewrite (Hacc _ isRetry p Htok).
    unfold paramsMatch. simpl. rewrite Hretry. split.
    + intros (H1 & H2 & r0 & rest & H3 & _ & H4). injection H3 as <- <-. auto.
    + intros (H1 & H2 & H3). repeat split; auto. eexists _, _.
      split; [reflexivity|]. auto.
  - intros rsrc src isRetry p Htok.
    unfold handleRetryPacket. simpl remote. rewrite Hrem. simpl.
    eexists. split; [reflexivity|]. split; [reflexivity|].
    split; [reflexivity|]. rewrite (Hacc _ isRetry p Htok).
    unfold paramsMatch. simpl. split.
    + intros (H1 & H2 & r0 & rest & H3 & _ & H4). injection H3 as <- <-. auto.
    + intros (H1 & H2 & H3). repeat split; auto. eexists _, _.
      split; [reflexivity|]. auto.
Qed.

Lemma client_handshake_witness :
  let r0 := initClient countingIDs zeroState conn7 0 in
  (local zeroState = [] /\ remote zeroState = [] /\ retrySrcConnID zeroState = [] /\
   r0 = (None, clientStart, r0.1.2, r0.2)) /\
  exists locid remid,
    countingIDs 0 0 = Some locid /\ countingIDs 1 (-1) = Some remid /\
    r0.1.2 = [[addConnID conn7 locid]] /\
    srcConnID clientStart = Some locid /\ dstConnID clientStart = Some remid /\
    (forall src isRetry p, p_statelessResetToken p = [] ->
       let s2 := (handlePacket clientStart conn7 Listener.clientSide
                               Listener.packetTypeInitial src).1 in
       dstConnID s2 = Some src /\
       ((exists s3, validateTransportParameters s2 conn7 Listener.clientSide isRetry p
                    = Some (None, s3, [])) <->
        p_originalDstConnID p = remid /\ p_retrySrcConnID p = [] /\
        p_initialSrcConnID p = src)) /\
    (forall rsrc src isRetry p, p_statelessResetToken p = [] ->
       exists s2,
         handleRetryPacket clientStart rsrc = Some s2 /\ dstConnID s2 = Some rsrc /\
         let s3 := (handlePacket s2 conn7 Listener.clientSide
                                 Listener.packetTypeInitial src).1 in
         dstConnID s3 = Some src /\
         ((exists s4, validateTransportParameters s3 conn7 Listener.clientSide isRetry p
                      = Some (None, s4, [])) <->
          p_originalDstConnID p = remid /\ p_retrySrcConnID p = rsrc /\
          p_initialSrcConnID p = src)).
Proof.
  intros r0.
  assert (H : r0 = (None, clientStart, r0.1.2, r0.2)) by reflexivity.
  split; [repeat split; exact H|].
  exact (client_handshake countingIDs zeroState conn7 0 clientStart r0.1.2 r0.2
           eq_refl eq_refl eq_refl H).
Defined.

(** *** Acknowledged and lost frames *)

Lemma ackOrLossRemote_inUse ackOrLoss pnum sq fate l :
  fate = packetLost \/
  (forall r : remoteConnID, In r l -> seq r = sq -> retired r = true) ->
  let l' := (ackOrLossRemote ackOrLoss l pnum sq fate).1 in
  (fun r : remoteConnID => (cid r, resetToken r)) <$> firstActive l' =
  (fun r : remoteConnID => (cid r, resetToken r)) <$> firstActive l /\
  activeRemote l' = activeRemote l.
Proof.
  intros Hpre. cbv zeta. induction l as [|r l IH]; simpl; [auto|].
  destruct (Z.eqb_spec (seq r) sq) as [Heq | Hne]; simpl.
  - destruct fate; simpl.
    + destruct Hpre as [Hpre | Hpre]; [discriminate|].
      rewrite activeRemote_cons, (Hpre r (or_introl eq_refl) Heq). auto.
    + rewrite !activeRemote_cons. simpl. destruct (retired r); auto.
  - destruct (ackOrLossRemote ackOrLoss l pnum sq fate) as [l' ns] eqn:Hrec.
    simpl in *. rewrite !activeRemote_cons.
    destruct IH as [IH1 IH2].
    { destruct Hpre as [Hpre | Hpre]; [auto | right].
      intros x Hx. apply Hpre. right. exact Hx. }
    rewrite IH2. destruct (retired r); auto.
Qed.

Lemma ackOrLossRemote_shape ackOrLoss pnum sq fate l :
  let r := ackOrLossRemote ackOrLoss l pnum sq fate in
  match fate with
  | packetAcked =>
      r.2 = false /\
      length r.1 = (length l - (if hasSeq sq l then 1 else 0))%nat
  | packetLost =>
      r.2 = hasSeq sq l /\
      map (fun x : remoteConnID => (seq x, cid x, retired x, resetToken x)) r.1 =
      map (fun x : remoteConnID => (seq x, cid x, retired x, resetToken x)) l
  end.
Proof.
  cbv zeta. unfold hasSeq. induction l as [|x l IH]; simpl.
  - destruct fate; auto.
  - destruct (Z.eqb_spec (seq x) sq) as [Heq | Hne]; simpl.
    + destruct fate; simpl; [split; [reflexivity | lia] | auto].
    + destruct (ackOrLossRemote ackOrLoss l pnum sq fate) as [l' ns]. simpl in *.
      destruct fate; destruct IH as [-> IH]; simpl; (split; [reflexivity|]).
      * rewrite IH. destruct (existsb _ l) eqn:Hex; [|lia].
        destruct l; [discriminate | simpl; lia].
      * rewrite IH. reflexivity.
Qed.

(** What [ackOrLossRetireConnectionID] does to [remote]: nothing when no
    entry has the sequence number; otherwise it stops at the first entry
    that has it, which it cuts out on an acknowledgement and whose send
    state it updates on a loss. *)
Lemma ackOrLossRemote_split ackOrLoss pnum sq fate l :
  (hasSeq sq l = false /\ ackOrLossRemote ackOrLoss l pnum sq fate = (l, false)) \/
  (exists l1 (x : remoteConnID) l2,
     l = l1 ++ x :: l2 /\ seq x = sq /\
     Forall (fun y : remoteConnID => seq y <> sq) l1 /\
     ackOrLossRemote ackOrLoss l pnum sq fate =
       match fate with
       | packetAcked => (l1 ++ l2, false)
       | packetLost =>
           (l1 ++ set_remote_send (ackOrLoss (send x) pnum fate) x :: l2, true)
       end).
Proof.
  unfold hasSeq. induction l as [|y l IH]; simpl; [left; auto|].
  destruct (Z.eqb_spec (seq y) sq) as [Heq | Hne]; simpl.
  - right. exists [], y, l. split; [reflexivity|]. split; [exact Heq|].
    split; [constructor|]. destruct fate; reflexivity.
  - destruct IH as [[Hno ->] | (l1 & x & l2 & -> & Hx & Hall & ->)].
    + left. auto.
    + right. exists (y :: l1), x, l2. split; [reflexivity|]. split; [exact Hx|].
      split; [constructor; assumption|]. destruct fate; reflexivity.
Qed.

(** X15. [ackOrLossRetireConnectionID] does not change which remote
    connection ID is in use. When the frame is lost, or when every remote
    connection ID with the sequence number is retired (as each one is for
    which a RETIRE_CONNECTION_ID frame was sent), the answers of
    [dstConnID] and of [isValidStatelessResetToken] and the number of
    remote connection IDs in use are as before. When no remote connection
    ID has the sequence number, [remote] and [needSend] are as before.
    Otherwise, on an acknowledgement the first entry with the sequence
    number is cut out of [remote], the entries before and behind it stay
    as and where they are, and [needSend] is left alone; on a loss every
    entry keeps its place, only the send state of that first entry is
    updated, and [needSend] is set. *)
Theorem ackOrLossRetireConnectionID_keeps_dst ackOrLoss s pnum sq fate :
  let s' := ackOrLossRetireConnectionID ackOrLoss s pnum sq fate in
  (fate = packetLost \/
   (forall r : remoteConnID, In r (remote s) -> seq r = sq -> retired r = true) ->
   dstConnID s' = dstConnID s /\
   (forall token, isValidStatelessResetToken s' token =
                  isValidStatelessResetToken s token) /\
   activeRemote (remote s') = activeRemote (remote s)) /\
  local s' = local s /\
  (fate = packetAcked ->
   needSend s' = needSend s /\
   length (remote s') =
     (length (remote s) - (if hasSeq sq (remote s) then 1 else 0))%nat) /\
  (fate = packetLost ->
   needSend s' = needSend s || hasSeq sq (remote s) /\
   length (remote s') = length (remote s)) /\
  ((hasSeq sq (remote s) = false /\
    remote s' = remote s /\ needSend s' = needSend s) \/
   (exists l1 (x : remoteConnID) l2,
      remote s = l1 ++ x :: l2 /\ seq x = sq /\
      Forall (fun y : remoteConnID => seq y <> sq) l1 /\
      match fate with
      | packetAcked => remote s' = l1 ++ l2 /\ needSend s' = needSend s
      | packetLost =>
          remote s' =
            l1 ++ set_remote_send (ackOrLoss (send x) pnum packetLost) x :: l2 /\
          needSend s' = true
      end)).
Proof.
  cbv zeta. unfold ackOrLossRetireConnectionID.
  pose proof (ackOrLossRemote_shape ackOrLoss pnum sq fate (remote s)) as Hshape.
  pose proof (ackOrLossRemote_inUse ackOrLoss pnum sq fate (remote s)) as Huse.
  pose proof (ackOrLossRemote_split ackOrLoss pnum sq fate (remote s)) as Hsplit.
  cbv zeta in Hshape, Huse.
  destruct (ackOrLossRemote ackOrLoss (remote s) pnum sq fate) as [l' ns].
  simpl in Hshape, Huse.
  assert (Hrem : remote (if ns then set_needSend true (set_remote l' s)
                         else set_remote l' s) = l')
    by (destruct ns; reflexivity).
  split; [|split; [destruct ns; reflexivity | split; [|split]]].
  - intros Hpre. destruct (Huse Hpre) as [Hfirst Hact].
    unfold dstConnID, isValidStatelessResetToken. rewrite Hrem.
    destruct (firstActive l') as [r'|], (firstActive (remote s)) as [r|];
      simpl in Hfirst; try discriminate.
    + injection Hfirst as -> ->. auto.
    + auto.
  - intros ->. destruct Hshape as [-> Hlen]. simpl. auto.
  - intros ->. destruct Hshape as [-> Hmap]. split.
    + destruct (hasSeq sq (remote s)); simpl; [|rewrite orb_false_r; reflexivity].
      rewrite orb_true_r. reflexivity.
    + rewrite Hrem. apply (f_equal (@length _)) in Hmap.
      rewrite !length_map in Hmap. exact Hmap.
  - destruct Hsplit as [[Hno Heq] | (l1 & x & l2 & Hl & Hx & Hall & Heq)].
    + left. injection Heq as -> ->. simpl. auto.
    + right. exists l1, x, l2. split; [exact Hl|]. split; [exact Hx|].
      split; [exact Hall|]. destruct fate; injection Heq as -> ->; simpl; auto.
Qed.

(** *** Local connection IDs and the table *)

Lemma In_issuedFrom e ids : forall a, In e (issuedFrom a ids) -> In (cid e) ids.
Proof.
  induction ids as [|id ids IH]; intros a; simpl; [auto|].
  intros [<- | H]; [left; reflexivity | right; eauto].
Qed.

Lemma map_cid_issuedFrom ids : forall a, map cid (issuedFrom a ids) = ids.
Proof.
  induction ids as [|id ids IH]; intros a; simpl; [reflexivity|].
  rewrite IH. reflexivity.
Qed.

(** X16. Every connection ID that [issueLocalIDs] appends to [local] in a
    call that returns no error leads to the connection after the next
    update round, whatever was pending before. *)
Theorem issueLocalIDs_registers maxPeer newConnID s c k s' ups k' m :
  0 <= nextLocalSeq s -> inRange maxPeer s ->
  issueLocalIDs maxPeer newConnID s c k = (None, s', ups, k') ->
  exists new,
    local s' = local s ++ new /\
    forall e, In e new ->
      Listener.byConnID (afterUpdates m ups) !! cid e = Some c.
Proof.
  intros Hseq Hrange Hrun.
  destruct (issueLocalIDs_any _ _ _ _ _ _ _ _ _ Hseq Hrange Hrun)
    as (ids & _ & Hloc & _ & _ & _ & _ & Hok & _).
  destruct (Hok eq_refl) as [_ ->].
  exists (issuedFrom (nextLocalSeq s) ids). split; [exact Hloc|].
  intros e He. apply In_issuedFrom in He.
  destruct (afterUpdates_maps m [map (addConnID c) ids]) as (-> & _).
  rewrite idsAfter_app. apply idsAfter_added.
  - intros op Hop. simpl in Hop. rewrite app_nil_r in Hop.
    apply in_map_iff in Hop as (id' & <- & _). eauto.
  - right. simpl. rewrite app_nil_r. apply in_map. exact He.
Qed.

Lemma issueLocalIDs_registers_witness :
  let r := issueLocalIDs 4 countingIDs serverLimit3 conn7 0 in
  (0 <= nextLocalSeq serverLimit3 /\ inRange 4 serverLimit3 /\
   r = (None, r.1.1.2, r.1.2, r.2)) /\
  exists new,
    local r.1.1.2 = local serverLimit3 ++ new /\
    forall e, In e new ->
      Listener.byConnID (afterUpdates tableAB r.1.2) !! cid e = Some conn7.
Proof.
  intros r. destruct serverLimit3_inRange as [H1 H2].
  assert (H3 : r = (None, r.1.1.2, r.1.2, r.2)) by reflexivity.
  split; [auto|].
  exact (issueLocalIDs_registers 4 countingIDs serverLimit3 conn7 0
           r.1.1.2 r.1.2 r.2 tableAB H1 H2 H3).
Defined.

Lemma findSeq_first l1 e l2 sq :
  Forall (fun x => seq x <> sq) l1 -> seq e = sq ->
  findSeq (l1 ++ e :: l2) sq = Some (length l1).
Proof.
  intros Hall Heq. induction Hall as [|x l1 Hx _ IH]; simpl.
  - rewrite Heq, Z.eqb_refl. reflexivity.
  - replace (seq x =? sq) with false by (symmetry; apply Z.eqb_neq; exact Hx).
    rewrite IH. reflexivity.
Qed.

(** X17. The connection ID that [handleRetireConnID] retires leads nowhere
    after the next update round, unless the call has drawn the very same
    bytes again for a new connection ID. The new connection IDs come
    after the ones that are left. *)
Theorem handleRetireConnID_unregisters maxPeer newConnID s c k sq s' ups k' m
    l1 e l2 :
  0 <= nextLocalSeq s -> inRange maxPeer s ->
  local s = l1 ++ e :: l2 -> seq e = sq -> Forall (fun x => seq x <> sq) l1 ->
  handleRetireConnID maxPeer newConnID s c k sq = (None, s', ups, k') ->
  exists new,
    local s' = l1 ++ l2 ++ new /\
    (~ In (cid e) (map cid new) ->
     Listener.byConnID (afterUpdates m ups) !! cid e = None).
Proof.
  intros Hseq (Hr1 & Hr2 & Hr3) Hl Heq Hall Hrun.
  unfold handleRetireConnID in Hrun.
  destruct (sq >=? nextLocalSeq s); [discriminate|].
  rewrite Hl, (findSeq_first l1 e l2 sq Hall Heq) in Hrun.
  rewrite take_app_length in Hrun.
  replace (drop (S (length l1)) (l1 ++ e :: l2)) with l2 in Hrun.
  2:{ change (l1 ++ e :: l2) with (l1 ++ [e] ++ l2). rewrite app_assoc.
      replace (S (length l1)) with (length (l1 ++ [e]))
        by (rewrite length_app; simpl; lia).
      rewrite drop_app_length. reflexivity. }
  rewrite app_nth2, Nat.sub_diag in Hrun by lia. simpl nth in Hrun.
  set (s1 := set_local (l1 ++ l2) s) in Hrun.
  destruct (issueLocalIDs maxPeer newConnID s1 c k) as [[[e1 s2] ups2] k2] eqn:Hissue.
  injection Hrun as <- <- <-.
  assert (Hrange1 : inRange maxPeer s1).
  { unfold inRange, s1. simpl. rewrite Hl in Hr2.
    rewrite !length_app in *. simpl in Hr2. repeat split; try assumption; lia. }
  destruct (issueLocalIDs_any maxPeer newConnID s1 c k _ _ _ _ Hseq Hrange1 Hissue)
    as (ids & _ & Hloc & _ & _ & _ & _ & Hok & Herr).
  exists (issuedFrom (nextLocalSeq s1) ids).
  split; [rewrite Hloc; simpl; rewrite app_assoc; reflexivity|].
  rewrite map_cid_issuedFrom. intros Hnew.
  match goal with
  | |- context [afterUpdates m ?u] =>
      destruct (afterUpdates_maps m u) as (Hids & _); rewrite Hids
  end.
  rewrite idsAfter_app. apply idsAfter_retired.
  - intros c0 Hadd. simpl in Hadd. destruct Hadd as [Hadd | Hadd]; [discriminate|].
    destruct e1 as [err|].
    + destruct (Herr ltac:(discriminate)) as (_ & _ & -> & _). destruct Hadd.
    + destruct (Hok eq_refl) as [_ ->]. simpl in Hadd. rewrite app_nil_r in Hadd.
      apply in_map_iff in Hadd as (id' & Hid & Hin). congruence.
  - right. exists c. left. reflexivity.
Qed.

Lemma handleRetireConnID_unregisters_witness :
  let r := handleRetireConnID 4 countingIDs serverLimit3 conn7 0 0 in
  let e := mkConnID 0 (repeat 0 8) in
  (0 <= nextLocalSeq serverLimit3 /\ inRange 4 serverLimit3 /\
   local serverLimit3 = [mkConnID (-1) cidA] ++ e :: [] /\ seq e = 0 /\
   Forall (fun x => seq x <> 0) [mkConnID (-1) cidA] /\
   r = (None, r.1.1.2, r.1.2, r.2)) /\
  exists new,
    local r.1.1.2 = [mkConnID (-1) cidA] ++ [] ++ new /\
    (~ In (cid e) (map cid new) ->
     Listener.byConnID (afterUpdates tableAB r.1.2) !! cid e = None).
Proof.
  intros r e. destruct serverLimit3_inRange as [H1 H2].
  assert (H3 : local serverLimit3 = [mkConnID (-1) cidA] ++ e :: []) by reflexivity.
  assert (H4 : seq e = 0) by reflexivity.
  assert (H5 : Forall (fun x => seq x <> 0) [mkConnID (-1) cidA])
    by (repeat constructor; discriminate).
  assert (H6 : r = (None, r.1.1.2, r.1.2, r.2)) by reflexivity.
  split; [auto 10|].
  exact (handleRetireConnID_unregisters 4 countingIDs serverLimit3 conn7 0 0
           r.1.1.2 r.1.2 r.2 tableAB [mkConnID (-1) cidA] e [] H1 H2 H3 H4 H5 H6).
Defined.

(** *** Acknowledged and lost NEW_CONNECTION_ID frames *)

Lemma ackOrLossLocal_shape ackOrLoss pnum sq fate l :
  let r := ackOrLossLocal ackOrLoss l pnum sq fate in
  Forall2 (fun e e' : connID =>
             cid e' = cid e /\ seq e' = seq e /\ retired e' = retired e /\
             (seq e <> sq -> e' = e)) l r.1 /\
  r.2 = existsb (fun e : connID => seq e =? sq) l &&
        match fate with packetAcked => false | _ => true end.
Proof.
  cbv zeta.
  assert (Hrefl : forall l0 : list connID,
            Forall2 (fun e e' : connID =>
                       cid e' = cid e /\ seq e' = seq e /\ retired e' = retired e /\
                       (seq e <> sq -> e' = e)) l0 l0).
  { induction l0; constructor; auto. }
  induction l as [|e l IH]; simpl.
  - split; [constructor | reflexivity].
  - destruct (Z.eqb_spec (seq e) sq) as [Heq | Hne]; simpl.
    + split; [|reflexivity]. constructor; [|apply Hrefl].
      simpl. repeat split; auto. intros H. contradiction.
    + destruct (ackOrLossLocal ackOrLoss l pnum sq fate) as [l' ns].
      simpl in *. destruct IH as [IH1 IH2]. split; [|exact IH2].
      constructor; [auto | exact IH1].
Qed.

(** X18. [ackOrLossNewConnectionID] touches nothing but the send state of
    the first local connection ID with the sequence number: every local
    connection ID keeps its place, its bytes, its sequence number and its
    retirement, so that [srcConnID] answers as before; the remote
    connection IDs and the next sequence number are as before; and
    [needSend] is set when the frame is lost and the sequence number is
    present, and never cleared. *)
Theorem ackOrLossNewConnectionID_keeps_ids ackOrLoss s pnum sq fate :
  let s' := ackOrLossNewConnectionID ackOrLoss s pnum sq fate in
  Forall2 (fun e e' : connID =>
             cid e' = cid e /\ seq e' = seq e /\ retired e' = retired e /\
             (seq e <> sq -> e' = e)) (local s) (local s') /\
  srcConnID s' = srcConnID s /\
  remote s' = remote s /\ nextLocalSeq s' = nextLocalSeq s /\
  needSend s' =
    needSend s ||
    (existsb (fun e : connID => seq e =? sq) (local s) &&
     match fate with packetAcked => false | _ => true end).
Proof.
  cbv zeta. unfold ackOrLossNewConnectionID.
  pose proof (ackOrLossLocal_shape ackOrLoss pnum sq fate (local s)) as Hshape.
  cbv zeta in Hshape.
  destruct (ackOrLossLocal ackOrLoss (local s) pnum sq fate) as [l' ns].
  simpl in Hshape. destruct Hshape as [Hall Hns].
  assert (Hloc : local (if ns then set_needSend true (set_local l' s)
                        else set_local l' s) = l')
    by (destruct ns; reflexivity).
  rewrite Hloc. split; [exact Hall|]. split; [|split; [|split]].
  - unfold srcConnID. rewrite Hloc.
    pose proof (Forall2_length _ _ _ Hall) as Hlen.
    destruct Hall as [|e e' rest rest' (Hcid & Hseq & _) Hrest]; [reflexivity|].
    rewrite Hseq, Hcid, <- Hlen.
    destruct Hrest as [|e1 e1' ? ? (Hcid1 & _) _]; simpl; [reflexivity|].
    rewrite Hcid1. reflexivity.
  - destruct ns; reflexivity.
  - destruct ns; reflexivity.
  - rewrite <- Hns. destruct ns; simpl.
    + rewrite orb_true_r. reflexivity.
    + rewrite orb_false_r. reflexivity.
Qed.

End ConnIDRestFacts.

(** ** The listener, further properties *)

Module ListenerRestFacts.
Import Listener ListenerRest ListenerFacts.

Section WithExternals.

Context {ext : Externals}.

(** *** Closing *)

(** X19. The first [Close] aborts each connection the listener has exactly
    once and no other, and sets [closing]; a further [Close] aborts
    nothing, leaves the listener as it is and does not close the socket
    again. *)
Theorem Close_aborts_once l :
  closing l = false ->
  NoDup (Close l).2 /\
  (forall e, In e (Close l).2 <->
     exists c, c ∈ conns l /\ e = evAbort c (localTransportError errNo)) /\
  closing (Close l).1 = true /\ conns (Close l).1 = conns l /\
  Close (Close l).1 = ((Close l).1, []).
Proof.
  intros Hc.
  assert (Hnd : NoDup (map (fun c => evAbort c (localTransportError errNo))
                           (elements (conns l)))).
  { assert (Hinj : Inj eq eq (fun c : Conn => evAbort c (localTransportError errNo))).
    { intros x y H. injection H. auto. }
    apply (NoDup_fmap_2 _), NoDup_elements. }
  assert (Hin : forall e,
            In e (map (fun c => evAbort c (localTransportError errNo))
                      (elements (conns l))) <->
            exists c, c ∈ conns l /\ e = evAbort c (localTransportError errNo)).
  { intros e. rewrite in_map_iff. split.
    - intros (c & <- & Hin). exists c. split; [|reflexivity].
      apply elem_of_elements, list_elem_of_In. exact Hin.
    - intros (c & Hin & ->). exists c. split; [reflexivity|].
      apply list_elem_of_In, elem_of_elements. exact Hin. }
  unfold Close. simpl. rewrite Hc. simpl.
  destruct (size (conns l) =? 0)%nat; simpl;
    (split; [exact Hnd|]); (split; [exact Hin|]);
    (split; [reflexivity|]); (split; reflexivity).
Qed.

(** In the runs in which a connection reports to have drained once, the
    socket is not closed twice. *)
Lemma orderly_calls cfg l :
  orderly cfg l ->
  (closing l = true /\ conns l = ∅ -> udpCloseCalls l = 1%nat) /\
  (~ (closing l = true /\ conns l = ∅) -> udpCloseCalls l = 0%nat).
Proof.
  induction 1 as [|l now a Hreach IH|l now m Hreach IH|l Hreach IH
                  |l c s Hreach IH Hin|l f Hreach IH].
  - simpl. split; [intros [? _]; discriminate | reflexivity].
  - destruct (newConn_admits l now clientSide [] [] a)
      as (H1 & H2 & [H3 | [H3 [c H4]]]); unfold Dial; rewrite H1, H2.
    + rewrite H3. exact IH.
    + split; [intros [? _]; congruence|].
      intros _. apply IH. intros [? _]. congruence.
  - destruct (listen_round_admits l now m)
      as (H1 & H2 & [H3 | [H3 [c H4]]]); rewrite H1, H2.
    + rewrite H3. exact IH.
    + split; [intros [? _]; congruence|].
      intros _. apply IH. intros [? _]. congruence.
  - unfold Close. simpl. destruct (closing l) eqn:Hc; simpl; [rewrite ?Hc; exact IH|].
    assert (H0 : udpCloseCalls l = 0%nat)
      by (apply IH; intros [? _]; congruence).
    destruct (size (conns l) =? 0)%nat eqn:Hsz; simpl; rewrite H0.
    + split; [reflexivity|]. intros Hn. exfalso. apply Hn.
      apply size_zero_iff in Hsz. auto.
    + split; [|reflexivity]. intros [_ He]. apply size_zero_iff in He. congruence.
  - assert (H0 : udpCloseCalls l = 0%nat).
    { apply IH. intros [_ He]. rewrite He in Hin.
      exact (not_elem_of_empty (C := gset Conn) c Hin). }
    unfold connDrained. simpl. destruct (closing l) eqn:Hc; simpl.
    + destruct (size (conns l ∖ {[c]}) =? 0)%nat eqn:Hsz; simpl; rewrite H0.
      * split; [reflexivity|]. intros Hn. exfalso. apply Hn.
        apply size_zero_iff in Hsz. auto.
      * split; [|reflexivity]. intros [_ He]. apply size_zero_iff in He. congruence.
    + rewrite H0. split; [intros [? _]; congruence | reflexivity].
  - simpl. exact IH.
Qed.

(** X20. In the runs in which [connDrained] is only called for a
    connection the listener has, [udpConn.Close] is called at most once,
    and it has been called exactly when the listener is closing and has no
    connection. *)
Theorem socket_closed_once cfg l :
  orderly cfg l ->
  (udpCloseCalls l <= 1)%nat /\
  (udpCloseCalls l = 1%nat <-> closing l = true /\ conns l = ∅).
Proof.
  intros Hrun. destruct (orderly_calls cfg l Hrun) as [H1 H0].
  destruct (closing l) eqn:Hc.
  - destruct (decide (conns l = ∅)) as [He | Hne].
    + rewrite H1 by auto. split; [lia | tauto].
    + rewrite H0 by tauto. split; [lia|].
      split; [discriminate | tauto].
  - rewrite H0 by (intros [? _]; discriminate). split; [lia|].
    split; [discriminate | intros [? _]; discriminate].
Qed.

(** *** The table and the listen loop *)

Lemma applyUpdates_one m f :
  applyUpdates (updateConnIDs m f) = ConnIDRest.afterUpdates m [f].
Proof. reflexivity. Qed.

(** X21. A connection ID that a connection has registered is served by the
    next round of the listen loop: a datagram for it goes to that
    connection and to nothing else, whatever was pending before. One that
    has been retired is no longer served: the datagram is handled as one
    for no connection. *)
Theorem listen_round_routes l now m c id :
  (0 < length (b m))%nat ->
  dstConnIDForDatagram (b m) = Some id ->
  let added := set_conns_map (updateConnIDs (conns_map l) [addConnID c id]) l in
  let gone := set_conns_map (updateConnIDs (conns_map l) [retireConnID c id]) l in
  listen_round added now m =
    (set_conns_map (applyUpdates (conns_map added)) added,
     [evSendMsgDatagram c m]) /\
  listen_round gone now m =
    handleUnknownDestinationDatagram
      (set_conns_map (applyUpdates (conns_map gone)) gone) now m.
Proof.
  intros Hlen Hdst. cbv zeta.
  assert (Hround : forall f,
            listen_round (set_conns_map (updateConnIDs (conns_map l) f) l) now m =
            handleDatagram
              (set_conns_map (ConnIDRest.afterUpdates (conns_map l) [f]) l) now m).
  { intros f. unfold listen_round.
    replace (length (b m) =? 0)%nat with false
      by (symmetry; apply Nat.eqb_neq; lia).
    reflexivity. }
  rewrite !Hround. unfold handleDatagram. rewrite Hdst.
  change (conns_map (set_conns_map ?x _)) with x.
  split.
  - match goal with
    | |- context [ConnIDRest.afterUpdates ?x ?u] =>
        destruct (ConnIDRestFacts.afterUpdates_maps x u) as (Hids & _);
        rewrite Hids
    end.
    rewrite ConnIDRestFacts.idsAfter_app. simpl.
    rewrite lookup_insert_eq. reflexivity.
  - match goal with
    | |- context [ConnIDRest.afterUpdates ?x ?u] =>
        destruct (ConnIDRestFacts.afterUpdates_maps x u) as (Hids & _);
        rewrite Hids
    end.
    rewrite ConnIDRestFacts.idsAfter_app. simpl.
    rewrite lookup_delete_eq. reflexivity.
Qed.

(** X22. When a connection has drained, the next update round leaves none
    of its local connection IDs and none of the reset tokens of its remote
    connection IDs in the table, whatever was pending; the connection is
    out of the set of the listener, which gets no other connection. *)
Theorem connDrained_unregisters l c s :
  let l' := connDrained l c s in
  let m := applyUpdates (conns_map l') in
  (forall id, In id (map ConnID.cid (ConnID.local s)) -> byConnID m !! id = None) /\
  (forall t, In t (map ConnID.resetToken (ConnID.remote s)) ->
             byResetToken m !! t = None) /\
  updates m = [] /\ (c ∉ conns l') /\ (conns l' ⊆ conns l).
Proof.
  cbv zeta.
  set (f := map (retireConnID c) (map ConnID.cid (ConnID.local s)) ++
            map (retireResetToken c) (map ConnID.resetToken (ConnID.remote s))).
  assert (Hmap : conns_map (connDrained l c s) = updateConnIDs (conns_map l) f).
  { unfold connDrained. cbv zeta. fold f.
    destruct (_ && _); reflexivity. }
  assert (Hconns : conns (connDrained l c s) = conns l ∖ {[c]}).
  { unfold connDrained. cbv zeta. destruct (_ && _); reflexivity. }
  rewrite Hmap, Hconns, applyUpdates_one.
  match goal with
  | |- context [ConnIDRest.afterUpdates ?x ?u] =>
      destruct (ConnIDRestFacts.afterUpdates_maps x u) as (Hids & Htoks & Hups & _);
      rewrite Hids, Htoks, Hups
  end.
  assert (Hnoadd : forall op, In op f ->
            (exists id, op = retireConnID c id) \/ (exists t, op = retireResetToken c t)).
  { intros op Hin. subst f. apply in_app_or in Hin as [Hin | Hin];
      apply in_map_iff in Hin as (x & <- & _); eauto. }
  simpl concat. rewrite app_nil_r.
  split; [|split; [|split; [reflexivity|split]]].
  - intros id Hin. rewrite ConnIDRestFacts.idsAfter_app.
    apply ConnIDRestFacts.idsAfter_retired.
    + intros c0 Hadd. destruct (Hnoadd _ Hadd) as [[? ?] | [? ?]]; discriminate.
    + right. exists c. subst f. apply in_or_app. left. apply in_map. exact Hin.
  - intros t Hin. rewrite ConnIDRestFacts.tokensAfter_app.
    apply ConnIDRestFacts.tokensAfter_retired.
    + intros c0 Hadd. destruct (Hnoadd _ Hadd) as [[? ?] | [? ?]]; discriminate.
    + right. exists c. subst f. apply in_or_app. right. apply in_map. exact Hin.
  - intros Hin. apply elem_of_difference in Hin as [_ Hin].
    apply Hin, elem_of_singleton. reflexivity.
  - apply subseteq_difference_l. reflexivity.
Qed.

(** *** Datagrams for no connection *)

(** X23. A datagram for no connection, of at least
    [minimumValidPacketSize] bytes, whose last 16 bytes are a reset token
    registered for a connection, is reported to that connection as a
    stateless reset with these bytes; nothing is sent, no connection is
    made and the listener is as before, whatever the header says. *)
Theorem stateless_reset_detected l now m c :
  (minimumValidPacketSize <= length (b m))%nat ->
  byResetToken (conns_map l) !! tail_from statelessResetTokenLen (b m) = Some c ->
  handleUnknownDestinationDatagram l now m =
    (l, [evSendMsgStatelessReset c (tail_from statelessResetTokenLen (b m))]).
Proof.
  intros Hmin Htok. unfold minimumValidPacketSize in Hmin.
  unfold handleUnknownDestinationDatagram.
  replace (length (b m) <? minimumValidPacketSize)%nat with false
    by (symmetry; apply Nat.ltb_ge; unfold minimumValidPacketSize; lia).
  rewrite token_of_tail by (unfold statelessResetTokenLen; lia).
  rewrite Htok. reflexivity.
Qed.

(** X24. The listener makes a connection for a datagram only when it is
    not closing and the datagram has at least [paddedInitialDatagramSize]
    bytes, does not end in a registered reset token, has a long header
    that parses, of version [quicVersion1] and of type Initial, and, where
    the configuration requires it, its address is validated; the
    connection is the one [newConn] makes from these. *)
Theorem connection_needs_initial l now m l' evs :
  handleUnknownDestinationDatagram l now m = (l', evs) ->
  conns l' <> conns l ->
  closing l = false /\
  (paddedInitialDatagramSize <= length (b m))%nat /\
  byResetToken (conns_map l) !! tail_from statelessResetTokenLen (b m) = None /\
  isLongHeader (nth O (b m) 0) = true /\
  exists p o r evs0,
    parseGenericLongHeaderPacket (b m) = Some p /\
    version p = quicVersion1 /\
    getPacketType (b m) = packetTypeInitial /\
    addressCheck l now p m = Some (o, r, evs0) /\
    exists c, newConn l now serverSide o r (addr m) = (Some c, l') /\
              evs = evs0 ++ [evSendMsgDatagram c m].
Proof.
  unfold handleUnknownDestinationDatagram, addressCheck.
  intros Hrun Hnew.
  destruct (Nat.ltb_spec (length (b m)) minimumValidPacketSize) as [Hsmall|Hbig];
    [injection Hrun as <- _; congruence|].
  unfold minimumValidPacketSize in Hbig.
  rewrite token_of_tail in Hrun by (unfold statelessResetTokenLen; lia).
  destruct (byResetToken (conns_map l) !! _) eqn:Htok;
    [injection Hrun as <- _; congruence|].
  destruct (isLongHeader (nth O (b m) 0)) eqn:Hlong; simpl in Hrun;
    [|injection Hrun as <- _; congruence].
  destruct (parseGenericLongHeaderPacket (b m)) as [p|] eqn:Hparse;
    [|injection Hrun as <- _; congruence].
  destruct (Nat.ltb_spec (length (b m)) paddedInitialDatagramSize) as [Hshort|Hlen];
    [injection Hrun as <- _; congruence|].
  destruct (Z.eqb_spec (version p) quicVersion1) as [Hv|Hv]; simpl in Hrun;
    [|destruct (version p =? 0); injection Hrun as <- _; congruence].
  destruct (bool_decide_reflect (getPacketType (b m) = packetTypeInitial))
    as [Hty|Hty]; simpl in Hrun; [|injection Hrun as <- _; congruence].
  assert (Hc : closing l = false).
  { destruct (closing l) eqn:Hc; [|reflexivity]. exfalso.
    assert (Hsame : forall o r, newConn l now serverSide o r (addr m) = (None, l))
      by (intros; apply newConn_closing; exact Hc).
    destruct (RequireAddressValidation (config l)).
    - destruct (validateInitialAddress now p (addr m)) as [[o|] evs0].
      + rewrite Hsame in Hrun. injection Hrun as <- _. congruence.
      + injection Hrun as <- _. congruence.
    - rewrite Hsame in Hrun. injection Hrun as <- _. congruence. }
  split; [exact Hc|]. split; [exact Hlen|]. split; [reflexivity|].
  split; [reflexivity|].
  exists p.
  destruct (RequireAddressValidation (config l)).
  - destruct (validateInitialAddress now p (addr m)) as [[o|] evs0];
      [|injection Hrun as <- _; congruence].
    exists o, (dstConnID p), evs0.
    split; [reflexivity|]. split; [exact Hv|]. split; [exact Hty|].
    split; [reflexivity|].
    destruct (newConn l now serverSide o (dstConnID p) (addr m)) as [[c|] l1] eqn:Hn.
    + injection Hrun as <- <-. eauto.
    + exfalso. injection Hrun as <- _.
      pose proof (newConn_admits l now serverSide o (dstConnID p) (addr m)) as Ha.
      rewrite Hn in Ha. simpl in Ha.
      unfold newConn in Hn. rewrite Hc in Hn.
      destruct (newConn_ctor _ _ _ _ _ _) as [[c|] ups]; [discriminate|].
      injection Hn as <-. apply Hnew. reflexivity.
  - exists (dstConnID p), [], [].
    split; [reflexivity|]. split; [exact Hv|]. split; [exact Hty|].
    split; [reflexivity|].
    destruct (newConn l now serverSide (dstConnID p) [] (addr m)) as [[c|] l1] eqn:Hn.
    + injection Hrun as <- <-. eauto.
    + exfalso. injection Hrun as <- _.
      unfold newConn in Hn. rewrite Hc in Hn.
      destruct (newConn_ctor _ _ _ _ _ _) as [[c|] ups]; [discriminate|].
      injection Hn as <-. apply Hnew. reflexivity.
Qed.

(** X25. An Initial packet is admitted. A datagram of at least
    [paddedInitialDatagramSize] bytes that does not end in a registered
    reset token, with a long header that parses, of version [quicVersion1]
    and of type Initial, whose address passes the check of the
    configuration, at a listener that is not closing: when the constructor
    gives a connection, the listener has this connection more, the
    closures of the constructor are pending in the order in which they
    were handed over, and the datagram is the last thing delivered, to the
    new connection. *)
Theorem initial_admitted l now m p o r evs0 c ups :
  closing l = false ->
  (paddedInitialDatagramSize <= length (b m))%nat ->
  byResetToken (conns_map l) !! tail_from statelessResetTokenLen (b m) = None ->
  isLongHeader (nth O (b m) 0) = true ->
  parseGenericLongHeaderPacket (b m) = Some p ->
  version p = quicVersion1 ->
  getPacketType (b m) = packetTypeInitial ->
  addressCheck l now p m = Some (o, r, evs0) ->
  newConn_ctor now serverSide o r (addr m) (config l) = (Some c, ups) ->
  exists l',
    handleUnknownDestinationDatagram l now m =
      (l', evs0 ++ [evSendMsgDatagram c m]) /\
    conns l' = {[c]} ∪ conns l /\
    updates (conns_map l') = updates (conns_map l) ++ ups /\
    byConnID (conns_map l') = byConnID (conns_map l) /\
    byResetToken (conns_map l') = byResetToken (conns_map l) /\
    closing l' = false /\ udpCloseCalls l' = udpCloseCalls l.
Proof.
  intros Hc Hlen Htok Hlong Hparse Hv Hty Hcheck Hctor.
  unfold paddedInitialDatagramSize in Hlen.
  unfold handleUnknownDestinationDatagram.
  replace (length (b m) <? minimumValidPacketSize)%nat with false
    by (symmetry; apply Nat.ltb_ge; unfold minimumValidPacketSize; lia).
  rewrite token_of_tail by (unfold statelessResetTokenLen; lia).
  rewrite Htok, Hlong, Hparse. simpl negb. cbv iota.
  replace (length (b m) <? paddedInitialDatagramSize)%nat with false
    by (symmetry; apply Nat.ltb_ge; unfold paddedInitialDatagramSize; lia).
  rewrite Hv, Z.eqb_refl. simpl negb. cbv iota.
  rewrite bool_decide_eq_true_2 by exact Hty. simpl negb. cbv iota.
  assert (Hnew : newConn l now serverSide o r (addr m) =
                 (Some c,
                  set_conns ({[c]} ∪ conns l)
                    (set_conns_map (fold_left updateConnIDs ups (conns_map l)) l))).
  { unfold newConn. rewrite Hc, Hctor. reflexivity. }
  destruct (ConnIDRestFacts.updateConnIDs_all ups (conns_map l)) as (Hu & Hi & Ht).
  unfold addressCheck in Hcheck.
  destruct (RequireAddressValidation (config l)).
  - destruct (validateInitialAddress now p (addr m)) as [[o'|] evs'];
      [|discriminate].
    injection Hcheck as -> <- ->. rewrite Hnew.
    eexists. split; [reflexivity|]. simpl. repeat split; assumption.
  - injection Hcheck as <- <- <-. rewrite Hnew.
    eexists. split; [reflexivity|]. simpl. repeat split; assumption.
Qed.

(** *** The stateless reset *)

Lemma first_byte_short (x : Z) :
  Z.land fixedBit headerFormLong = 0 ->
  let v := Z.lor (Z.ldiff x headerFormLong) fixedBit in
  isLongHeader v = false /\ Z.land v fixedBit = fixedBit.
Proof.
  intros Hbits v. subst v. unfold isLongHeader. split.
  - rewrite Z.land_lor_distr_l, Z.land_ldiff, Hbits. reflexivity.
  - rewrite Z.land_lor_distr_l, Z.land_diag.
    apply Z.bits_inj'. intros n Hn.
    rewrite Z.lor_spec, Z.land_spec.
    destruct (Z.testbit fixedBit n), (Z.testbit (Z.ldiff x headerFormLong) n);
      reflexivity.
Qed.

(** X26. Whenever the listener sends a stateless reset, its first byte has
    the long-header bit cleared and the fixed bit set, so that it reads as
    a packet with a short header; this needs no more than that the two
    bits differ. *)
Theorem stateless_reset_has_short_header l (bs : bytes) a p :
  Z.land fixedBit headerFormLong = 0 ->
  In (evWriteTo p a) (maybeSendStatelessReset l bs a) ->
  isLongHeader (nth O p 0) = false /\ Z.land (nth O p 0) fixedBit = fixedBit.
Proof.
  intros Hbits. unfold maybeSendStatelessReset, sendDatagram.
  destruct (canReset (resetGen l)); simpl negb; cbv iota; [|intros []].
  destruct (Nat.ltb_spec (length bs) (1 + connIDLen + 1 + 1 + 16)) as [Hs|Hlen];
    [intros []|].
  unfold connIDLen in Hlen. cbv zeta.
  set (size := Nat.min (length bs - 1) 42).
  set (b1 := take size bs).
  assert (H1 : length b1 = size) by (subst b1 size; rewrite length_take; lia).
  rewrite H1.
  set (n := (size - statelessResetTokenLen)%nat).
  set (b2 := copy (take n b1) randomBytes ++ drop n b1).
  assert (H2 : length b2 = size).
  { subst b2. rewrite length_app, length_copy, length_take, length_drop, H1.
    subst n. lia. }
  rewrite length_insert, H2. fold n.
  assert (Hn : (0 < n)%nat) by (subst n size; unfold statelessResetTokenLen; lia).
  destruct b2 as [|y b2'] eqn:Hb2; [simpl in H2; subst size; lia|].
  destruct n as [|n']; [lia|].
  intros [Heq | []]. injection Heq as <-. simpl.
  exact (first_byte_short y Hbits).
Qed.

(** *** The reset token, from end to end *)

(** X27. The stateless reset the listener sends in answer to a datagram is
    recognised by a listener of the peer at which the token of the
    connection ID of that datagram is registered: there it is reported to
    the connection of the token as a stateless reset, from whatever
    address it comes. *)
Theorem stateless_reset_round_trip l (bs : bytes) a peerL now c :
  canReset (resetGen l) = true ->
  length (tokenForConnID (resetGen l) (take connIDLen (drop 1 bs))) =
    statelessResetTokenLen ->
  (1 + connIDLen + 1 + 1 + 16 <= length bs)%nat ->
  byResetToken (conns_map peerL)
    !! tokenForConnID (resetGen l) (take connIDLen (drop 1 bs)) = Some c ->
  exists p,
    maybeSendStatelessReset l bs a = [evWriteTo p a] /\
    forall from,
      handleUnknownDestinationDatagram peerL now {| b := p; addr := from |} =
        (peerL,
         [evSendMsgStatelessReset c
            (tokenForConnID (resetGen l) (take connIDLen (drop 1 bs)))]).
Proof.
  intros Hcan Htoken Hlen Hreg.
  destruct (maybeSendStatelessReset_sends l bs a Hcan Htoken Hlen)
    as (p & Hsend & Hsize & Htail).
  exists p. split; [exact Hsend|]. intros from.
  unfold connIDLen in Hlen.
  unfold handleUnknownDestinationDatagram. simpl b.
  replace (length p <? minimumValidPacketSize)%nat with false
    by (symmetry; apply Nat.ltb_ge; unfold minimumValidPacketSize; lia).
  rewrite token_of_tail by (unfold statelessResetTokenLen; lia).
  rewrite Htail, Hreg. reflexivity.
Qed.

(** X28. The reset token of the transport parameters a client accepts is
    served by its listener after the next update round: a datagram for no
    connection, of at least [minimumValidPacketSize] bytes, that ends in
    the first 16 bytes of the token is reported to that connection as a
    stateless reset, and nothing is sent. *)
Theorem peer_reset_token_served s c side isRetry p s' ups l now m :
  ConnIDRest.validateTransportParameters s c side isRetry p = Some (None, s', ups) ->
  ConnIDRest.p_statelessResetToken p <> [] ->
  (minimumValidPacketSize <= length (b m))%nat ->
  tail_from statelessResetTokenLen (b m) =
    take 16 (ConnIDRest.p_statelessResetToken p) ->
  let l1 := set_conns_map (ConnIDRest.afterUpdates (conns_map l) ups) l in
  handleUnknownDestinationDatagram l1 now m =
    (l1, [evSendMsgStatelessReset c (take 16 (ConnIDRest.p_statelessResetToken p))]).
Proof.
  intros Hrun Hne Hmin Htail l1.
  pose proof (ConnIDRestFacts.validate_token_ups s c side isRetry p s' ups Hrun Hne)
    as Hups.
  assert (Hreg : byResetToken (conns_map l1)
                   !! take 16 (ConnIDRest.p_statelessResetToken p) = Some c).
  { subst l1. change (conns_map (set_conns_map ?x _)) with x.
    match goal with
    | |- context [ConnIDRest.afterUpdates ?x ?u] =>
        destruct (ConnIDRestFacts.afterUpdates_maps x u) as (_ & Htoks & _);
        rewrite Htoks
    end.
    rewrite Hups. simpl concat. apply ConnIDRestFacts.tokensAfter_added. }
  unfold minimumValidPacketSize in Hmin.
  unfold handleUnknownDestinationDatagram.
  replace (length (b m) <? minimumValidPacketSize)%nat with false
    by (symmetry; apply Nat.ltb_ge; unfold minimumValidPacketSize; lia).
  rewrite token_of_tail by (unfold statelessResetTokenLen; lia).
  rewrite Htail, Hreg. reflexivity.
Qed.

End WithExternals.

#[local] Existing Instance sampleExternals.

Lemma Close_aborts_once_witness :
  closing busyListener = false /\
  NoDup (Close busyListener).2 /\
  (forall e, In e (Close busyListener).2 <->
     exists c, c ∈ conns busyListener /\ e = evAbort c (localTransportError errNo)) /\
  closing (Close busyListener).1 = true /\
  conns (Close busyListener).1 = conns busyListener /\
  Close (Close busyListener).1 = ((Close busyListener).1, []).
Proof.
  split; [reflexivity|]. exact (Close_aborts_once busyListener eq_refl).
Defined.

Lemma socket_closed_once_witness :
  let cfg := config freshListener in
  let l := (Close (newListener cfg)).1 in
  orderly cfg l /\
  (udpCloseCalls l <= 1)%nat /\
  (udpCloseCalls l = 1%nat <-> closing l = true /\ conns l = ∅).
Proof.
  intros cfg l.
  assert (H : orderly cfg l) by exact (orderly_Close cfg _ (orderly_new cfg)).
  split; [exact H|]. exact (socket_closed_once cfg l H).
Defined.

Lemma listen_round_routes_witness :
  let l := freshListener in
  let m := shortHeaderDatagram 30 in
  let c := ConnID.conn7 in
  let id := [1; 2; 3; 4; 5; 6; 7; 8] in
  ((0 < length (b m))%nat /\ dstConnIDForDatagram (b m) = Some id) /\
  let added := set_conns_map (updateConnIDs (conns_map l) [addConnID c id]) l in
  let gone := set_conns_map (updateConnIDs (conns_map l) [retireConnID c id]) l in
  listen_round added 0 m =
    (set_conns_map (applyUpdates (conns_map added)) added,
     [evSendMsgDatagram c m]) /\
  listen_round gone 0 m =
    handleUnknownDestinationDatagram
      (set_conns_map (applyUpdates (conns_map gone)) gone) 0 m.
Proof.
  intros l m c id.
  assert (H1 : (0 < length (b m))%nat) by (vm_compute; lia).
  assert (H2 : dstConnIDForDatagram (b m) = Some id) by reflexivity.
  split; [split; assumption|].
  exact (listen_round_routes l 0 m c id H1 H2).
Defined.

Lemma stateless_reset_detected_witness :
  let l := resetListener in
  let m := shortHeaderDatagram 30 in
  let c := ConnID.conn7 in
  ((minimumValidPacketSize <= length (b m))%nat /\
   byResetToken (conns_map l) !! tail_from statelessResetTokenLen (b m) = Some c) /\
  handleUnknownDestinationDatagram l 0 m =
    (l, [evSendMsgStatelessReset c (tail_from statelessResetTokenLen (b m))]).
Proof.
  intros l m c.
  assert (H1 : (minimumValidPacketSize <= length (b m))%nat) by (vm_compute; lia).
  assert (H2 : byResetToken (conns_map l)
                 !! tail_from statelessResetTokenLen (b m) = Some c)
    by (vm_compute; reflexivity).
  split; [split; assumption|].
  exact (stateless_reset_detected l 0 m c H1 H2).
Defined.

Lemma connection_needs_initial_witness :
  let l := freshListener in
  let m := initialDatagram in
  let r := handleUnknownDestinationDatagram l 5 m in
  (r = (r.1, r.2) /\ conns r.1 <> conns l) /\
  closing l = false /\
  (paddedInitialDatagramSize <= length (b m))%nat /\
  byResetToken (conns_map l) !! tail_from statelessResetTokenLen (b m) = None /\
  isLongHeader (nth O (b m) 0) = true /\
  exists p o r0 evs0,
    parseGenericLongHeaderPacket (b m) = Some p /\
    version p = quicVersion1 /\
    getPacketType (b m) = packetTypeInitial /\
    addressCheck l 5 p m = Some (o, r0, evs0) /\
    exists c, newConn l 5 serverSide o r0 (addr m) = (Some c, r.1) /\
              r.2 = evs0 ++ [evSendMsgDatagram c m].
Proof.
  intros l m r.
  assert (H1 : r = (r.1, r.2)) by (destruct r; reflexivity).
  assert (H2 : conns r.1 <> conns l).
  { intros Heq.
    assert (Hin : 5%nat ∈ conns r.1).
    { change (conns r.1) with ({[5%nat]} ∪ (∅ : gset Conn)).
      apply elem_of_union_l, elem_of_singleton. reflexivity. }
    rewrite Heq in Hin. exact (not_elem_of_empty (C := gset Conn) _ Hin). }
  split; [split; assumption|].
  exact (connection_needs_initial l 5 m r.1 r.2 H1 H2).
Defined.

Lemma initial_admitted_witness :
  let l := freshListener in
  let m := initialDatagram in
  let p := {| version := 1; dstConnID := [1; 2; 3; 4; 5; 6; 7; 8];
              srcConnID := [11; 12; 13; 14; 15; 16; 17; 18] |} in
  let o := dstConnID p in
  let c := 5%nat in
  (closing l = false /\
   (paddedInitialDatagramSize <= length (b m))%nat /\
   byResetToken (conns_map l) !! tail_from statelessResetTokenLen (b m) = None /\
   isLongHeader (nth O (b m) 0) = true /\
   parseGenericLongHeaderPacket (b m) = Some p /\
   version p = quicVersion1 /\
   getPacketType (b m) = packetTypeInitial /\
   addressCheck l 5 p m = Some (o, [], []) /\
   newConn_ctor 5 serverSide o [] (addr m) (config l) = (Some c, [])) /\
  exists l',
    handleUnknownDestinationDatagram l 5 m =
      (l', [] ++ [evSendMsgDatagram c m]) /\
    conns l' = {[c]} ∪ conns l /\
    updates (conns_map l') = updates (conns_map l) ++ [] /\
    byConnID (conns_map l') = byConnID (conns_map l) /\
    byResetToken (conns_map l') = byResetToken (conns_map l) /\
    closing l' = false /\ udpCloseCalls l' = udpCloseCalls l.
Proof.
  intros l m p o c.
  assert (H1 : closing l = false) by reflexivity.
  assert (H2 : (paddedInitialDatagramSize <= length (b m))%nat) by (vm_compute; lia).
  assert (H3 : byResetToken (conns_map l)
                 !! tail_from statelessResetTokenLen (b m) = None)
    by apply lookup_empty.
  assert (H4 : isLongHeader (nth O (b m) 0) = true) by reflexivity.
  assert (H5 : parseGenericLongHeaderPacket (b m) = Some p) by (vm_compute; reflexivity).
  assert (H6 : version p = quicVersion1) by reflexivity.
  assert (H7 : getPacketType (b m) = packetTypeInitial) by reflexivity.
  assert (H8 : addressCheck l 5 p m = Some (o, [], [])) by reflexivity.
  assert (H9 : newConn_ctor 5 serverSide o [] (addr m) (config l) = (Some c, []))
    by reflexivity.
  split; [repeat split; assumption|].
  exact (initial_admitted l 5 m p o [] [] c [] H1 H2 H3 H4 H5 H6 H7 H8 H9).
Defined.

Lemma stateless_reset_has_short_header_witness :
  let l := freshListener in
  let bs := b (shortHeaderDatagram 30) in
  let p := [106] ++ repeat 170 12 ++ [1; 2; 3; 4; 5; 6; 7; 8] ++ repeat 0 8 in
  (Z.land fixedBit headerFormLong = 0 /\
   In (evWriteTo p peer) (maybeSendStatelessReset l bs peer)) /\
  isLongHeader (nth O p 0) = false /\ Z.land (nth O p 0) fixedBit = fixedBit.
Proof.
  intros l bs p.
  assert (H1 : Z.land fixedBit headerFormLong = 0) by reflexivity.
  assert (H2 : In (evWriteTo p peer) (maybeSendStatelessReset l bs peer))
    by (left; vm_compute; reflexivity).
  split; [split; assumption|].
  exact (stateless_reset_has_short_header l bs peer p H1 H2).
Defined.

Lemma stateless_reset_round_trip_witness :
  let l := freshListener in
  let bs := b (shortHeaderDatagram 30) in
  let c := ConnID.conn7 in
  (canReset (resetGen l) = true /\
   length (tokenForConnID (resetGen l) (take connIDLen (drop 1 bs))) =
     statelessResetTokenLen /\
   (1 + connIDLen + 1 + 1 + 16 <= length bs)%nat /\
   byResetToken (conns_map peerListener)
     !! tokenForConnID (resetGen l) (take connIDLen (drop 1 bs)) = Some c) /\
  exists p,
    maybeSendStatelessReset l bs peer = [evWriteTo p peer] /\
    forall from,
      handleUnknownDestinationDatagram peerListener 0 {| b := p; addr := from |} =
        (peerListener,
         [evSendMsgStatelessReset c
            (tokenForConnID (resetGen l) (take connIDLen (drop 1 bs)))]).
Proof.
  intros l bs c.
  assert (H1 : canReset (resetGen l) = true) by reflexivity.
  assert (H2 : length (tokenForConnID (resetGen l) (take connIDLen (drop 1 bs))) =
               statelessResetTokenLen) by reflexivity.
  assert (H3 : (1 + connIDLen + 1 + 1 + 16 <= length bs)%nat) by (vm_compute; lia).
  assert (H4 : byResetToken (conns_map peerListener)
                 !! tokenForConnID (resetGen l) (take connIDLen (drop 1 bs)) = Some c)
    by (vm_compute; reflexivity).
  split; [repeat split; assumption|].
  exact (stateless_reset_round_trip l bs peer peerListener 0 c H1 H2 H3 H4).
Defined.

Lemma peer_reset_token_served_witness :
  let s := (ConnIDRest.handlePacket ConnIDRest.clientStart ConnID.conn7 clientSide
                                    packetTypeInitial ConnID.cidB).1 in
  let p := ConnIDRest.serverParams ConnID.tokenB in
  let m := resetDatagram ConnID.tokenB in
  let l := freshListener in
  let r := ConnIDRest.validateTransportParameters s ConnID.conn7 clientSide false p in
  exists s' ups,
    (r = Some (None, s', ups) /\
     ConnIDRest.p_statelessResetToken p <> [] /\
     (minimumValidPacketSize <= length (b m))%nat /\
     tail_from statelessResetTokenLen (b m) =
       take 16 (ConnIDRest.p_statelessResetToken p)) /\
    let l1 := set_conns_map (ConnIDRest.afterUpdates (conns_map l) ups) l in
    handleUnknownDestinationDatagram l1 0 m =
      (l1, [evSendMsgStatelessReset ConnID.conn7
              (take 16 (ConnIDRest.p_statelessResetToken p))]).
Proof.
  intros s p m l r. eexists _, _.
  assert (H1 : r = Some (None, _, _)) by reflexivity.
  assert (H2 : ConnIDRest.p_statelessResetToken p <> []) by discriminate.
  assert (H3 : (minimumValidPacketSize <= length (b m))%nat) by (vm_compute; lia).
  assert (H4 : tail_from statelessResetTokenLen (b m) =
               take 16 (ConnIDRest.p_statelessResetToken p)) by reflexivity.
  split; [repeat split; assumption|].
  exact (peer_reset_token_served s ConnID.conn7 clientSide false p _ _ l 0 m
           H1 H2 H3 H4).
Defined.

End ListenerRestFacts.
